(** * A shallow embedding of the Selenium crawler (crawler.js)

    The development follows [src/list_clickable_items.js]:
    - [JsString]: the few JavaScript string primitives the crawler uses;
    - [Dom]: the in-browser script [generateCssSelector];
    - [Url]: [isSameDomain], over an abstract WHATWG URL parser;
    - [Crawler]: [listClickableItems] and [crawlPage], written in a
      state-and-exception monad over an abstract WebDriver session, the
      SQLite store, the console and the VisitedSet;
    - [Runs]: the vocabulary in which runs and transcripts are described;
    - [Tutorial], [TutorialMain]: the README's earlier [crawlAndExtract]
      and the loop of its [main];
    - [Replay], [Samples]: a browser that answers from a script, used to
      run the crawler on concrete pages;
    - [Startup]: the start of [crawler.js] up to its main loop;
    - [Ledger]: the vocabulary for what a run leaves in the transcript,
      the VisitedSet and the store.

    The properties come after the definitions, one module of facts per
    module of code. *)

From Stdlib Require Import Ascii String ZArith Lia.
From stdpp Require Import gmap strings list pretty.

Local Open Scope string_scope.

Set Warnings "-register-all".

(** ** JavaScript string primitives *)

(** A [string] stands for the JavaScript string that has one UTF-16
    code unit per character, the character's code: the strings whose
    code units are all below 256 (U+0000 to U+00FF).  On these the
    primitives below are the ones of JavaScript; a string with a code
    unit from U+0100 on has no counterpart here. *)

Module JsString.

(** A non-empty string is truthy, the empty string is falsy. *)
Definition truthy (s : string) : bool :=
  match s with
  | EmptyString => false
  | String _ _ => true
  end.

(** The white space and line terminators of ECMAScript, which [\s]
    matches and [trim] strips, among the code units below 256: TAB, LF,
    VT, FF, CR, SPACE and NO-BREAK SPACE (U+00A0).  The others (U+1680,
    U+2000 to U+200A, U+2028, U+2029, U+202F, U+205F, U+3000, U+FEFF)
    are from U+0100 on. *)
Definition isSpace (c : ascii) : bool :=
  let n := nat_of_ascii c in
  (Nat.leb 9 n && Nat.leb n 13) || Nat.eqb n 32 || Nat.eqb n 160.

(** The lower-case mapping of Unicode below 256: A to Z, and U+00C0 to
    U+00DE but for the multiplication sign U+00D7, go 32 up. *)
Definition lowerChar (c : ascii) : ascii :=
  let n := nat_of_ascii c in
  if (Nat.leb 65 n && Nat.leb n 90)
     || (Nat.leb 192 n && Nat.leb n 222 && negb (Nat.eqb n 215))
  then ascii_of_nat (n + 32)
  else c.

(** [s.toLowerCase()] *)
Fixpoint toLowerCase (s : string) : string :=
  match s with
  | EmptyString => EmptyString
  | String c s' => String (lowerChar c) (toLowerCase s')
  end.

Fixpoint trimStart (s : string) : string :=
  match s with
  | EmptyString => EmptyString
  | String c s' => if isSpace c then trimStart s' else s
  end.

Fixpoint trimEnd (s : string) : string :=
  match s with
  | EmptyString => EmptyString
  | String c s' =>
      match trimEnd s' with
      | EmptyString => if isSpace c then EmptyString else String c EmptyString
      | t => String c t
      end
  end.

(** [s.trim()] *)
Definition trim (s : string) : string := trimEnd (trimStart s).

(** [s.replace(/\s+/g, r)]: every maximal run of white space becomes one
    copy of [r].  [inRun] tells that the previous character was white
    space, so that the run has been replaced already. *)
Fixpoint replaceRuns (r : string) (inRun : bool) (s : string) : string :=
  match s with
  | EmptyString => EmptyString
  | String c s' =>
      if isSpace c
      then (if inRun then replaceRuns r true s'
            else r +:+ replaceRuns r true s')
      else String c (replaceRuns r false s')
  end.

Definition replaceWhitespace (r s : string) : string := replaceRuns r false s.

(** The naive reading: every single space character becomes a dot. *)
Fixpoint spacesToDots (s : string) : string :=
  match s with
  | EmptyString => EmptyString
  | String c s' =>
      String (if Ascii.eqb c " "%char then "."%char else c) (spacesToDots s')
  end.

(** A class attribute in the usual form: names separated by single SPACE
    characters, nothing around them. *)
Fixpoint singleSpaced (afterSpace : bool) (s : string) : bool :=
  match s with
  | EmptyString => negb afterSpace
  | String c s' =>
      if isSpace c
      then Ascii.eqb c " "%char && negb afterSpace && singleSpaced true s'
      else singleSpaced false s'
  end.

(** [`${n}`] for a non-negative integer. *)
Definition ofNat (n : nat) : string := pretty n.

(** [parts.join(sep)] *)
Definition join (sep : string) (parts : list string) : string :=
  String.concat sep parts.

End JsString.

(** ** The DOM and the selector script *)

Module Dom.
Import JsString.

(** The value of [element.className]: a string on an HTML element; on
    an SVG element an [SVGAnimatedString], an object (truthy whatever
    it holds) that has no [trim]. *)
Inductive ClassName : Type :=
| ClassString (s : string)
| ClassAnimated (baseVal : string).

Coercion ClassString : string >-> ClassName.

(** An element subtree, as [parentNode.children] lists them: element
    children only. *)
Inductive Tree : Type :=
| Node (nodeName id : string) (className : ClassName) (children : list Tree).

(** Where an element sits: the way up to the root.  [before] and [after]
    are the element's siblings in [parentNode.children]. *)
Inductive Ctx : Type :=
| Detached
    (* parentNode === null *)
| UnderDocument (before after : list Tree)
    (* the parent is the document (or a fragment): not an element *)
| UnderElement (before after : list Tree)
    (pName pId : string) (pClass : ClassName) (up : Ctx).

Record Element : Type := mkElement {
  nodeName : string;
  id : string;
  className : ClassName;
  children : list Tree;
  position : Ctx
}.

(** What a variable holding a node can be in the script. *)
Inductive JsNode : Type :=
| JNull
| JDocument (children : list Tree)
| JElement (e : Element).

(** How a piece of the script ends: with a value, or with the
    [TypeError] of calling [trim], which an [SVGAnimatedString] does not
    have. *)
Inductive Completion (A : Type) : Type :=
| Normal (a : A)
| TypeError.
Arguments Normal {A} a.
Arguments TypeError {A}.

Definition toTree (e : Element) : Tree :=
  Node (nodeName e) (id e) (className e) (children e).

Definition parentNode (e : Element) : JsNode :=
  match position e with
  | Detached => JNull
  | UnderDocument b a => JDocument (b ++ toTree e :: a)
  | UnderElement b a n i c up => JElement (mkElement n i c (b ++ toTree e :: a) up)
  end.

(** [element.parentNode ? element.parentNode.children : []], as its
    length and the index of the element in it. *)
Definition siblingLength (pos : Ctx) : nat :=
  match pos with
  | Detached => 0
  | UnderDocument b a => length b + 1 + length a
  | UnderElement b a _ _ _ _ => length b + 1 + length a
  end.

Definition indexOf (pos : Ctx) : nat :=
  match pos with
  | Detached => 0
  | UnderDocument b _ => length b
  | UnderElement b _ _ _ _ _ => length b
  end.

(** [if (element.className) { selector += '.' +
    element.className.trim().replace(/\s+/g, '.') }] *)
Definition withClass (selector : string) (cls : ClassName)
  : Completion string :=
  match cls with
  | ClassString s =>
      Normal (if truthy s
              then selector +:+ "." +:+ replaceWhitespace "." (trim s)
              else selector)
  | ClassAnimated _ => TypeError
  end.

(** One turn of the loop body up to [path.unshift(selector)]: the
    fragment for the node at hand. *)
Definition fragment (name : string) (cls : ClassName) (pos : Ctx)
  : Completion string :=
  match withClass (toLowerCase name) cls with
  | Normal selector =>
      Normal (if Nat.ltb 1 (siblingLength pos)
              then selector +:+ ":nth-child(" +:+ ofNat (indexOf pos + 1)
                   +:+ ")"
              else selector)
  | TypeError => TypeError
  end.

(** The [while] loop.  [path] is the array built so far; the loop goes
    up one parent per turn. *)
Fixpoint walkUp (name : string) (cls : ClassName) (pos : Ctx)
    (path : list string) : Completion (list string) :=
  match fragment name cls pos with
  | Normal selector =>
      let path := selector :: path in
      match pos with
      | Detached => Normal path
      | UnderDocument _ _ => Normal path
      | UnderElement _ _ pName pId pClass up =>
          if truthy pId
          then Normal (("#" +:+ pId) :: path)
          else walkUp pName pClass up path
      end
  | TypeError => TypeError
  end.

(** [generateCssSelector(element)]: [Normal None] is [null]. *)
Definition generateCssSelector (n : JsNode) : Completion (option string) :=
  match n with
  | JNull => Normal None
  | JDocument _ => Normal None
  | JElement e =>
      if truthy (id e)
      then Normal (Some ("#" +:+ id e))
      else match walkUp (nodeName e) (className e) (position e) [] with
           | Normal path => Normal (Some (join " > " path))
           | TypeError => TypeError
           end
  end.

(** *** The selector in the words of the specification *)

(** The class suffix: a dot and the class attribute, trimmed, its runs
    of white space turned into dots; nothing without a class. *)
Definition classSuffix (cls : string) : string :=
  if truthy cls then "." +:+ replaceWhitespace "." (trim cls) else "".

(** The class suffix as the specification words it: each space of the
    class attribute replaced by a dot. *)
Definition spacesSuffix (cls : string) : string :=
  if truthy cls then "." +:+ spacesToDots cls else "".

(** The positional suffix: [:nth-child(k)], [k] the 1-based place among
    the parent's children, for a node that has sibling elements. *)
Definition nthChildSuffix (pos : Ctx) : string :=
  if Nat.ltb 1 (siblingLength pos)
  then ":nth-child(" +:+ ofNat (S (indexOf pos)) +:+ ")"
  else "".

Definition specFragment (name cls : string) (pos : Ctx) : string :=
  toLowerCase name +:+ classSuffix cls +:+ nthChildSuffix pos.

(** The class attribute as text: what an HTML element has. *)
Definition classText (c : ClassName) : string :=
  match c with
  | ClassString s => s
  | ClassAnimated _ => ""
  end.

Definition isClassString (c : ClassName) : bool :=
  match c with
  | ClassString _ => true
  | ClassAnimated _ => false
  end.

(** The proper ancestors of a position that are elements, nearest first,
    each with its own position. *)
Fixpoint ancestors (pos : Ctx) : list (string * string * ClassName * Ctx) :=
  match pos with
  | Detached => []
  | UnderDocument _ _ => []
  | UnderElement _ _ n i c up => (n, i, c, up) :: ancestors up
  end.

Definition ancId (a : string * string * ClassName * Ctx) : string :=
  let '(_, i, _, _) := a in i.

Definition ancClass (a : string * string * ClassName * Ctx) : ClassName :=
  let '(_, _, c, _) := a in c.

Definition ancFragment (a : string * string * ClassName * Ctx) : string :=
  let '(n, _, c, p) := a in specFragment n (classText c) p.

(** The ancestors below the nearest one that has an id. *)
Fixpoint belowId (l : list (string * string * ClassName * Ctx))
  : list (string * string * ClassName * Ctx) :=
  match l with
  | [] => []
  | a :: l' => if truthy (ancId a) then [] else a :: belowId l'
  end.

(** The nearest ancestor that has an id, if any. *)
Fixpoint nearestId (l : list (string * string * ClassName * Ctx))
  : option string :=
  match l with
  | [] => None
  | a :: l' => if truthy (ancId a) then Some (ancId a) else nearestId l'
  end.

Definition idPrefix (l : list (string * string * ClassName * Ctx))
  : list string :=
  match nearestId l with
  | Some i => ["#" +:+ i]
  | None => []
  end.

(** The nodes the walk makes a fragment for: the element and its
    ancestors below the nearest one with an id; and whether the class of
    each is a string. *)
Definition walkedClasses (e : Element) : list ClassName :=
  className e :: map ancClass (belowId (ancestors (position e))).

Definition htmlClasses (e : Element) : bool :=
  forallb isClassString (walkedClasses e).

(** The fragments from the top down: the id of the nearest ancestor that
    has one, then the ancestors below it, then the element. *)
Definition specPath (e : Element) : list string :=
  let anc := ancestors (position e) in
  idPrefix anc
  ++ rev (map ancFragment (belowId anc))
  ++ [specFragment (nodeName e) (classText (className e)) (position e)].

(** Elements to try the script on. *)
Definition sampleAnchor : Element :=
  mkElement "A" "" "nav link" []
    (UnderElement [Node "SPAN" "" "" []] [] "LI" "" ""
       (UnderElement [] [] "UL" "menu" "" (UnderDocument [] []))).

Definition sampleButton : Element :=
  mkElement "BUTTON" "go" "big" []
    (UnderElement [] [] "DIV" "box" "" (UnderDocument [] [])).

(** A [div] whose class attribute has two spaces between the names. *)
Definition sampleWide : Element :=
  mkElement "DIV" "" "a  b" [] (UnderDocument [] []).

(** An SVG link, as the XPath of discovery matches it by its [href],
    under the [svg] element of an HTML page; and the same with an id. *)
Definition sampleSvgLink (id : string) : Element :=
  mkElement "a" id (ClassAnimated "") []
    (UnderElement [] [] "svg" "" (ClassAnimated "icon")
       (UnderElement [] [] "BODY" "" "" (UnderDocument [] []))).

End Dom.

(** ** URLs and the domain guard *)

Module Url.

(** The fields of a WHATWG [URL] object that the crawler reads. *)
Record URL : Type := mkURL {
  href : string;
  protocol : string;
  hostname : string
}.

(** [new URL(input, base)] of Node's [url] module, which is not part of
    the repository: [None] stands for the [TypeError] it throws on an
    input it cannot parse. *)
Class Parser : Type := newURL : string -> option string -> option URL.

Section Guard.
Context {parser : Parser}.

Definition isSameDomain (currentUrl newUrl : string) : bool :=
  match newURL currentUrl None with
  | None => false
  | Some current =>
      match newURL newUrl (Some currentUrl) with
      | None => false
      | Some newLink => String.eqb (hostname current) (hostname newLink)
      end
  end.

(** The guard in the words of the specification. *)
Definition sameDomainSpec (referenceUrl candidateUrl : string) : Prop :=
  exists r c,
    newURL referenceUrl None = Some r /\
    newURL candidateUrl (Some referenceUrl) = Some c /\
    hostname r = hostname c.

End Guard.

End Url.

(** ** The crawler: sessions, store, console and the traversal *)

Module Crawler.
Import JsString Url.

Definition MAX_DEPTH : Z := 2.

(** A [WebElement] handle, as minted by the driver. *)
Definition WebElement : Type := nat.

(** A JavaScript exception, known to the crawler by its [message]. *)
Definition Error : Type := string.

Inductive Outcome (A : Type) : Type :=
| Returned (a : A)
| Threw (e : Error).
Arguments Returned {A} a.
Arguments Threw {A} e.

(** *** The WebDriver session *)

(** The conditions of [selenium-webdriver]'s [until] that are used. *)
Inductive Condition : Type :=
| ElementLocated (css : string)
| ElementIsVisible (el : WebElement)
| ElementIsEnabled (el : WebElement)
| UrlIs (url : string).

(** The calls made on [driver] and on elements, indexed by what they
    resolve to. *)
Inductive Cmd : Type -> Type :=
| Get (url : string) : Cmd unit
| Wait (c : Condition) (timeout : Z) : Cmd unit
| ScriptInnerText : Cmd string
    (* executeScript('return document.body.innerText;') *)
| FindElements (xpath : string) : Cmd (list WebElement)
| FindElementsCss (css : string) : Cmd (list WebElement)
| GetTagName (el : WebElement) : Cmd string
| GetText (el : WebElement) : Cmd string
| GetAttribute (el : WebElement) (name : string) : Cmd (option string)
| ScriptArgument (el : WebElement) : Cmd Dom.Element
    (* executeScript(function (el) {...}, element): the browser turns the
       handle into the node the function receives *)
| FindElement (css : string) : Cmd WebElement
| ScriptScrollIntoView (el : WebElement) : Cmd unit
| GetCurrentUrl : Cmd string
| Click (el : WebElement) : Cmd unit
| Sleep (ms : Z) : Cmd unit
| Back : Cmd unit
| Refresh : Cmd unit
| GetTitle : Cmd string
| GetPageSource : Cmd string.

(** A browser session of type [B] answers every call, by a value or by
    an exception, and moves on. *)
Class Driver (B : Type) : Type :=
  drive : forall R, Cmd R -> B -> Outcome R * B.

(** *** The SQLite store *)

Record PageRow : Type := mkPageRow {
  pc_url : string;
  pc_content : string
}.

Record NodeRow : Type := mkNodeRow {
  cn_page_url : string;
  cn_tag_name : string;
  cn_text_content : string;
  cn_href : string;
  cn_onclick : string;
  cn_other_attributes : string
}.

Record InfoRow : Type := mkInfoRow {
  ei_url : string;
  ei_title : string;
  ei_content : string
}.

(** The tables, rows in insertion order.  The [id] and [date_extracted]
    columns are filled in by SQLite and are left out.  [extracted_info]
    is the table of the README's variant. *)
Record Database : Type := mkDatabase {
  visited_urls : list string;
  page_contents : list PageRow;
  clickable_nodes : list NodeRow;
  extracted_info : list InfoRow
}.

Inductive Statement : Type :=
| InsertOrIgnorePageContent (url content : string)
| InsertOrIgnoreVisitedUrl (url : string)
| InsertOrIgnoreClickableNode
    (page_url tag_name text_content href onclick other_attributes : string)
| InsertExtractedInfo (url title content : string).

Definition hasPage (url : string) (rows : list PageRow) : bool :=
  existsb (fun r => String.eqb (pc_url r) url) rows.

Definition hasVisitedRow (url : string) (rows : list string) : bool :=
  existsb (fun r => String.eqb r url) rows.

Definition hasNode (page_url other : string) (rows : list NodeRow) : bool :=
  existsb (fun r => String.eqb (cn_page_url r) page_url
                    && String.eqb (cn_other_attributes r) other) rows.

(** [db.run(sql, params)].  [INSERT OR IGNORE] drops the row when the
    table's [UNIQUE] constraint is already taken. *)
Definition execute (s : Statement) (d : Database) : Database :=
  match s with
  | InsertOrIgnorePageContent url content =>
      if hasPage url (page_contents d) then d
      else mkDatabase (visited_urls d)
                      (page_contents d ++ [mkPageRow url content])
                      (clickable_nodes d) (extracted_info d)
  | InsertOrIgnoreVisitedUrl url =>
      if hasVisitedRow url (visited_urls d) then d
      else mkDatabase (visited_urls d ++ [url]) (page_contents d)
                      (clickable_nodes d) (extracted_info d)
  | InsertOrIgnoreClickableNode p t x h o a =>
      if hasNode p a (clickable_nodes d) then d
      else mkDatabase (visited_urls d) (page_contents d)
                      (clickable_nodes d ++ [mkNodeRow p t x h o a])
                      (extracted_info d)
  | InsertExtractedInfo u t c =>
      mkDatabase (visited_urls d) (page_contents d) (clickable_nodes d)
                 (extracted_info d ++ [mkInfoRow u t c])
  end.

(** The [UNIQUE] constraints of the three tables of [crawler.js]. *)
Definition nodeKey (r : NodeRow) : string * string :=
  (cn_page_url r, cn_other_attributes r).

Definition uniqueKeys (d : Database) : Prop :=
  NoDup (visited_urls d)
  /\ NoDup (map pc_url (page_contents d))
  /\ NoDup (map nodeKey (clickable_nodes d)).



(** *** The console *)

Inductive Line : Type :=
| LogCrawling (url : string) (depth : Z)
    (* Crawling: ${url} at depth ${depth} *)
| LogFound (n : nat) (url : string)
    (* Found ${n} clickable elements on ${url} *)
| ErrFinding (url : string) (e : Error)
    (* Error finding element by selector on ${url}: ${e.message} *)
| ErrProcessingOn (url : string) (e : Error)
    (* Error processing element on ${url}: ${e.message} *)
| ErrCrawling (url : string) (e : Error)
    (* Error crawling ${url}: ${e.message} *)
| ErrProcessingElement (e : Error)
    (* Error processing element: ${e.message} *)
| ErrClicking (e : Error)
    (* Error clicking element: ${e.message} *)
| ErrProcessing (url : string) (e : Error).
    (* Error processing ${url}: ${e.message} *)

(** *** The world and its transcript *)

(** Everything the run does to the outside is written down in order:
    each driver call with its answer, each console line, each SQL
    statement. *)
Inductive Event : Type :=
| Driven {R : Type} (c : Cmd R) (r : Outcome R)
| Console (l : Line)
| Sql (s : Statement).

Record World (B : Type) : Type := mkWorld {
  visitedUrls : gset string;
  db : Database;
  session : B;
  trace : list Event
}.
Arguments mkWorld {B} _ _ _ _.
Arguments visitedUrls {B} _.
Arguments db {B} _.
Arguments session {B} _.
Arguments trace {B} _.

(** *** The monad of the crawler

    A computation takes a world and either never comes back ([None]) or
    ends, by a value or by an exception, in a new world. *)
Definition M (B A : Type) : Type := World B -> option (Outcome A * World B).

Definition ret {B A} (a : A) : M B A := fun w => Some (Returned a, w).

Definition throw {B A} (e : Error) : M B A := fun w => Some (Threw e, w).

Definition diverge {B A} : M B A := fun _ => None.

Definition bind {B A C} (c : M B A) (k : A -> M B C) : M B C :=
  fun w =>
    match c w with
    | None => None
    | Some (Returned a, w') => k a w'
    | Some (Threw e, w') => Some (Threw e, w')
    end.

(** [try { c } catch (e) { h e }] *)
Definition tryCatch {B A} (c : M B A) (h : Error -> M B A) : M B A :=
  fun w =>
    match c w with
    | None => None
    | Some (Returned a, w') => Some (Returned a, w')
    | Some (Threw e, w') => h e w'
    end.

#[global] Instance M_ret {B} : MRet (M B) := fun A a => ret a.
#[global] Instance M_bind {B} : MBind (M B) := fun A C k c => bind c k.

(** [for (const x of xs) { body x }] *)
Fixpoint forOf {B A} (xs : list A) (body : A -> M B unit) : M B unit :=
  match xs with
  | [] => ret tt
  | x :: xs' => body x ;; forOf xs' body
  end.

Definition record {B} (e : Event) (w : World B) : World B :=
  mkWorld (visitedUrls w) (db w) (session w) (trace w ++ [e]).

Definition console {B} (l : Line) : M B unit :=
  fun w => Some (Returned tt, record (Console l) w).

(** [db.run(...)]: the statement is carried out at once; its callback
    would only report an error, and the store raises none here. *)
Definition dbRun {B} (s : Statement) : M B unit :=
  fun w =>
    Some (Returned tt,
          record (Sql s) (mkWorld (visitedUrls w) (execute s (db w))
                                  (session w) (trace w))).

(** [visitedUrls.has(url)] and [visitedUrls.add(url)] *)
Definition visitedHas {B} (url : string) : M B bool :=
  fun w => Some (Returned (bool_decide (url ∈ visitedUrls w)), w).

Definition visitedAdd {B} (url : string) : M B unit :=
  fun w =>
    Some (Returned tt,
          mkWorld ({[url]} ∪ visitedUrls w) (db w) (session w) (trace w)).

(** The calls that [crawlPage] and [listClickableItems] make. *)
Definition crawlerCmd {R} (c : Cmd R) : bool :=
  match c with
  | FindElementsCss _ => false
  | GetTitle => false
  | GetPageSource => false
  | _ => true
  end.

(** The calls that [listClickableItems] makes. *)
Definition discoveryCmd {R} (c : Cmd R) : bool :=
  match c with
  | FindElements _ => true
  | GetTagName _ => true
  | GetText _ => true
  | GetAttribute _ _ => true
  | ScriptArgument _ => true
  | _ => false
  end.

(** The statements that [crawlPage] runs. *)
Definition crawlerSql (s : Statement) : bool :=
  match s with
  | InsertExtractedInfo _ _ _ => false
  | _ => true
  end.

Section Engine.
Context {B : Type} {driver : Driver B} {parser : Parser}.

(** [await driver.<call>] *)
Definition call {R} (c : Cmd R) : M B R :=
  fun w =>
    let '(r, b) := drive R c (session w) in
    Some (r, record (Driven c r)
                    (mkWorld (visitedUrls w) (db w) b (trace w))).

(** **** listClickableItems *)

Record ElementInfo : Type := mkElementInfo {
  selector : string;
  tagName : string;
  textContent : string;
  href : string
}.

(** The message with which [executeScript] is rejected when the script
    throws; what chromedriver adds to it (session info, stack) is left
    out. *)
Definition scriptError : Error :=
  "javascript error: element.className.trim is not a function".

(** [driver.executeScript(function (el) {...}, element)], the node being
    the one the handle stands for: the selector the script returns, or
    the rejection when the script throws. *)
Definition selectorScript (el : Dom.Element) : M B string :=
  match Dom.generateCssSelector (Dom.JElement el) with
  | Dom.Normal selector => ret (default "null" selector)
  | Dom.TypeError => throw scriptError
  end.

Definition isLinkTag (tagName : string) : bool :=
  String.eqb (toLowerCase tagName) "a"
  || String.eqb (toLowerCase tagName) "link".

(** The body of the [try] block for one matched element. *)
Definition describeElement (element : WebElement) : M B ElementInfo :=
  tagName ← call (GetTagName element);
  textContent ← call (GetText element);
  href ← (if isLinkTag tagName
           then call (GetAttribute element "href")
           else ret None);
  node ← call (ScriptArgument element);
  selector ← selectorScript node;
  ret (mkElementInfo selector tagName (trim textContent) (default "" href)).

Fixpoint collectInfo (elements : list WebElement)
    (elementsInfo : list ElementInfo) : M B (list ElementInfo) :=
  match elements with
  | [] => ret elementsInfo
  | element :: rest =>
      elementsInfo ←
        tryCatch
          (info ← describeElement element;
           ret (elementsInfo ++ [info])%list)
          (fun e => console (ErrProcessingElement e);; ret elementsInfo);
      collectInfo rest elementsInfo
  end.

Definition clickableXPath : string :=
  "//body//*[self::a or self::button or @href or @onclick or @role='button']".

Definition listClickableItems : M B (list ElementInfo) :=
  clickableElements ← call (FindElements clickableXPath);
  collectInfo clickableElements [].

(** **** crawlPage *)

(** What follows the click: [self] is [crawlPage] itself. *)
Definition afterClick (self : string -> Z -> M B unit)
    (url : string) (depth : Z) (currentUrl newUrl : string) : M B unit :=
  if negb (String.eqb newUrl currentUrl) && isSameDomain url newUrl
  then
    self newUrl (depth + 1)%Z;;
    call Back;;
    call (Wait (UrlIs currentUrl) 5000)
  else
    call Refresh;;
    call (Wait (UrlIs currentUrl) 5000).

(** The second [try] block of the loop body. *)
Definition clickElement (self : string -> Z -> M B unit)
    (url : string) (depth : Z) (element : WebElement) : M B unit :=
  call (ScriptScrollIntoView element);;
  call (Wait (ElementIsVisible element) 5000);;
  call (Wait (ElementIsEnabled element) 5000);;
  currentUrl ← call GetCurrentUrl;
  call (Click element);;
  call (Sleep 2000);;
  newUrl ← call GetCurrentUrl;
  afterClick self url depth currentUrl newUrl.

(** Its [catch] block. *)
Definition recoverPage (url : string) (e : Error) : M B unit :=
  console (ErrProcessingOn url e);;
  call Refresh;;
  call (Wait (UrlIs url) 5000).

(** The first [try] block: [Some] the element, or [None] after the
    [continue] of its [catch]. *)
Definition relocate (url selector : string) : M B (option WebElement) :=
  tryCatch
    (element ← call (FindElement selector); ret (Some element))
    (fun e => console (ErrFinding url e);; ret None).

(** The statement that stores a descriptor. *)
Definition nodeInsert (url : string) (elementInfo : ElementInfo)
  : Statement :=
  InsertOrIgnoreClickableNode url (tagName elementInfo)
    (textContent elementInfo) (href elementInfo) ""
    ("selector: " +:+ selector elementInfo).

(** One turn of the loop over the descriptors. *)
Definition processElement (self : string -> Z -> M B unit)
    (url : string) (depth : Z) (elementInfo : ElementInfo) : M B unit :=
  dbRun (nodeInsert url elementInfo);;
  let elementUrl := href elementInfo in
  if truthy elementUrl && negb (isSameDomain url elementUrl)
  then ret tt
  else
    found ← relocate url (selector elementInfo);
    match found with
    | None => ret tt
    | Some element =>
        tryCatch (clickElement self url depth element) (recoverPage url)
    end.

(** The outer [try] block: the navigation, then the rest. *)
Definition readPage (self : string -> Z -> M B unit)
    (url : string) (depth : Z) : M B unit :=
  call (Wait (ElementLocated "body") 10000);;
  content ← call ScriptInnerText;
  dbRun (InsertOrIgnorePageContent url content);;
  dbRun (InsertOrIgnoreVisitedUrl url);;
  clickableElements ← listClickableItems;
  console (LogFound (length clickableElements) url);;
  forOf clickableElements (processElement self url depth).

Definition visitPage (self : string -> Z -> M B unit)
    (url : string) (depth : Z) : M B unit :=
  call (Get url);;
  readPage self url depth.

(** The body of [crawlPage], its recursive calls going to [self]. *)
Definition crawlPageBody (self : string -> Z -> M B unit)
    (url : string) (depth : Z) : M B unit :=
  seen ← visitedHas url;
  if seen || (MAX_DEPTH <? depth)%Z
  then ret tt
  else
    visitedAdd url;;
    console (LogCrawling url depth);;
    tryCatch (visitPage self url depth)
             (fun e => console (ErrCrawling url e)).

(** [crawlPage], unfolded [fuel] levels deep; a call nested deeper than
    that does not come back. *)
Fixpoint crawlPage (fuel : nat) (url : string) (depth : Z) : M B unit :=
  match fuel with
  | O => crawlPageBody (fun _ _ => diverge) url depth
  | S fuel' => crawlPageBody (crawlPage fuel') url depth
  end.

(** What the recursive calls of [crawlPage fuel] run. *)
Definition nested (fuel : nat) : string -> Z -> M B unit :=
  match fuel with
  | O => fun _ _ => diverge
  | S fuel' => crawlPage fuel'
  end.

(** The levels a call at [depth] can nest. *)
Definition levels (depth : Z) : nat := Z.to_nat (MAX_DEPTH + 1 - depth).

(** The crawler's main loop over the seed URLs. *)
Definition crawlSeeds (seedUrls : list string) : M B unit :=
  forOf seedUrls (fun url => crawlPage (levels 0) url 0).

End Engine.

End Crawler.

(** ** What can be said of a run *)

Module Runs.
Import Crawler.

(** The statements that write the page record or the visited-URL record
    of [url]. *)
Definition isPageWrite (url : string) (e : Event) : bool :=
  match e with
  | Sql (InsertOrIgnorePageContent u _) => String.eqb u url
  | Sql (InsertOrIgnoreVisitedUrl u) => String.eqb u url
  | _ => false
  end.

(** No condition on a call, a statement or a URL. *)
Definition anyCmd : forall T, Cmd T -> Prop := fun _ _ => True.
Definition anySql : Statement -> Prop := fun _ => True.
Definition anyUrl : string -> Prop := fun _ => True.

Section Relations.
Context {B : Type}.

(** Every finished run of [c] relates the world it started in to the
    world it ended in. *)
Definition respects (R : World B -> World B -> Prop) {A} (c : M B A)
  : Prop :=
  forall w r w', c w = Some (r, w') -> R w w'.

(** [c] comes back from every world. *)
Definition total {A} (c : M B A) : Prop := forall w, is_Some (c w).

(** [c1] and [c2] do the same from every world. *)
Definition same {A} (c1 c2 : M B A) : Prop := forall w, c1 w = c2 w.

(** The VisitedSet has lost nothing. *)
Definition grows (w w' : World B) : Prop :=
  visitedUrls w ⊆ visitedUrls w'.

(** The transcript has gone on, by events that satisfy [P] only. *)
Definition emits (P : Event -> Prop) (w w' : World B) : Prop :=
  exists d, trace w' = (trace w ++ d)%list /\ Forall P d.

(** The tables' constraints, if they held, still hold. *)
Definition keepsUnique (w w' : World B) : Prop :=
  uniqueKeys (db w) -> uniqueKeys (db w').

(** The world in which the visit of an admitted page starts: the URL
    is in the VisitedSet and the console line is out. *)
Definition marked (url : string) (depth : Z) (w : World B) : World B :=
  mkWorld ({[url]} ∪ visitedUrls w) (db w) (session w)
          (trace w ++ [Console (LogCrawling url depth)]).

(** The statements and the VisitedSet insertion of the page [url],
    when a condition [okSql] on statements and a condition [okAdd] on
    insertions are at hand. *)
Definition okNodes (okSql : Statement -> Prop) (url : string) : Prop :=
  forall t x h o a, okSql (InsertOrIgnoreClickableNode url t x h o a).

Definition okPage (okSql : Statement -> Prop) (okAdd : string -> Prop)
    (url : string) : Prop :=
  (forall c, okSql (InsertOrIgnorePageContent url c))
  /\ okSql (InsertOrIgnoreVisitedUrl url)
  /\ okAdd url
  /\ okNodes okSql url.

(** The VisitedSet has lost nothing and the transcript has gone on;
    if [url] was in the VisitedSet, by no write of its page record or
    visited-URL record. *)
Definition quietOn (url : string) (w w' : World B) : Prop :=
  grows w w'
  /\ exists d, trace w' = (trace w ++ d)%list
               /\ (url ∈ visitedUrls w ->
                   Forall (fun e => isPageWrite url e = false) d).

(** The world after the browser answered [r] to the call [c] and
    moved to [b]. *)
Definition asked {T} (c : Cmd T) (r : Outcome T) (b : B) (w : World B)
  : World B :=
  mkWorld (visitedUrls w) (db w) b (trace w ++ [Driven c r])%list.

(** The world after a descriptor was stored and its selector found
    nothing: the failed lookup and the console line, nothing more. *)
Definition skipped (url : string) (info : ElementInfo) (e : Error)
    (b : B) (w : World B) : World B :=
  mkWorld (visitedUrls w) (execute (nodeInsert url info) (db w)) b
          (trace w ++ [Sql (nodeInsert url info);
                       Driven (FindElement (selector info)) (Threw e);
                       Console (ErrFinding url e)])%list.

(** The world after a descriptor was stored and its element found. *)
Definition located (url : string) (info : ElementInfo) (el : WebElement)
    (b : B) (w : World B) : World B :=
  mkWorld (visitedUrls w) (execute (nodeInsert url info) (db w)) b
          (trace w ++ [Sql (nodeInsert url info);
                       Driven (FindElement (selector info)) (Returned el)])%list.

(** The world after the [catch] block of the loop went through. *)
Definition recovered (url : string) (e : Error) (b : B) (w : World B)
  : World B :=
  mkWorld (visitedUrls w) (db w) b
          (trace w ++ [Console (ErrProcessingOn url e);
                       Driven Refresh (Returned tt);
                       Driven (Wait (UrlIs url) 5000) (Returned tt)])%list.

End Relations.

(** *** Discovery, in the words of the specification *)

(** The tag is an anchor or a [link] tag. *)
Definition linkTag (tag : string) : Prop :=
  JsString.toLowerCase tag = "a" \/ JsString.toLowerCase tag = "link".

(** The question about the href and the href of the descriptor: asked
    of anchors and [link] tags only, the answer taken as it is, an
    absent attribute as the empty string; the empty string for any
    other tag. *)
Inductive hrefPart (el : WebElement) (tag : string)
  : list Event -> string -> Prop :=
| href_link (h : option string) :
    linkTag tag ->
    hrefPart el tag [Driven (GetAttribute el "href") (Returned h)]
             (default "" h)
| href_other :
    ~ linkTag tag ->
    hrefPart el tag [] "".

(** The questions about a matched element up to the exception [e] that
    ends them: one of the calls throws, or the script does. *)
Inductive failed (el : WebElement) : list Event -> Error -> Prop :=
| failed_tag (e : Error) :
    failed el [Driven (GetTagName el) (Threw e)] e
| failed_text (tag : string) (e : Error) :
    failed el [Driven (GetTagName el) (Returned tag);
               Driven (GetText el) (Threw e)] e
| failed_href (tag text : string) (e : Error) :
    linkTag tag ->
    failed el [Driven (GetTagName el) (Returned tag);
               Driven (GetText el) (Returned text);
               Driven (GetAttribute el "href") (Threw e)] e
| failed_node (tag text : string) (q : list Event) (href : string)
    (e : Error) :
    hrefPart el tag q href ->
    failed el ([Driven (GetTagName el) (Returned tag);
                Driven (GetText el) (Returned text)]
               ++ q ++ [Driven (ScriptArgument el) (Threw e)])%list e
| failed_script (tag text : string) (q : list Event) (href : string)
    (node : Dom.Element) :
    hrefPart el tag q href ->
    Dom.generateCssSelector (Dom.JElement node) = Dom.TypeError ->
    failed el ([Driven (GetTagName el) (Returned tag);
                Driven (GetText el) (Returned text)]
               ++ q ++ [Driven (ScriptArgument el) (Returned node)])%list
           scriptError.

(** What is done about one matched element: its descriptor, made of the
    tag name as answered, the text trimmed, the href and the selector
    the script returns for its node; or, after an exception, the
    console line and no descriptor. *)
Inductive handled (el : WebElement)
  : list Event -> option ElementInfo -> Prop :=
| handled_described (tag text : string) (q : list Event) (href : string)
    (node : Dom.Element) (sel : string) :
    hrefPart el tag q href ->
    Dom.generateCssSelector (Dom.JElement node) = Dom.Normal (Some sel) ->
    handled el ([Driven (GetTagName el) (Returned tag);
                 Driven (GetText el) (Returned text)]
                ++ q ++ [Driven (ScriptArgument el) (Returned node)])%list
            (Some (mkElementInfo sel tag (JsString.trim text) href))
| handled_skipped (seg : list Event) (e : Error) :
    failed el seg e ->
    handled el (seg ++ [Console (ErrProcessingElement e)])%list None.

(** The matched elements are handled one after the other, and the
    descriptors come in their order. *)
Inductive discovers
  : list WebElement -> list Event -> list ElementInfo -> Prop :=
| discovers_nil : discovers [] [] []
| discovers_found (el : WebElement) (els : list WebElement)
    (seg d : list Event) (info : ElementInfo) (infos : list ElementInfo) :
    handled el seg (Some info) ->
    discovers els d infos ->
    discovers (el :: els) (seg ++ d)%list (info :: infos)
| discovers_skip (el : WebElement) (els : list WebElement)
    (seg d : list Event) (infos : list ElementInfo) :
    handled el seg None ->
    discovers els d infos ->
    discovers (el :: els) (seg ++ d)%list infos.


(** *** Where a nested crawl starts *)

(** The transcript [t] ends with a click after which the browser is at
    [u] and no longer where it was: the URL asked for, the click, the
    pause, and the URL asked for again. *)
Definition followsClick (t : list Event) (u : string) : Prop :=
  exists t0 currentUrl element,
    t = (t0 ++ [Driven GetCurrentUrl (Returned currentUrl);
                Driven (Click element) (Returned tt);
                Driven (Sleep 2000) (Returned tt);
                Driven GetCurrentUrl (Returned u)])%list
    /\ u <> currentUrl.

(** Each [Crawling] line of [d], which goes on from [pre], comes right
    after such a click. *)
Definition nestedAfterClick (pre d : list Event) : Prop :=
  forall d1 u k d2,
    d = (d1 ++ Console (LogCrawling u k) :: d2)%list ->
    followsClick (pre ++ d1) u.


Definition clicksOnly {B} (w w' : World B) : Prop :=
  exists d, trace w' = (trace w ++ d)%list /\ nestedAfterClick (trace w) d.

(** The statements of a transcript, in order. *)
Definition statements (t : list Event) : list Statement :=
  omap (fun e => match e with Sql s => Some s | _ => None end) t.

Definition isSql (e : Event) : bool :=
  match e with
  | Sql _ => true
  | _ => false
  end.


Definition isRefresh (e : Event) : bool :=
  match e with
  | Driven Refresh _ => true
  | _ => false
  end.

Definition isLookup (e : Event) : bool :=
  match e with
  | Driven (FindElement _) _ => true
  | _ => false
  end.

Definition isFailedLookup (e : Event) : bool :=
  match e with
  | Driven (FindElement _) (Threw _) => true
  | _ => false
  end.

(** The calls that act on a located element. *)
Definition isInteraction (e : Event) : bool :=
  match e with
  | Driven (FindElement _) _ => true
  | Driven (ScriptScrollIntoView _) _ => true
  | Driven (Click _) _ => true
  | _ => false
  end.

(** Whether a refresh comes before the next lookup of an element. *)
Fixpoint refreshedBeforeNextLookup (t : list Event) : bool :=
  match t with
  | [] => true
  | e :: t' =>
      if isRefresh e then true
      else if isLookup e then false
      else refreshedBeforeNextLookup t'
  end.

(** Whether every failed lookup is followed by a refresh before the next
    lookup. *)
Fixpoint staleAlwaysRefreshed (t : list Event) : bool :=
  match t with
  | [] => true
  | e :: t' =>
      (if isFailedLookup e then refreshedBeforeNextLookup t' else true)
      && staleAlwaysRefreshed t'
  end.

(** The descriptors the transcript says were found, and those it says
    were stored. *)
Definition foundCount (t : list Event) : nat :=
  list_sum (map (fun e => match e with
                          | Console (LogFound n _) => n
                          | _ => 0
                          end) t).

Definition isNodeInsert (s : Statement) : bool :=
  match s with
  | InsertOrIgnoreClickableNode _ _ _ _ _ _ => true
  | _ => false
  end.

Definition storedCount (t : list Event) : nat :=
  length (List.filter isNodeInsert (statements t)).


End Runs.

(** ** The README's variant: crawlAndExtract *)

Module Tutorial.
Import JsString Url Crawler.

Definition MAX_DEPTH : Z := 2.

Section Engine.
Context {B : Type} {driver : Driver B} {parser : Parser}.

(** [new URL(input, base)] where the code lets the [TypeError] fly. *)
Definition parseOrThrow (input base : string) : M B URL :=
  match newURL input (Some base) with
  | Some u => ret u
  | None => throw "Invalid URL"
  end.

(** [if (hostname === baseDomain && !visitedUrls.has(href)) recurse] *)
Definition followInternal (self : string -> string -> Z -> M B unit)
    (baseDomain : string) (depth : Z) (parsedLink : URL) : M B unit :=
  seen ← visitedHas (Url.href parsedLink);
  if String.eqb (hostname parsedLink) baseDomain && negb seen
  then self (Url.href parsedLink) baseDomain (depth + 1)%Z
  else ret tt.

(** The branch for an element that is not an anchor: [None] stands for
    [continue], [Some u] for [elementUrl = u]. *)
Definition clickAndCompare : WebElement -> M B (option string) :=
  fun element =>
    previousUrl ← call GetCurrentUrl;
    previousContent ← call GetPageSource;
    call (Click element);;
    call (Sleep 2000);;
    newUrl ← call GetCurrentUrl;
    newContent ← call GetPageSource;
    if negb (String.eqb newUrl previousUrl)
    then ret (Some newUrl)
    else if negb (String.eqb newContent previousContent)
    then
      newTitle ← call GetTitle;
      dbRun (InsertExtractedInfo newUrl newTitle newContent);;
      call Back;;
      call (Wait (ElementLocated "body") 10000);;
      ret None
    else ret None.

(** The [try] block of the loop over the clickable elements. *)
Definition interact (self : string -> string -> Z -> M B unit)
    (url baseDomain : string) (depth : Z) (element : WebElement)
  : M B unit :=
  tagName ← call (GetTagName element);
  elementUrl ←
    (if String.eqb (toLowerCase tagName) "a"
     then call (GetAttribute element "href")
     else clickAndCompare element);
  match elementUrl with
  | Some u =>
      if truthy u
      then
        parsedLink ← parseOrThrow u url;
        followInternal self baseDomain depth parsedLink
      else ret tt
  | None => ret tt
  end.

(** One turn of the loop over [a[href]]: the link sweep. *)
Definition sweepLink (self : string -> string -> Z -> M B unit)
    (url baseDomain : string) (depth : Z) (link : WebElement)
  : M B unit :=
  linkUrl ← call (GetAttribute link "href");
  match linkUrl with
  | Some u =>
      if truthy u
      then
        parsedLink ← parseOrThrow u url;
        followInternal self baseDomain depth parsedLink
      else ret tt
  | None => ret tt
  end.

Definition sweepLinks (self : string -> string -> Z -> M B unit)
    (url baseDomain : string) (depth : Z) : M B unit :=
  links ← call (FindElementsCss "a[href]");
  forOf links (sweepLink self url baseDomain depth).

Definition clickableXPath : string :=
  "//*[@onclick or @href or @role='button' or name()='button']".

(** The [try] block up to the end of the loop over the clickable
    elements. *)
Definition interactAll (self : string -> string -> Z -> M B unit)
    (url baseDomain : string) (depth : Z) : M B unit :=
  call (Get url);;
  call (Wait (ElementLocated "body") 10000);;
  title ← call GetTitle;
  content ← call GetPageSource;
  dbRun (InsertExtractedInfo url title content);;
  clickableElements ← call (FindElements clickableXPath);
  forOf clickableElements
    (fun element =>
       tryCatch (interact self url baseDomain depth element)
                (fun e => console (ErrClicking e))).

(** The whole [try] block: the loop, then the sweep. *)
Definition extractPage (self : string -> string -> Z -> M B unit)
    (url baseDomain : string) (depth : Z) : M B unit :=
  interactAll self url baseDomain depth;;
  sweepLinks self url baseDomain depth.

Definition crawlAndExtractBody (self : string -> string -> Z -> M B unit)
    (url baseDomain : string) (depth : Z) : M B unit :=
  seen ← visitedHas url;
  if (MAX_DEPTH <? depth)%Z || seen
  then ret tt
  else
    visitedAdd url;;
    console (LogCrawling url depth);;
    tryCatch (extractPage self url baseDomain depth)
             (fun e => console (ErrProcessing url e)).

Fixpoint crawlAndExtract (fuel : nat) (url baseDomain : string) (depth : Z)
  : M B unit :=
  match fuel with
  | O => crawlAndExtractBody (fun _ _ _ => diverge) url baseDomain depth
  | S fuel' => crawlAndExtractBody (crawlAndExtract fuel') url baseDomain depth
  end.

End Engine.

End Tutorial.

(** ** A browser that replays a script *)

Module Replay.
Import Url Crawler Runs.
Local Open Scope list_scope.

(** What the browser will say to the next call. *)
Inductive Answer : Type :=
| Done
| Text (s : string)
| Attr (o : option string)
| Handles (l : list WebElement)
| Handle (el : WebElement)
| NodeOf (e : Dom.Element)
| Fails (message : string).

Definition mismatch {R} : Outcome R := Threw "WebDriverError".

Definition done (a : Answer) : Outcome unit :=
  match a with Done => Returned tt | Fails m => Threw m | _ => mismatch end.

Definition text (a : Answer) : Outcome string :=
  match a with Text s => Returned s | Fails m => Threw m | _ => mismatch end.

Definition handles (a : Answer) : Outcome (list WebElement) :=
  match a with Handles l => Returned l | Fails m => Threw m | _ => mismatch end.

Definition answer {R} (c : Cmd R) (a : Answer) : Outcome R :=
  match c in Cmd R return Outcome R with
  | Get _ => done a
  | Wait _ _ => done a
  | ScriptInnerText => text a
  | FindElements _ => handles a
  | FindElementsCss _ => handles a
  | GetTagName _ => text a
  | GetText _ => text a
  | GetAttribute _ _ =>
      match a with Attr o => Returned o | Fails m => Threw m | _ => mismatch end
  | ScriptArgument _ =>
      match a with NodeOf e => Returned e | Fails m => Threw m | _ => mismatch end
  | FindElement _ =>
      match a with Handle e => Returned e | Fails m => Threw m | _ => mismatch end
  | ScriptScrollIntoView _ => done a
  | GetCurrentUrl => text a
  | Click _ => done a
  | Sleep _ => done a
  | Back => done a
  | Refresh => done a
  | GetTitle => text a
  | GetPageSource => text a
  end.

(** The session is the list of answers still to come; a browser that
    has nothing left to say has gone away. *)
#[global] Instance replay : Driver (list Answer) :=
  fun R c script =>
    match script with
    | [] => (Threw "NoSuchSessionError", [])
    | a :: rest => (answer c a, rest)
    end.

(** A parser that knows the few URLs of the examples. *)
Definition exampleURL (input : string) : option URL :=
  if String.eqb input "https://a.example/"
  then Some (mkURL "https://a.example/" "https:" "a.example")
  else if String.eqb input "https://a.example/y"
  then Some (mkURL "https://a.example/y" "https:" "a.example")
  else if String.eqb input "http://a.example/y"
  then Some (mkURL "http://a.example/y" "http:" "a.example")
  else if String.eqb input "https://b.example/x"
  then Some (mkURL "https://b.example/x" "https:" "b.example")
  else if String.eqb input "https://www.a.example/"
  then Some (mkURL "https://www.a.example/" "https:" "www.a.example")
  else None.

#[global] Instance exampleParser : Parser :=
  fun input base =>
    match exampleURL input with
    | Some u => Some u
    | None =>
        match base with
        | Some b =>
            if String.eqb b "https://a.example/" && String.eqb input "/y"
            then Some (mkURL "https://a.example/y" "https:" "a.example")
            else None
        | None => None
        end
    end.

Definition start (visited : gset string) (script : list Answer)
  : World (list Answer) :=
  mkWorld visited (mkDatabase [] [] [] []) script [].

(** *** Pages to crawl *)

Definition home : string := "https://a.example/".
Definition next : string := "https://a.example/y".

Definition bodyCtx : Dom.Ctx :=
  Dom.UnderElement [] [] "BODY" "" (Dom.ClassString "")
    (Dom.UnderElement [Dom.Node "HEAD" "" (Dom.ClassString "") []] []
       "HTML" "" (Dom.ClassString "") (Dom.UnderDocument [] [])).

Definition anchorNode : Dom.Element :=
  Dom.mkElement "A" "" (Dom.ClassString "nav link") [] bodyCtx.

Definition buttonNode (id : string) : Dom.Element :=
  Dom.mkElement "BUTTON" id (Dom.ClassString "") [] bodyCtx.

(** What the browser says while a page is loaded and read. *)
Definition loads : list Answer := [Done; Done; Text "hello"].

(** What it says about a button and about the anchor during discovery. *)
Definition aButton (label id : string) : list Answer :=
  [Text "BUTTON"; Text label; NodeOf (buttonNode id)].

Definition theAnchor : list Answer :=
  [Text "A"; Text " go "; Attr (Some next); NodeOf anchorNode].

(** A located element that is scrolled to, waited for and clicked, the
    URL being [before] and then [after]. *)
Definition clicks (el : WebElement) (before after : string) : list Answer :=
  [Handle el; Done; Done; Done; Text before; Done; Done; Text after].

(** A page with one anchor to [next] whose click leaves the URL as it
    is (the link opens elsewhere); refresh and wait go through. *)
Definition anchorScript : list Answer :=
  loads ++ [Handles [7]] ++ theAnchor
  ++ clicks 7 home home ++ [Done; Done].

(** A page with two buttons; the selector of the first finds nothing,
    the second is clicked and nothing moves. *)
Definition staleScript : list Answer :=
  loads ++ [Handles [1; 2]] ++ aButton "One" "one" ++ aButton "Two" "two"
  ++ [Fails "no such element"]
  ++ clicks 2 home home ++ [Done; Done].

(** A page with three buttons; the selector of the first finds nothing;
    the click on the second takes the browser to another site, where a
    refresh does not bring the page URL back: the wait of the branch
    times out, and so does the wait of the [catch] block. *)
Definition abortScript : list Answer :=
  loads ++ [Handles [1; 2; 3]]
  ++ aButton "One" "one" ++ aButton "Two" "two" ++ aButton "Three" "three"
  ++ [Fails "no such element"]
  ++ clicks 2 home "https://b.example/x"
  ++ [Done; Fails "timeout"; Done; Fails "timeout"].

(** The descriptor of a button. *)
Definition buttonInfo (label id : string) : ElementInfo :=
  mkElementInfo ("#" +:+ id) "BUTTON" label "".

(** One turn of the loop on a button that is found but never becomes
    visible; refresh and wait of the [catch] block go through. *)
Definition hiddenScript : list Answer :=
  [Handle 1; Done; Fails "timeout"; Done; Done].

(** The worlds the runs above end in. *)
Definition finish (script : list Answer) : World (list Answer) :=
  match crawlPage 3 home 0 (start ∅ script) with
  | Some (_, w) => w
  | None => start ∅ script
  end.

Definition anchorDone : World (list Answer) :=
  Eval vm_compute in finish anchorScript.

Definition staleDone : World (list Answer) :=
  Eval vm_compute in finish staleScript.

Definition abortDone : World (list Answer) :=
  Eval vm_compute in finish abortScript.

(** Discovery on a page with the anchor alone. *)
Definition discoverStart : World (list Answer) :=
  start ∅ ([Handles [7]] ++ theAnchor).

Definition discovered : list ElementInfo * World (list Answer) :=
  Eval vm_compute in
    match listClickableItems discoverStart with
    | Some (Returned infos, w) => (infos, w)
    | _ => ([], discoverStart)
    end.

(** The world in which the wait for the hidden button timed out. *)
Definition hiddenThrew : World (list Answer) :=
  Eval vm_compute in
    match clickElement (crawlPage 0) home 0 1
            (located home (buttonInfo "One" "one") 1
               [Done; Fails "timeout"; Done; Done] (start ∅ hiddenScript)) with
    | Some (_, w) => w
    | None => start ∅ hiddenScript
    end.

End Replay.

(** ** The start of the crawler: the seed list *)

Module Startup.
Import JsString.

(** The line feed, on which [urls.txt] is split. *)
Definition lineFeed : ascii := "010"%char.

Definition isLineFeed (c : ascii) : bool := Ascii.eqb c lineFeed.

(** [p] holds of every character of [s]. *)
Fixpoint allChars (p : ascii -> bool) (s : string) : bool :=
  match s with
  | EmptyString => true
  | String c s' => p c && allChars p s'
  end.

(** [s.split('\n')]: the pieces between the line feeds; one piece, the
    empty string, for the empty string. *)
Fixpoint splitLines (s : string) : list string :=
  match s with
  | EmptyString => [EmptyString]
  | String c s' =>
      if isLineFeed c then EmptyString :: splitLines s'
      else match splitLines s' with
           | [] => [String c EmptyString]
           | l :: ls => String c l :: ls
           end
  end.

(** [content.split('\n').map((line) => line.trim()).filter(Boolean)] *)
Definition readSeeds (content : string) : list string :=
  List.filter truthy (map trim (splitLines content)).

(** What the start of [crawler.js] finds: the variable that [.env]
    gives ([None] when it is undefined); what the lines before the [try]
    come to, where the options and the service of the driver are made;
    what building the driver comes to; and what
    [fs.readFileSync('urls.txt', 'utf-8')] comes to.  The store reports
    its errors to callbacks, after the fact, and is left out. *)
Record Setting : Type := mkSetting {
  chromedriverPath : option string;
  prepared : Crawler.Outcome unit;
  built : Crawler.Outcome unit;
  urlsTxt : Crawler.Outcome string
}.

(** What the start comes to: the lines of [console.error] and
    [process.exit(code)]; an exception that leaves the [async] function,
    whose promise is rejected and handled by nobody; or the crawl of the
    seeds. *)
Inductive Start : Type :=
| Exit (code : Z) (errors : list string)
| Rejected (e : Crawler.Error)
| Crawl (seedUrls : list string).

(** [if (seedUrls.length === 0) {...}] *)
Definition checkSeeds (content : string) : Start :=
  let seedUrls := readSeeds content in
  if Nat.eqb (length seedUrls) 0
  then Exit 1 ["Error: No seed URLs specified in urls.txt."]
  else Crawl seedUrls.

(** [chromedriverPath] is truthy. *)
Definition pathGiven (s : Setting) : bool :=
  match chromedriverPath s with
  | Some p => truthy p
  | None => false
  end.

(** The start, up to the main loop: the check of [CHROMEDRIVER_PATH],
    the options and the service, the build of the driver inside its
    [try], the reading of the seeds and their check. *)
Definition startUp (s : Setting) : Start :=
  if negb (pathGiven s)
  then Exit 1 ["Error: CHROMEDRIVER_PATH is not defined in .env file."]
  else
    match prepared s with
    | Crawler.Threw e => Rejected e
    | Crawler.Returned _ =>
        match built s with
        | Crawler.Threw e =>
            Exit 1 ["Failed to start the WebDriver. Please check the ChromeDriver path.";
                    "Error: " +:+ e]
        | Crawler.Returned _ =>
            match urlsTxt s with
            | Crawler.Threw e => Rejected e
            | Crawler.Returned content => checkSeeds content
            end
        end
    end.

(** A seed as [readSeeds] gives it: not empty, no white space at either
    end, no line feed inside. *)
Definition cleanSeed (s : string) : Prop :=
  s <> EmptyString /\ trim s = s /\ allChars (fun c => negb (isLineFeed c)) s = true.

(** [lines.join('\n')] *)
Definition joinLines (lines : list string) : string :=
  join (String lineFeed EmptyString) lines.

End Startup.

(** ** What the run leaves behind *)

Module Ledger.
Import Url Crawler Runs.

(** The console lines of the visit of a page, the opening
    [Crawling: ...] line apart. *)
Definition visitLine (l : Line) : bool :=
  match l with
  | LogCrawling _ _ => false
  | ErrClicking _ => false
  | ErrProcessing _ _ => false
  | _ => true
  end.

(** The [Crawling: u at depth ...] lines of a transcript. *)
Definition isCrawlingOf (u : string) (e : Event) : bool :=
  match e with
  | Console (LogCrawling v _) => String.eqb v u
  | _ => false
  end.

Definition crawlCount (u : string) (t : list Event) : nat :=
  length (List.filter (isCrawlingOf u) t).

(** The [Error processing element: ...] lines of discovery. *)
Definition isSkipLine (e : Event) : bool :=
  match e with
  | Console (ErrProcessingElement _) => true
  | _ => false
  end.

Definition skipCount (t : list Event) : nat :=
  length (List.filter isSkipLine t).

(** A [Crawling] line is at a depth from [lo] to [MAX_DEPTH]. *)
Definition withinDepth (lo : Z) (e : Event) : Prop :=
  match e with
  | Console (LogCrawling _ d) => (lo <= d <= MAX_DEPTH)%Z
  | _ => True
  end.

(** [page_contents] and [visited_urls] list the same URLs in the same
    order. *)
Definition lockstep (d : Database) : Prop :=
  map pc_url (page_contents d) = visited_urls d.

(** The page a statement is about. *)
Definition pageOf (s : Statement) : string :=
  match s with
  | InsertOrIgnorePageContent url _ => url
  | InsertOrIgnoreVisitedUrl url => url
  | InsertOrIgnoreClickableNode page_url _ _ _ _ _ => page_url
  | InsertExtractedInfo url _ _ => url
  end.

(** A statement in the transcript is about a page in [after] and not in
    [before]. *)
Definition aboutNew (before after : gset string) (e : Event) : Prop :=
  forall s, e = Sql s -> pageOf s ∈ after /\ pageOf s ∉ before.

(** The statements of a transcript that are about the page [url], in
    order. *)
Definition statementsOf (url : string) (t : list Event) : list Statement :=
  filter (fun s => pageOf s = url) (statements t).

(** The rows of [clickable_nodes] under one key. *)
Definition nodeRows (page_url other : string) (d : Database) : list NodeRow :=
  filter (fun r => nodeKey r = (page_url, other)) (clickable_nodes d).

Section Relations.
Context {B : Type}.

(** 1 when [u] is in the VisitedSet of [w'] and was not in that of [w],
    0 otherwise. *)
Definition newly (u : string) (w w' : World B) : nat :=
  if bool_decide (u ∈ visitedUrls w) then 0
  else if bool_decide (u ∈ visitedUrls w') then 1 else 0.

(** The transcript has as many [Crawling] lines for [u] more as [u] is
    new in the VisitedSet. *)
Definition onceOn (u : string) (w w' : World B) : Prop :=
  grows w w'
  /\ exists d, trace w' = (trace w ++ d)%list
               /\ crawlCount u d = newly u w w'.

(** Every table has its old rows in front. *)
Definition appended (w w' : World B) : Prop :=
  visited_urls (db w) `prefix_of` visited_urls (db w')
  /\ page_contents (db w) `prefix_of` page_contents (db w')
  /\ clickable_nodes (db w) `prefix_of` clickable_nodes (db w')
  /\ extracted_info (db w) `prefix_of` extracted_info (db w').

Definition keepsLockstep (w w' : World B) : Prop :=
  lockstep (db w) -> lockstep (db w').

(** The VisitedSet has lost nothing, and what was stored is about
    pages that came into it. *)
Definition storesFresh (w w' : World B) : Prop :=
  grows w w'
  /\ exists d, trace w' = (trace w ++ d)%list
               /\ Forall (aboutNew (visitedUrls w) (visitedUrls w')) d.

(** The same during the visit of [url], admitted when the VisitedSet
    was [base]. *)
Definition storesNew (base : gset string) (url : string) (w w' : World B)
  : Prop :=
  base ⊆ visitedUrls w -> url ∈ visitedUrls w ->
  grows w w'
  /\ exists d, trace w' = (trace w ++ d)%list
               /\ Forall (aboutNew base (visitedUrls w')) d.

(** Store and VisitedSet are as they were, and the transcript has gone
    on without an [Error processing element] line. *)
Definition silent (w w' : World B) : Prop :=
  db w' = db w
  /\ visitedUrls w' = visitedUrls w
  /\ exists d, trace w' = (trace w ++ d)%list /\ skipCount d = 0.

End Relations.

(** A descriptor that the loop stores and passes over: it has an href
    and the href is on another domain. *)
Definition isExternal `{Parser} (url : string) (info : ElementInfo) : bool :=
  JsString.truthy (href info) && negb (isSameDomain url (href info)).

(** The URLs linked to one of [roots] by a chain of URLs, each on the
    domain of the one before it as [isSameDomain] sees it. *)
Inductive onSite `{Parser} (roots : list string) : string -> Prop :=
| site_root (u : string) : In u roots -> onSite roots u
| site_step (p u : string) :
    onSite roots p -> isSameDomain p u = true -> onSite roots u.

(** A [Crawling] line is for a URL on the site of [roots]. *)
Definition crawlsOnSite `{Parser} (roots : list string) (e : Event) : Prop :=
  match e with
  | Console (LogCrawling u _) => onSite roots u
  | _ => True
  end.

(** The store after the descriptors of the page [url] were stored one
    after the other. *)
Definition storeAll (url : string) (infos : list ElementInfo) (d : Database)
  : Database :=
  fold_left (fun d info => execute (nodeInsert url info) d) infos d.

End Ledger.

(** ** The README's variant: its main loop *)

Module TutorialMain.
Import Url Crawler Tutorial.

Section Engine.
Context {B : Type} {driver : Driver B} {parser : Parser}.

(** The levels a call of [crawlAndExtract] at [depth] can nest. *)
Definition levels (depth : Z) : nat :=
  Z.to_nat (Tutorial.MAX_DEPTH + 1 - depth).

(** [new URL(url)] in [main], outside any [catch]. *)
Definition parseSeed (url : string) : M B URL :=
  match newURL url None with
  | Some u => ret u
  | None => throw "Invalid URL"
  end.

(** One turn of the loop of [main]. *)
Definition crawlSeed (url : string) : M B unit :=
  parsedUrl ← parseSeed url;
  let baseDomain := hostname parsedUrl in
  crawlAndExtract (levels 0) url baseDomain 0.

(** The loop of [main] over the seed URLs. *)
Definition mainLoop (seedUrls : list string) : M B unit :=
  forOf seedUrls crawlSeed.

End Engine.

(** [u] is the href of a link that was resolved against some page to a
    URL whose host name is [baseDomain]. *)
Definition inDomain `{Parser} (baseDomain u : string) : Prop :=
  exists input base parsedLink,
    newURL input (Some base) = Some parsedLink
    /\ hostname parsedLink = baseDomain
    /\ Url.href parsedLink = u.

(** A [Crawling] line is for such a URL. *)
Definition crawlsInDomain `{Parser} (baseDomain : string) (e : Event) : Prop :=
  match e with
  | Console (LogCrawling u _) => inDomain baseDomain u
  | _ => True
  end.

End TutorialMain.

(** ** The characters of a numeral *)

Module Numerals.

(** What every character of [`${n}`] is: not the opening parenthesis
    that comes before the index in [:nth-child(n)]. *)
Definition notParen (c : ascii) : Prop := c <> "("%char.

End Numerals.

(** ** More to try the code on *)

Module Samples.
Import Dom Crawler Replay.
Local Open Scope list_scope.

(** A seed list that names the home page twice. *)
Definition twice : list string := [home; home].

(** A later run of the crawler on the store that the run on
    [anchorScript] left: the VisitedSet is new, the tables are not. *)
Definition secondStart : World (list Answer) :=
  mkWorld ∅ (db anchorDone) anchorScript [].

Definition secondDone : World (list Answer) :=
  Eval vm_compute in
    match crawlPage 3 home 0 secondStart with
    | Some (_, w) => w
    | None => secondStart
    end.

(** The README's crawl of the home page: nothing to click, one link to
    [next], and the page behind it does not load. *)
Definition readmeScript : list Answer :=
  [Done; Done; Text "Home"; Text "<html>"; Handles []; Handles [7];
   Attr (Some next); Fails "net::ERR_CONNECTION_REFUSED"].

Definition readmeDone : World (list Answer) :=
  Eval vm_compute in
    match Tutorial.crawlAndExtract 3 home "a.example" 0
            (start ∅ readmeScript) with
    | Some (_, w) => w
    | None => start ∅ readmeScript
    end.

(** The loop over two buttons on the home page: the selector of the
    first finds nothing, the second is clicked and nothing moves. *)
Definition twoButtons : list ElementInfo :=
  [buttonInfo "One" "one"; buttonInfo "Two" "two"].

Definition loopStart : World (list Answer) :=
  start {[home]}
        ([Fails "no such element"] ++ clicks 2 home home ++ [Done; Done]).

Definition loopDone : World (list Answer) :=
  Eval vm_compute in
    match forOf twoButtons (processElement (nested 1) home 0) loopStart with
    | Some (_, w) => w
    | None => loopStart
    end.



(** Discovery on a page with the anchor, a button that goes stale
    while it is asked for its text, and an SVG link. *)
Definition mixedStart : World (list Answer) :=
  start ∅ ([Handles [7; 8; 9]] ++ theAnchor
           ++ [Text "BUTTON"; Fails "stale element reference"]
           ++ [Text "a"; Text ""; Attr (Some "#top");
               NodeOf (sampleSvgLink "")]).

Definition mixed : list ElementInfo * World (list Answer) :=
  Eval vm_compute in
    match listClickableItems mixedStart with
    | Some (Returned infos, w) => (infos, w)
    | _ => ([], mixedStart)
    end.

(** A descriptor of a link to another site. *)
Definition outbound : ElementInfo :=
  mkElementInfo "a.out" "A" "elsewhere" "https://b.example/x".

(** An href that [new URL] rejects. *)
Definition brokenHref : string := "http://[".

(** The [span] that comes before [sampleAnchor] under its [li]. *)
Definition sampleSpan : Element :=
  mkElement "SPAN" "" "" []
    (UnderElement [] [toTree sampleAnchor] "LI" "" ""
       (UnderElement [] [] "UL" "menu" "" (UnderDocument [] []))).

End Samples.

(** * Properties *)

(** ** Strings *)

Module JsStringFacts.
Import JsString.

Example trim_example : trim "  nav   link " = "nav   link".
Proof. reflexivity. Qed.

Example replaceWhitespace_example :
  replaceWhitespace "." (trim "  nav   link ") = "nav.link".
Proof. reflexivity. Qed.

Example toLowerCase_example : toLowerCase "DIV" = "div".
Proof. reflexivity. Qed.

Lemma append_nil_l (s : string) : "" +:+ s = s.
Proof. reflexivity. Qed.

Lemma append_cons (c : ascii) (s t : string) :
  String c s +:+ t = String c (s +:+ t).
Proof. reflexivity. Qed.

Lemma append_nil_r (s : string) : s +:+ "" = s.
Proof.
  induction s as [|c s IH]; [reflexivity|].
  now rewrite append_cons, IH.
Qed.

Lemma append_assoc (a b c : string) : (a +:+ b) +:+ c = a +:+ b +:+ c.
Proof.
  induction a as [|x a IH]; [reflexivity|].
  now rewrite !append_cons, IH.
Qed.

Lemma isSpace_space_char (c : ascii) :
  isSpace c = false -> Ascii.eqb c " "%char = false.
Proof.
  intros H. destruct (Ascii.eqb_spec c " "%char) as [->|]; [|reflexivity].
  discriminate H.
Qed.

Lemma trimStart_singleSpaced (s : string) :
  singleSpaced true s = true -> trimStart s = s.
Proof.
  destruct s as [|c s]; simpl; [reflexivity|].
  destruct (isSpace c); [|reflexivity].
  rewrite andb_false_r. discriminate.
Qed.

Lemma trimEnd_singleSpaced (s : string) (b : bool) :
  singleSpaced b s = true -> trimEnd s = s.
Proof.
  revert b. induction s as [|c s IH]; intros b H; simpl in *; [reflexivity|].
  destruct (isSpace c).
  - apply andb_true_iff in H as [_ H].
    rewrite (IH _ H). destruct s; [discriminate H | reflexivity].
  - rewrite (IH _ H). destruct s; reflexivity.
Qed.

Lemma replaceRuns_singleSpaced (s : string) (inRun b : bool) :
  (inRun = true -> b = true) ->
  singleSpaced b s = true ->
  replaceRuns "." inRun s = spacesToDots s.
Proof.
  revert inRun b. induction s as [|c s IH]; intros inRun b Hrun H; simpl in *;
    [reflexivity|].
  destruct (isSpace c) eqn:Hc.
  - apply andb_true_iff in H as [H Hs]. apply andb_true_iff in H as [Hsp Hb].
    rewrite Hsp. destruct b; [discriminate Hb|].
    destruct inRun; [now specialize (Hrun eq_refl)|].
    rewrite append_cons, append_nil_l. f_equal. now apply (IH true true).
  - rewrite (isSpace_space_char _ Hc). f_equal.
    apply (IH false false); [discriminate | exact H].
Qed.

(** On a class attribute in the usual form, trimming and replacing the
    runs of white space comes to replacing each space. *)
Lemma replaceWhitespace_singleSpaced (s : string) :
  singleSpaced true s = true ->
  replaceWhitespace "." (trim s) = spacesToDots s.
Proof.
  intros H. unfold trim, replaceWhitespace.
  rewrite (trimStart_singleSpaced _ H), (trimEnd_singleSpaced _ _ H).
  apply (replaceRuns_singleSpaced s false true); [discriminate | exact H].
Qed.

End JsStringFacts.

(** ** The selector generator *)

Module DomFacts.
Import JsString JsStringFacts Dom.

Lemma fragment_spec (name cls : string) (pos : Ctx) :
  fragment name (ClassString cls) pos = Normal (specFragment name cls pos).
Proof.
  unfold fragment, withClass, specFragment, classSuffix, nthChildSuffix.
  replace (indexOf pos + 1) with (S (indexOf pos)) by lia.
  destruct (truthy cls), (Nat.ltb 1 (siblingLength pos));
    rewrite ?append_assoc, ?append_nil_r; reflexivity.
Qed.

Lemma fragment_animated (name baseVal : string) (pos : Ctx) :
  fragment name (ClassAnimated baseVal) pos = TypeError.
Proof. reflexivity. Qed.

Lemma walkUp_eq (name : string) (cls : ClassName) (pos : Ctx)
    (path : list string) :
  walkUp name cls pos path
  = match fragment name cls pos with
    | Normal selector =>
        match pos with
        | UnderElement _ _ pName pId pClass up =>
            if truthy pId
            then Normal (("#" +:+ pId) :: selector :: path)
            else walkUp pName pClass up (selector :: path)
        | _ => Normal (selector :: path)
        end
    | TypeError => TypeError
    end.
Proof. destruct pos; reflexivity. Qed.

(** The loop, run on top of an array [path], puts in front of it what
    the specification describes, when the class of every node it makes
    a fragment for is a string; it throws when one is not. *)
Lemma walkUp_spec (pos : Ctx) :
  forall (name : string) (cls : ClassName) (path : list string),
  walkUp name cls pos path
  = if forallb isClassString
         (cls :: map ancClass (belowId (ancestors pos)))
    then Normal (idPrefix (ancestors pos)
                 ++ rev (map ancFragment (belowId (ancestors pos)))
                 ++ specFragment name (classText cls) pos :: path)%list
    else TypeError.
Proof.
  induction pos as [| b a | b a pName pId pClass up IH]; intros name cls path;
    rewrite walkUp_eq;
    (destruct cls as [cls|baseVal];
     [rewrite fragment_spec | rewrite fragment_animated; reflexivity]);
    try reflexivity.
  unfold idPrefix. simpl.
  destruct (truthy pId) eqn:Hid; [reflexivity|].
  rewrite IH. simpl.
  destruct (isClassString pClass
            && forallb isClassString (map ancClass (belowId (ancestors up))));
    [|reflexivity].
  unfold idPrefix. f_equal. f_equal. cbn [map rev ancFragment].
  now rewrite <- app_assoc.
Qed.

(** The siblings the loop counts are the children of [parentNode], and
    the element is at [indexOf] among them. *)
Lemma parentNode_children (e : Element) :
  match parentNode e with
  | JNull => siblingLength (position e) = 0
  | JDocument cs =>
      siblingLength (position e) = length cs
      /\ cs !! indexOf (position e) = Some (toTree e)
  | JElement p =>
      siblingLength (position e) = length (children p)
      /\ children p !! indexOf (position e) = Some (toTree e)
  end.
Proof.
  unfold parentNode. destruct (position e) as [| b a | b a n i c up]; simpl.
  - reflexivity.
  - split; [rewrite length_app; simpl; lia|].
    now rewrite lookup_app_r, Nat.sub_diag by lia.
  - split; [rewrite length_app; simpl; lia|].
    now rewrite lookup_app_r, Nat.sub_diag by lia.
Qed.

(** One turn of the loop: the fragment goes in front, and the loop goes on
    at [parentNode] unless that is no element or has an id. *)
Lemma walkUp_parentNode (e : Element) (path : list string) :
  walkUp (nodeName e) (className e) (position e) path
  = match fragment (nodeName e) (className e) (position e) with
    | Normal selector =>
        let path' := selector :: path in
        match parentNode e with
        | JElement p =>
            if truthy (id p)
            then Normal (("#" +:+ id p) :: path')
            else walkUp (nodeName p) (className p) (position p) path'
        | _ => Normal path'
        end
    | TypeError => TypeError
    end.
Proof.
  unfold parentNode.
  destruct (position e) as [| b a | b a n i c up]; simpl;
    now destruct (fragment _ _ _).
Qed.

(** An element with no id anywhere above it gets the path from the
    topmost element. *)
Example generateCssSelector_structural :
  generateCssSelector
    (JElement
       (mkElement "A" "" " nav   link " []
          (UnderElement [Node "P" "" "" []] [] "DIV" "" "box"
             (UnderElement [] [] "BODY" "" ""
                (UnderElement [Node "HEAD" "" "" []] [] "HTML" "" ""
                   (UnderDocument [] []))))))
  = Normal (Some "html > body:nth-child(2) > div.box > a.nav.link:nth-child(2)").
Proof. reflexivity. Qed.

(** On an element the script returns a selector or throws: it does not
    return [null]. *)
Lemma generateCssSelector_element (e : Element) :
  generateCssSelector (JElement e) = TypeError
  \/ exists selector, generateCssSelector (JElement e) = Normal (Some selector).
Proof.
  simpl. destruct (truthy (id e)); [eauto|].
  destruct (walkUp _ _ _ _); eauto.
Qed.

Lemma generateCssSelector_path (e : Element) :
  truthy (id e) = false ->
  generateCssSelector (JElement e)
  = if htmlClasses e then Normal (Some (join " > " (specPath e)))
    else TypeError.
Proof.
  intros Hid. simpl. rewrite Hid, walkUp_spec.
  unfold htmlClasses, walkedClasses, specPath.
  now destruct (forallb _ _).
Qed.

(** C5 (as amended).  An element with a non-empty id gets ["#" + id],
    whatever its ancestors are.  Any other element whose class
    attribute, like that of each ancestor below the nearest one with an
    id, is a string gets the fragments of [specPath] joined by [" > "]:
    the element's own fragment last, before it those of its ancestors
    up to the nearest one with an id, whose ["#" + id] comes first, or
    up to the topmost element when none has an id.  A fragment is the
    lower-case tag name, then, when the class attribute is not empty, a
    dot and the class attribute trimmed with each run of white space
    turned into one dot, then [:nth-child(k)] when the parent has more
    than one child, [k] being one more than the number of siblings
    before the node.  On a class attribute with single spaces and
    nothing around them, the class suffix is each space replaced by a
    dot. *)
Theorem generateCssSelector_spec (e : Element) :
  (truthy (id e) = true ->
   generateCssSelector (JElement e) = Normal (Some ("#" +:+ id e)))
  /\ (truthy (id e) = false -> htmlClasses e = true ->
      generateCssSelector (JElement e)
      = Normal (Some (join " > " (specPath e))))
  /\ (forall cls, singleSpaced true cls = true ->
      classSuffix cls = spacesSuffix cls)
  /\ (forall pos, 1 < siblingLength pos ->
      nthChildSuffix pos
      = ":nth-child(" +:+ ofNat (S (indexOf pos)) +:+ ")").
Proof.
  repeat split.
  - intros Hid. simpl. now rewrite Hid.
  - intros Hid Hc. now rewrite generateCssSelector_path, Hc.
  - intros cls H. unfold classSuffix, spacesSuffix.
    destruct cls as [|c cls]; [discriminate H|]. simpl truthy. cbv iota.
    now rewrite replaceWhitespace_singleSpaced.
  - intros pos H. unfold nthChildSuffix.
    destruct (Nat.ltb_spec 1 (siblingLength pos)); [reflexivity | lia].
Qed.

Lemma generateCssSelector_spec_witness :
  generateCssSelector (JElement sampleButton) = Normal (Some "#go")
  /\ generateCssSelector (JElement (sampleSvgLink "logo"))
     = Normal (Some "#logo")
  /\ generateCssSelector (JElement sampleAnchor)
     = Normal (Some "#menu > li > a.nav.link:nth-child(2)")
  /\ classSuffix "nav link" = ".nav.link"
  /\ nthChildSuffix (position sampleAnchor) = ":nth-child(2)".
Proof.
  destruct (generateCssSelector_spec sampleButton) as (Hb & _ & _ & _).
  destruct (generateCssSelector_spec (sampleSvgLink "logo"))
    as (Hl & _ & _ & _).
  destruct (generateCssSelector_spec sampleAnchor) as (_ & Ha & Hc & Hn).
  split; [exact (Hb eq_refl)|].
  split; [exact (Hl eq_refl)|].
  split; [exact (Ha eq_refl eq_refl)|].
  split; [exact (Hc "nav link" eq_refl)|].
  apply Hn. simpl. lia.
Defined.

(** X20.  The script throws, and returns no selector, exactly on the
    elements without an id on which its walk meets a class that is not
    a string, as that of an SVG element is: the element's own, or that
    of an ancestor below the nearest one with an id.  It never returns
    [null] for an element. *)
Theorem generateCssSelector_throws (e : Element) :
  (generateCssSelector (JElement e) = TypeError
   <-> truthy (id e) = false /\ htmlClasses e = false)
  /\ generateCssSelector (JElement e) <> Normal None.
Proof.
  split.
  - destruct (truthy (id e)) eqn:Hid.
    + simpl. rewrite Hid. split; [discriminate | now intros [H _]].
    + rewrite (generateCssSelector_path e Hid).
      destruct (htmlClasses e); split; try discriminate; auto.
      now intros [_ H].
  - destruct (generateCssSelector_element e) as [-> | [sel ->]]; discriminate.
Qed.

(** C5.  The class suffix is not each space replaced by a dot: on a
    class attribute with two spaces between its names the script puts
    one dot where that reading puts two.  And not every element gets a
    selector: on an SVG link without an id the script throws. *)
Lemma generateCssSelector_counterexample :
  generateCssSelector (JElement sampleWide) = Normal (Some "div.a.b")
  /\ toLowerCase (nodeName sampleWide) +:+ spacesSuffix "a  b" = "div.a..b"
  /\ generateCssSelector (JElement (sampleSvgLink "")) = TypeError.
Proof. repeat split. Qed.

End DomFacts.

(** ** The domain guard *)

Module UrlFacts.
Import Url.

Section Guard.
Context {parser : Parser}.

(** C6.  [isSameDomain] parses the reference URL, resolves the
    candidate against it, and answers [true] exactly when both parse
    and their host names are the same string; nothing else of the two
    URLs, their scheme included, is looked at.  When either does not
    parse the answer is [false]; the function has an answer on every
    pair of strings. *)
Theorem isSameDomain_spec (referenceUrl candidateUrl : string) :
  (isSameDomain referenceUrl candidateUrl = true
   <-> sameDomainSpec referenceUrl candidateUrl)
  /\ (forall r c,
        newURL referenceUrl None = Some r ->
        newURL candidateUrl (Some referenceUrl) = Some c ->
        isSameDomain referenceUrl candidateUrl
        = bool_decide (hostname r = hostname c))
  /\ (newURL referenceUrl None = None
      \/ newURL candidateUrl (Some referenceUrl) = None ->
      isSameDomain referenceUrl candidateUrl = false).
Proof.
  unfold isSameDomain, sameDomainSpec. repeat split.
  - destruct (newURL referenceUrl None) as [r|]; [|discriminate].
    destruct (newURL candidateUrl (Some referenceUrl)) as [c|]; [|discriminate].
    intros H. exists r, c. repeat split. now apply String.eqb_eq.
  - intros (r & c & -> & -> & H). now apply String.eqb_eq.
  - intros r c -> ->.
    destruct (String.eqb_spec (hostname r) (hostname c)) as [H|H].
    + now rewrite bool_decide_eq_true_2.
    + now rewrite bool_decide_eq_false_2.
  - intros [-> | H]; [reflexivity|].
    destruct (newURL referenceUrl None); [now rewrite H | reflexivity].
Qed.

End Guard.

Lemma isSameDomain_spec_witness :
  isSameDomain (parser := Replay.exampleParser) "https://a.example/" "/y" = true
  /\ isSameDomain (parser := Replay.exampleParser)
       "https://a.example/" "http://a.example/y" = true
  /\ isSameDomain (parser := Replay.exampleParser)
       "https://a.example/" "https://www.a.example/" = false
  /\ isSameDomain (parser := Replay.exampleParser)
       "https://a.example/" "http://[" = false.
Proof.
  pose proof (isSameDomain_spec (parser := Replay.exampleParser)) as S.
  split; [|split; [|split]].
  - apply (proj1 (S "https://a.example/" "/y")).
    eexists _, _. repeat split; reflexivity.
  - apply (proj1 (S "https://a.example/" "http://a.example/y")).
    eexists _, _. repeat split; reflexivity.
  - rewrite (proj1 (proj2 (S "https://a.example/" "https://www.a.example/"))
               _ _ eq_refl eq_refl).
    reflexivity.
  - apply (proj2 (proj2 (S "https://a.example/" "http://["))).
    right. reflexivity.
Defined.

End UrlFacts.

(** ** The monad: how runs compose *)

Module MonadFacts.
Import Crawler Runs.

Section Runs.
Context {B : Type}.

Lemma bind_unfold {A C} (c : M B A) (k : A -> M B C) (w : World B) :
  (c ≫= k) w
  = match c w with
    | None => None
    | Some (Returned a, w') => k a w'
    | Some (Threw e, w') => Some (Threw e, w')
    end.
Proof. reflexivity. Qed.

Lemma bind_returned {A C} (c : M B A) (k : A -> M B C) w a w1 :
  c w = Some (Returned a, w1) -> (c ≫= k) w = k a w1.
Proof. intros H. now rewrite bind_unfold, H. Qed.

Lemma bind_threw {A C} (c : M B A) (k : A -> M B C) w e w1 :
  c w = Some (Threw e, w1) -> (c ≫= k) w = Some (Threw e, w1).
Proof. intros H. now rewrite bind_unfold, H. Qed.

Lemma bind_inv {A C} (c : M B A) (k : A -> M B C) w r w' :
  (c ≫= k) w = Some (r, w') ->
  (exists a w1, c w = Some (Returned a, w1) /\ k a w1 = Some (r, w'))
  \/ (exists e, c w = Some (Threw e, w') /\ r = Threw e).
Proof.
  rewrite bind_unfold. destruct (c w) as [[[a|e] w1]|]; intros H.
  - left. eauto.
  - right. inversion H; subst. eauto.
  - discriminate.
Qed.

Lemma tryCatch_inv {A} (c : M B A) (h : Error -> M B A) w r w' :
  tryCatch c h w = Some (r, w') ->
  (exists a, c w = Some (Returned a, w') /\ r = Returned a)
  \/ (exists e w1, c w = Some (Threw e, w1) /\ h e w1 = Some (r, w')).
Proof.
  unfold tryCatch. destruct (c w) as [[[a|e] w1]|]; intros H.
  - left. inversion H; subst. eauto.
  - right. eauto.
  - discriminate.
Qed.

Lemma tryCatch_returned {A} (c : M B A) h w a w1 :
  c w = Some (Returned a, w1) -> tryCatch c h w = Some (Returned a, w1).
Proof. intros H. unfold tryCatch. now rewrite H. Qed.

Lemma tryCatch_threw {A} (c : M B A) h w e w1 :
  c w = Some (Threw e, w1) -> tryCatch c h w = h e w1.
Proof. intros H. unfold tryCatch. now rewrite H. Qed.

Lemma forOf_cons {A} (x : A) xs (body : A -> M B unit) :
  forOf (x :: xs) body = (body x ;; forOf xs body).
Proof. reflexivity. Qed.

Lemma console_inv l (w : World B) r w' :
  console l w = Some (r, w') ->
  r = Returned tt /\ w' = record (Console l) w.
Proof. intros H. inversion H. auto. Qed.

Lemma dbRun_inv s (w : World B) r w' :
  dbRun s w = Some (r, w') ->
  r = Returned tt
  /\ w' = mkWorld (visitedUrls w) (execute s (db w)) (session w)
                  (trace w ++ [Sql s]).
Proof. intros H. inversion H. auto. Qed.

Lemma visitedAdd_inv u (w : World B) r w' :
  visitedAdd u w = Some (r, w') ->
  r = Returned tt
  /\ w' = mkWorld ({[u]} ∪ visitedUrls w) (db w) (session w) (trace w).
Proof. intros H. inversion H. auto. Qed.

Lemma visitedHas_inv u (w : World B) r w' :
  visitedHas u w = Some (r, w') ->
  r = Returned (bool_decide (u ∈ visitedUrls w)) /\ w' = w.
Proof. intros H. inversion H. auto. Qed.

Lemma call_inv {driver : Driver B} {T} (c : Cmd T) (w : World B) r w' :
  call c w = Some (r, w') ->
  exists b, drive T c (session w) = (r, b)
            /\ w' = mkWorld (visitedUrls w) (db w) b
                            (trace w ++ [Driven c r]).
Proof.
  unfold call. destruct (drive T c (session w)) as [r0 b] eqn:E.
  intros H. inversion H; subst. eauto.
Qed.

Lemma call_run {driver : Driver B} {T} (c : Cmd T) (w : World B) r b :
  drive T c (session w) = (r, b) ->
  call c w = Some (r, mkWorld (visitedUrls w) (db w) b
                              (trace w ++ [Driven c r])).
Proof. intros E. unfold call. now rewrite E. Qed.

(** *** Runs that stay within a preorder on worlds *)

Section Respects.
Variable R : World B -> World B -> Prop.
Hypothesis R_refl : forall w, R w w.
Hypothesis R_trans : forall w1 w2 w3, R w1 w2 -> R w2 w3 -> R w1 w3.

Lemma respects_ret {A} (a : A) : respects R (ret a : M B A).
Proof. intros w r w' H. inversion H. apply R_refl. Qed.

Lemma respects_mret {A} (a : A) : respects R (mret a : M B A).
Proof. apply respects_ret. Qed.

Lemma respects_throw {A} e : respects R (throw e : M B A).
Proof. intros w r w' H. inversion H. apply R_refl. Qed.

Lemma respects_diverge {A} : respects R (diverge : M B A).
Proof. intros w r w' H. discriminate H. Qed.

Lemma respects_visitedHas u : respects R (visitedHas u : M B bool).
Proof. intros w r w' H. inversion H. apply R_refl. Qed.

Lemma respects_bind {A C} (c : M B A) (k : A -> M B C) :
  respects R c -> (forall a, respects R (k a)) -> respects R (c ≫= k).
Proof.
  intros Hc Hk w r w' H.
  apply bind_inv in H as [(a & w1 & H1 & H2) | (e & H1 & _)].
  - apply R_trans with w1; [exact (Hc _ _ _ H1) | exact (Hk _ _ _ _ H2)].
  - exact (Hc _ _ _ H1).
Qed.

Lemma respects_tryCatch {A} (c : M B A) h :
  respects R c -> (forall e, respects R (h e)) -> respects R (tryCatch c h).
Proof.
  intros Hc Hh w r w' H.
  apply tryCatch_inv in H as [(a & H1 & _) | (e & w1 & H1 & H2)].
  - exact (Hc _ _ _ H1).
  - apply R_trans with w1; [exact (Hc _ _ _ H1) | exact (Hh _ _ _ _ H2)].
Qed.

Lemma respects_forOf {A} (xs : list A) (body : A -> M B unit) :
  (forall x, respects R (body x)) -> respects R (forOf xs body).
Proof.
  intros Hb. induction xs as [|x xs IH].
  - apply respects_ret.
  - rewrite forOf_cons. apply respects_bind; auto.
Qed.
End Respects.

(** *** Runs that come back *)

Lemma total_ret {A} (a : A) : total (ret a : M B A).
Proof. intros w. eexists. reflexivity. Qed.

Lemma total_mret {A} (a : A) : total (mret a : M B A).
Proof. apply total_ret. Qed.

Lemma total_throw {A} e : total (throw e : M B A).
Proof. intros w. eexists. reflexivity. Qed.

Lemma total_console l : total (console l : M B unit).
Proof. intros w. eexists. reflexivity. Qed.

Lemma total_dbRun s : total (dbRun s : M B unit).
Proof. intros w. eexists. reflexivity. Qed.

Lemma total_visitedHas u : total (visitedHas u : M B bool).
Proof. intros w. eexists. reflexivity. Qed.

Lemma total_visitedAdd u : total (visitedAdd u : M B unit).
Proof. intros w. eexists. reflexivity. Qed.

Lemma total_call {driver : Driver B} {T} (c : Cmd T) : total (call c).
Proof.
  intros w. unfold call. destruct (drive T c (session w)). eexists. reflexivity.
Qed.

Lemma total_bind {A C} (c : M B A) (k : A -> M B C) :
  total c -> (forall a, total (k a)) -> total (c ≫= k).
Proof.
  intros Hc Hk w. rewrite bind_unfold.
  destruct (Hc w) as [[[a|e] w1] ->]; [apply Hk | eexists; reflexivity].
Qed.

Lemma total_tryCatch {A} (c : M B A) h :
  total c -> (forall e, total (h e)) -> total (tryCatch c h).
Proof.
  intros Hc Hh w. unfold tryCatch.
  destruct (Hc w) as [[[a|e] w1] ->]; [eexists; reflexivity | apply Hh].
Qed.

Lemma total_forOf {A} (xs : list A) (body : A -> M B unit) :
  (forall x, total (body x)) -> total (forOf xs body).
Proof.
  intros Hb. induction xs as [|x xs IH].
  - apply total_ret.
  - rewrite forOf_cons. apply total_bind; auto.
Qed.

(** *** Computations that do the same *)

Lemma same_refl {A} (c : M B A) : same c c.
Proof. intros w. reflexivity. Qed.

Lemma same_bind {A C} (c1 c2 : M B A) (k1 k2 : A -> M B C) :
  same c1 c2 -> (forall a, same (k1 a) (k2 a)) -> same (c1 ≫= k1) (c2 ≫= k2).
Proof.
  intros Hc Hk w. rewrite !bind_unfold, Hc.
  destruct (c2 w) as [[[a|e] w1]|]; [apply Hk | reflexivity | reflexivity].
Qed.

Lemma same_tryCatch {A} (c1 c2 : M B A) h1 h2 :
  same c1 c2 -> (forall e, same (h1 e) (h2 e)) ->
  same (tryCatch c1 h1) (tryCatch c2 h2).
Proof.
  intros Hc Hh w. unfold tryCatch. rewrite Hc.
  destruct (c2 w) as [[[a|e] w1]|]; [reflexivity | apply Hh | reflexivity].
Qed.

Lemma same_forOf {A} (xs : list A) (b1 b2 : A -> M B unit) :
  (forall x, same (b1 x) (b2 x)) -> same (forOf xs b1) (forOf xs b2).
Proof.
  intros Hb. induction xs as [|x xs IH].
  - apply same_refl.
  - rewrite !forOf_cons. apply same_bind; auto.
Qed.

End Runs.

(** Goes through a computation by its shape. *)
Ltac step_with bind_lemma try_lemma for_lemma leaf :=
  repeat
    (cbv zeta;
     lazymatch goal with
     | |- _ (mbind _ _) => apply bind_lemma; [|intros ?]
     | |- _ (tryCatch _ _) => apply try_lemma; [|intros ?]
     | |- _ (forOf _ _) => apply for_lemma; intros ?
     | |- _ (if ?b then _ else _) => destruct b
     | |- _ (match ?x with Some _ => _ | None => _ end) => destruct x
     | |- _ => solve [leaf]
     end).

Ltac same_steps :=
  repeat
    (cbv zeta;
     lazymatch goal with
     | |- same (mbind _ _) (mbind _ _) => apply same_bind; [|intros ?]
     | |- same (tryCatch _ _) (tryCatch _ _) => apply same_tryCatch; [|intros ?]
     | |- same (forOf _ _) (forOf _ _) => apply same_forOf; intros ?
     | |- same (if ?b then _ else _) (if ?b then _ else _) => destruct b
     | |- same (match ?x with Some _ => _ | None => _ end) _ => destruct x
     | |- same ?c ?c => apply same_refl
     end).

(** Takes a finished run apart, step by step. *)
Ltac invert_run :=
  repeat
    match goal with
    | H : (mbind _ _) _ = Some _ |- _ =>
        apply bind_inv in H as [(? & ? & ? & H) | (? & H & ?)]
    | H : tryCatch _ _ _ = Some _ |- _ =>
        apply tryCatch_inv in H as [(? & H & ?) | (? & ? & ? & H)]
    | H : call _ _ = Some _ |- _ => apply call_inv in H as (? & ? & ?)
    | H : console _ _ = Some _ |- _ => apply console_inv in H as [? ?]
    | H : dbRun _ _ = Some _ |- _ => apply dbRun_inv in H as [? ?]
    | H : visitedAdd _ _ = Some _ |- _ => apply visitedAdd_inv in H as [? ?]
    | H : visitedHas _ _ = Some _ |- _ => apply visitedHas_inv in H as [? ?]
    | H : ret _ _ = Some _ |- _ => inversion H; clear H
    | H : mret _ _ = Some _ |- _ => inversion H; clear H
    | H : throw _ _ = Some _ |- _ => inversion H; clear H
    | H : Returned _ = Returned _ |- _ => inversion H; clear H
    | H : Returned _ = Threw _ |- _ => discriminate H
    | H : Threw _ = Returned _ |- _ => discriminate H
    | H : Threw _ = Threw _ |- _ => inversion H; clear H
    end; subst.

End MonadFacts.

(** ** The store *)

Module DatabaseFacts.
Import Crawler.

Lemma existsb_eqb_elem {A} (f : A -> string) (k : string) (l : list A) :
  existsb (fun r => String.eqb (f r) k) l = true <-> k ∈ map f l.
Proof.
  induction l as [|x l IH]; simpl.
  - split; [discriminate | intros H; inversion H].
  - rewrite orb_true_iff, IH, elem_of_cons, String.eqb_eq.
    split; (intros [H|H]; [left; now symmetry | now right]).
Qed.

Lemma hasPage_elem url rows :
  hasPage url rows = true <-> url ∈ map pc_url rows.
Proof. apply existsb_eqb_elem. Qed.

Lemma hasVisitedRow_elem url rows :
  hasVisitedRow url rows = true <-> url ∈ rows.
Proof.
  unfold hasVisitedRow.
  rewrite (existsb_eqb_elem (fun r => r) url rows). now rewrite map_id.
Qed.

Lemma hasNode_elem p a rows :
  hasNode p a rows = true <-> (p, a) ∈ map nodeKey rows.
Proof.
  unfold hasNode. induction rows as [|x l IH]; simpl.
  - split; [discriminate | intros H; inversion H].
  - rewrite orb_true_iff, IH, elem_of_cons, andb_true_iff, !String.eqb_eq.
    unfold nodeKey. split.
    + intros [[H1 H2]|H]; [left; now rewrite <- H1, <- H2 | now right].
    + intros [H|H]; [left; now inversion H | now right].
Qed.

Lemma NoDup_snoc {A} (l : list A) (x : A) :
  NoDup l -> x ∉ l -> NoDup (l ++ [x]).
Proof.
  intros Hl Hx. apply NoDup_app. split; [exact Hl|]. split.
  - intros y Hy Hin. apply list_elem_of_singleton in Hin. now subst.
  - apply NoDup_singleton.
Qed.

(** [INSERT OR IGNORE] and the plain insert into [extracted_info] keep
    the constraints of the three tables. *)
Lemma execute_uniqueKeys s d : uniqueKeys d -> uniqueKeys (execute s d).
Proof.
  intros (Hv & Hp & Hn). destruct s as [url c | url | p t x h o a | u t c]; simpl.
  - destruct (hasPage url (page_contents d)) eqn:E; [now repeat split|].
    repeat split; simpl; auto. rewrite map_app. simpl.
    apply NoDup_snoc; [exact Hp|].
    intros Hin. apply hasPage_elem in Hin. congruence.
  - destruct (hasVisitedRow url (visited_urls d)) eqn:E; [now repeat split|].
    repeat split; simpl; auto.
    apply NoDup_snoc; [exact Hv|].
    intros Hin. apply hasVisitedRow_elem in Hin. congruence.
  - destruct (hasNode p a (clickable_nodes d)) eqn:E; [now repeat split|].
    repeat split; simpl; auto. rewrite map_app. simpl.
    apply NoDup_snoc; [exact Hn|].
    intros Hin. apply (hasNode_elem p a) in Hin. congruence.
  - now repeat split.
Qed.






End DatabaseFacts.

(** ** The traversal engine *)

Module CrawlerFacts.
Import JsString Url Crawler Runs MonadFacts.
Local Open Scope list_scope.

(** *** A preorder kept by every step is kept by the crawl *)

Section Keeps.
Context {B : Type} {driver : Driver B} {parser : Parser}.
Variable R : World B -> World B -> Prop.
Hypothesis R_refl : forall w, R w w.
Hypothesis R_trans : forall w1 w2 w3, R w1 w2 -> R w2 w3 -> R w1 w3.

(** The calls, statements and insertions that keep [R]. *)
Variable okCmd : forall T, Cmd T -> Prop.
Variable okSql : Statement -> Prop.
Variable okAdd : string -> Prop.

Hypothesis keeps_call :
  forall T (c : Cmd T), okCmd T c -> respects R (call c).
Hypothesis keeps_console : forall l, respects R (console l).
Hypothesis keeps_add : forall url, okAdd url -> respects R (visitedAdd url).
Hypothesis keeps_sql : forall s, okSql s -> respects R (dbRun s).

Section Discovery.
Hypothesis ok_discovery :
  forall T (c : Cmd T), discoveryCmd c = true -> okCmd T c.

Ltac keeps_leaf :=
  first [ apply keeps_call; apply ok_discovery; reflexivity
        | apply keeps_console
        | apply respects_ret; assumption
        | apply respects_mret; assumption ].

Ltac keeps :=
  step_with (@respects_bind B R R_trans) (@respects_tryCatch B R R_trans)
            (@respects_forOf B R R_refl R_trans) keeps_leaf.

Lemma keeps_selectorScript node : respects R (selectorScript (B := B) node).
Proof.
  unfold selectorScript. destruct (Dom.generateCssSelector _);
    [now apply respects_ret | now apply respects_throw].
Qed.

Lemma keeps_describeElement el : respects R (describeElement el).
Proof. unfold describeElement. keeps. apply keeps_selectorScript. Qed.

Lemma keeps_collectInfo els : forall acc, respects R (collectInfo els acc).
Proof.
  induction els as [|el els IH]; intros acc; simpl; keeps;
    first [apply keeps_describeElement | apply IH].
Qed.

Lemma keeps_listClickableItems : respects R listClickableItems.
Proof. unfold listClickableItems. keeps. apply keeps_collectInfo. Qed.
End Discovery.

Section Self.
Hypothesis ok_crawler :
  forall T (c : Cmd T), crawlerCmd c = true -> okCmd T c.
Variable self : string -> Z -> M B unit.
Variable depth : Z.
Hypothesis keeps_self : forall u, respects R (self u (depth + 1)%Z).

Ltac keeps_leaf :=
  first [ apply keeps_call; apply ok_crawler; reflexivity
        | apply keeps_console
        | apply respects_ret; assumption
        | apply respects_mret; assumption
        | apply respects_visitedHas; assumption
        | apply keeps_sql; solve [auto]
        | apply keeps_add; assumption ].

Ltac keeps :=
  step_with (@respects_bind B R R_trans) (@respects_tryCatch B R R_trans)
            (@respects_forOf B R R_refl R_trans) keeps_leaf.

Lemma ok_discovery_crawler :
  forall T (c : Cmd T), discoveryCmd c = true -> okCmd T c.
Proof.
  intros T c H. apply ok_crawler. destruct c; try reflexivity; discriminate H.
Qed.

Lemma keeps_relocate url sel : respects R (relocate url sel).
Proof. unfold relocate. keeps. Qed.

Lemma keeps_recoverPage url e : respects R (recoverPage url e).
Proof. unfold recoverPage. keeps. Qed.

Lemma keeps_afterClick url currentUrl newUrl :
  respects R (afterClick self url depth currentUrl newUrl).
Proof. unfold afterClick. keeps. apply keeps_self. Qed.

Lemma keeps_clickElement url el :
  respects R (clickElement self url depth el).
Proof. unfold clickElement. keeps. apply keeps_afterClick. Qed.

Lemma keeps_processElement url info :
  okNodes okSql url -> respects R (processElement self url depth info).
Proof.
  intros Hok. unfold processElement, nodeInsert. keeps.
  - apply keeps_relocate.
  - apply keeps_clickElement.
  - apply keeps_recoverPage.
Qed.

Lemma keeps_loop url infos :
  okNodes okSql url ->
  respects R (forOf infos (processElement self url depth)).
Proof.
  intros Hok. apply respects_forOf; auto.
  intros info. now apply keeps_processElement.
Qed.

Lemma keeps_readPage url :
  okPage okSql okAdd url -> respects R (readPage self url depth).
Proof.
  intros (Hp & Hv & Ha & Hn). unfold readPage. keeps.
  - apply keeps_listClickableItems, ok_discovery_crawler.
  - now apply keeps_processElement.
Qed.

Lemma keeps_visitPage url :
  okPage okSql okAdd url -> respects R (visitPage self url depth).
Proof. intros Hok. unfold visitPage. keeps. now apply keeps_readPage. Qed.

Lemma keeps_guardedVisit url :
  okPage okSql okAdd url ->
  respects R (tryCatch (visitPage self url depth)
                       (fun e => console (ErrCrawling url e))).
Proof. intros Hok. keeps. now apply keeps_visitPage. Qed.

Lemma keeps_crawlPageBody url :
  okPage okSql okAdd url -> respects R (crawlPageBody self url depth).
Proof.
  intros Hok. pose proof Hok as (Hp & Hv & Ha & Hn).
  unfold crawlPageBody. keeps. now apply keeps_visitPage.
Qed.
End Self.

Lemma keeps_crawlPage :
  (forall T (c : Cmd T), crawlerCmd c = true -> okCmd T c) ->
  (forall u, okPage okSql okAdd u) ->
  forall fuel url depth, respects R (crawlPage fuel url depth).
Proof.
  intros Hc Hok. induction fuel as [|fuel IH]; intros url depth; simpl;
    apply keeps_crawlPageBody; auto.
  intros u. apply respects_diverge.
Qed.

Lemma keeps_nested :
  (forall T (c : Cmd T), crawlerCmd c = true -> okCmd T c) ->
  (forall u, okPage okSql okAdd u) ->
  forall fuel url depth, respects R (nested fuel url depth).
Proof.
  intros Hc Hok [|fuel] url depth; simpl.
  - apply respects_diverge.
  - now apply keeps_crawlPage.
Qed.

End Keeps.

(** *** What every crawl keeps *)

Section Kept.
Context {B : Type} {driver : Driver B} {parser : Parser}.

Lemma okPage_any u : okPage anySql anyUrl u.
Proof. now repeat split. Qed.

Lemma grows_refl (w : World B) : grows w w.
Proof. unfold grows. set_solver. Qed.

Lemma grows_trans (w1 w2 w3 : World B) :
  grows w1 w2 -> grows w2 w3 -> grows w1 w3.
Proof. unfold grows. set_solver. Qed.

Lemma grows_call {T} (c : Cmd T) : respects grows (call c).
Proof. intros w r w' H. invert_run. unfold grows. simpl. set_solver. Qed.

Lemma grows_console l : respects (B := B) grows (console l).
Proof. intros w r w' H. invert_run. unfold grows. simpl. set_solver. Qed.

Lemma grows_add u : respects (B := B) grows (visitedAdd u).
Proof. intros w r w' H. invert_run. unfold grows. simpl. set_solver. Qed.

Lemma grows_sql s : respects (B := B) grows (dbRun s).
Proof. intros w r w' H. invert_run. unfold grows. simpl. set_solver. Qed.

(** The VisitedSet only grows. *)
Lemma crawlPage_grows fuel url depth :
  respects grows (crawlPage (B := B) fuel url depth).
Proof.
  apply (keeps_crawlPage grows grows_refl grows_trans anyCmd anySql anyUrl);
    auto using grows_call, grows_console, grows_add, grows_sql, okPage_any.
  all: now intros.
Qed.

Lemma emits_refl P (w : World B) : emits P w w.
Proof. exists []. split; [now rewrite app_nil_r | constructor]. Qed.

Lemma emits_trans P (w1 w2 w3 : World B) :
  emits P w1 w2 -> emits P w2 w3 -> emits P w1 w3.
Proof.
  intros (d1 & E1 & F1) (d2 & E2 & F2). exists (d1 ++ d2). split.
  - now rewrite E2, E1, app_assoc.
  - now apply Forall_app.
Qed.

Lemma emits_one P (w w' : World B) e :
  trace w' = trace w ++ [e] -> P e -> emits P w w'.
Proof. intros E H. exists [e]. split; [exact E | now repeat constructor]. Qed.

Lemma emits_call P {T} (c : Cmd T) :
  (forall r, P (Driven c r)) -> respects (emits P) (call c).
Proof.
  intros HP w r w' H. invert_run. now apply emits_one with (Driven c r).
Qed.

Lemma emits_console P l : P (Console l) -> respects (B := B) (emits P) (console l).
Proof.
  intros HP w r w' H. invert_run. now apply emits_one with (Console l).
Qed.

Lemma emits_dbRun P s : P (Sql s) -> respects (B := B) (emits P) (dbRun s).
Proof.
  intros HP w r w' H. invert_run. now apply emits_one with (Sql s).
Qed.

Lemma emits_visitedAdd P u : respects (B := B) (emits P) (visitedAdd u).
Proof.
  intros w r w' H. invert_run. exists []. simpl.
  split; [now rewrite app_nil_r | constructor].
Qed.

(** A crawl writes to the transcript only: what was there stays, and
    what comes is a call, a console line or a statement of
    [crawlPage]. *)
Lemma crawlPage_emits (P : Event -> Prop) :
  (forall T (c : Cmd T) r, crawlerCmd c = true -> P (Driven c r)) ->
  (forall l, P (Console l)) ->
  (forall s, crawlerSql s = true -> P (Sql s)) ->
  forall fuel url depth, respects (emits P) (crawlPage (B := B) fuel url depth).
Proof.
  intros Hc Hl Hs.
  apply (keeps_crawlPage (emits P) (emits_refl P) (emits_trans P)
           (fun T c => crawlerCmd c = true)
           (fun s => crawlerSql s = true) anyUrl); auto.
  - intros T c Hok. apply emits_call. auto.
  - intros l. apply emits_console. auto.
  - intros u _. apply emits_visitedAdd.
  - intros s Hok. apply emits_dbRun. auto.
  - now repeat split.
Qed.

Lemma keepsUnique_refl (w : World B) : keepsUnique w w.
Proof. unfold keepsUnique. auto. Qed.

Lemma keepsUnique_trans (w1 w2 w3 : World B) :
  keepsUnique w1 w2 -> keepsUnique w2 w3 -> keepsUnique w1 w3.
Proof. unfold keepsUnique. auto. Qed.

(** A crawl keeps the [UNIQUE] constraints of the tables. *)
Lemma crawlPage_keepsUnique fuel url depth :
  respects keepsUnique (crawlPage (B := B) fuel url depth).
Proof.
  apply (keeps_crawlPage keepsUnique keepsUnique_refl keepsUnique_trans
           anyCmd anySql anyUrl); auto using okPage_any.
  - intros T c _ w r w' H. invert_run. unfold keepsUnique. auto.
  - intros l w r w' H. invert_run. unfold keepsUnique. auto.
  - intros u _ w r w' H. invert_run. unfold keepsUnique. auto.
  - intros s _ w r w' H. invert_run. unfold keepsUnique. simpl.
    apply DatabaseFacts.execute_uniqueKeys.
  - now intros.
Qed.

End Kept.

(** *** Admission *)

Section Admission.
Context {B : Type} {driver : Driver B} {parser : Parser}.

Lemma crawlPageBody_rejected self url depth (w : World B) :
  url ∈ visitedUrls w \/ (MAX_DEPTH < depth)%Z ->
  crawlPageBody self url depth w = Some (Returned tt, w).
Proof.
  intros H. unfold crawlPageBody. rewrite bind_unfold. simpl.
  destruct H as [H|H].
  - now rewrite bool_decide_eq_true_2.
  - apply Z.ltb_lt in H. rewrite H, orb_true_r. reflexivity.
Qed.

Lemma crawlPage_rejected fuel url depth (w : World B) :
  url ∈ visitedUrls w \/ (MAX_DEPTH < depth)%Z ->
  crawlPage fuel url depth w = Some (Returned tt, w).
Proof. destruct fuel; apply crawlPageBody_rejected. Qed.

Lemma crawlPageBody_admitted self url depth (w : World B) :
  url ∉ visitedUrls w -> (depth <= MAX_DEPTH)%Z ->
  crawlPageBody self url depth w
  = tryCatch (visitPage self url depth)
             (fun e => console (ErrCrawling url e)) (marked url depth w).
Proof.
  intros Hv Hd. unfold crawlPageBody. rewrite bind_unfold. simpl.
  rewrite bool_decide_eq_false_2 by exact Hv.
  apply Z.ltb_ge in Hd. rewrite Hd. reflexivity.
Qed.

(** [crawlPage] never lets an exception out. *)
Lemma crawlPageBody_returns self url depth (w : World B) r w' :
  crawlPageBody self url depth w = Some (r, w') -> r = Returned tt.
Proof.
  unfold crawlPageBody. intros H.
  apply bind_inv in H as [(seen & w1 & H1 & H) | (e & H1 & _)];
    [|inversion H1].
  destruct (seen || (MAX_DEPTH <? depth)%Z); [now inversion H|].
  invert_run; try reflexivity;
    repeat match goal with u : unit |- _ => destruct u end; reflexivity.
Qed.

Lemma crawlPage_returns fuel url depth (w : World B) r w' :
  crawlPage fuel url depth w = Some (r, w') -> r = Returned tt.
Proof. destruct fuel; apply crawlPageBody_returns. Qed.

Lemma crawlPage_nested fuel url depth :
  crawlPage (B := B) fuel url depth = crawlPageBody (nested fuel) url depth.
Proof. destruct fuel; reflexivity. Qed.

Lemma nested_grows fuel url depth :
  respects grows (nested (B := B) fuel url depth).
Proof.
  destruct fuel; simpl; [apply respects_diverge | apply crawlPage_grows].
Qed.

Lemma nested_emits (P : Event -> Prop) :
  (forall T (c : Cmd T) r, crawlerCmd c = true -> P (Driven c r)) ->
  (forall l, P (Console l)) ->
  (forall s, crawlerSql s = true -> P (Sql s)) ->
  forall fuel url depth, respects (emits P) (nested (B := B) fuel url depth).
Proof.
  intros Hc Hl Hs [|fuel] url depth; simpl.
  - apply respects_diverge.
  - now apply crawlPage_emits.
Qed.

Lemma guardedVisit_grows fuel url depth :
  respects grows
    (tryCatch (visitPage (B := B) (nested fuel) url depth)
              (fun e => console (ErrCrawling url e))).
Proof.
  apply (keeps_guardedVisit grows grows_refl grows_trans anyCmd anySql anyUrl);
    auto using grows_call, grows_console, grows_add, grows_sql, okPage_any.
  - now intros.
  - intros u. apply nested_grows.
Qed.

(** Whatever the rest of the visit does, it only adds to the
    transcript. *)
Lemma readPage_extends fuel url depth :
  respects (emits (fun _ => True)) (readPage (B := B) (nested fuel) url depth).
Proof.
  assert (forall T (c : Cmd T), respects (emits (fun _ => True)) (call c))
    as Hcall by (intros; now apply emits_call).
  assert (forall l, respects (B := B) (emits (fun _ => True)) (console l))
    as Hconsole by (intros; now apply emits_console).
  assert (forall s, respects (B := B) (emits (fun _ => True)) (dbRun s))
    as Hsql by (intros; now apply emits_dbRun).
  apply (keeps_readPage (emits (fun _ => True)) (emits_refl _) (emits_trans _)
           anyCmd anySql anyUrl); auto using okPage_any.
  - now intros.
  - intros u. now apply nested_emits.
Qed.

(** An admitted call ends with the URL in the VisitedSet, and the
    first thing it asked of the browser was the navigation. *)
Lemma crawlPage_admitted_run fuel url depth (w : World B) r w' :
  url ∉ visitedUrls w -> (depth <= MAX_DEPTH)%Z ->
  crawlPage fuel url depth w = Some (r, w') ->
  url ∈ visitedUrls w'
  /\ exists rest,
       trace w'
       = trace w
         ++ Console (LogCrawling url depth)
         :: Driven (Get url) (fst (drive unit (Get url) (session w)))
         :: rest.
Proof.
  intros Hv Hd H.
  rewrite crawlPage_nested, (crawlPageBody_admitted _ _ _ _ Hv Hd) in H.
  split.
  - apply guardedVisit_grows in H. unfold grows in H. simpl in H. set_solver.
  - unfold visitPage in H. invert_run;
      try match goal with
          | H : readPage _ _ _ _ = Some _ |- _ =>
              apply readPage_extends in H as (d & E & _)
          end;
      simpl in *;
      match goal with
      | H : drive _ _ _ = _ |- _ => rewrite H
      end; simpl.
    + exists d. rewrite E, <- !app_assoc. reflexivity.
    + eexists (d ++ [_]). rewrite E, <- !app_assoc. reflexivity.
    + eexists [_]. rewrite <- !app_assoc. reflexivity.
Qed.

(** C1.  A call on a URL that is in the VisitedSet, or at a depth
    beyond [MAX_DEPTH], returns at once and leaves the world as it
    was: VisitedSet, store, browser session and transcript.  Any other
    call puts the URL in the VisitedSet first: the visit, which opens
    with [driver.get(url)], runs from the world [marked], and when the
    call is over the URL is in the VisitedSet and the first thing that
    was asked of the browser, in the state the call found it in, is
    that navigation. *)
Theorem crawlPage_admission (fuel : nat) (url : string) (depth : Z)
    (w : World B) :
  (url ∈ visitedUrls w \/ (MAX_DEPTH < depth)%Z ->
   crawlPage fuel url depth w = Some (Returned tt, w))
  /\ (url ∉ visitedUrls w -> (depth <= MAX_DEPTH)%Z ->
      url ∈ visitedUrls (marked url depth w)
      /\ session (marked url depth w) = session w
      /\ db (marked url depth w) = db w
      /\ crawlPage fuel url depth w
         = tryCatch (call (Get url);; readPage (nested fuel) url depth)
                    (fun e => console (ErrCrawling url e))
                    (marked url depth w)
      /\ forall r w', crawlPage fuel url depth w = Some (r, w') ->
           url ∈ visitedUrls w'
           /\ exists rest,
                trace w'
                = trace w
                  ++ Console (LogCrawling url depth)
                  :: Driven (Get url) (fst (drive unit (Get url) (session w)))
                  :: rest).
Proof.
  split; [apply crawlPage_rejected|].
  intros Hv Hd. split; [simpl; set_solver|].
  split; [reflexivity|]. split; [reflexivity|].
  split; [rewrite crawlPage_nested; now apply crawlPageBody_admitted|].
  intros r w'. now apply crawlPage_admitted_run.
Qed.

End Admission.

(** *** Termination *)

Section Termination.
Context {B : Type} {driver : Driver B} {parser : Parser}.

Ltac total_leaf :=
  first [ apply total_call | apply total_console | apply total_dbRun
        | apply total_ret | apply total_mret | apply total_visitedHas
        | apply total_visitedAdd | assumption ].

Ltac totals :=
  step_with (@total_bind B) (@total_tryCatch B) (@total_forOf B) total_leaf.

Lemma total_selectorScript node : total (selectorScript (B := B) node).
Proof.
  unfold selectorScript. destruct (Dom.generateCssSelector _);
    [apply total_ret | apply total_throw].
Qed.

Lemma total_describeElement el : total (describeElement el).
Proof. unfold describeElement. totals. apply total_selectorScript. Qed.

Lemma total_collectInfo els : forall acc, total (collectInfo els acc).
Proof.
  induction els as [|el els IH]; intros acc; simpl; totals;
    first [apply total_describeElement | apply IH].
Qed.

Lemma total_listClickableItems : total listClickableItems.
Proof. unfold listClickableItems. totals. apply total_collectInfo. Qed.

Lemma total_relocate url sel : total (relocate url sel).
Proof. unfold relocate. totals. Qed.

Lemma total_recoverPage url e : total (recoverPage url e).
Proof. unfold recoverPage. totals. Qed.

Section Self.
Variable self : string -> Z -> M B unit.
Variable depth : Z.
Hypothesis total_self : forall u, total (self u (depth + 1)%Z).

Lemma total_afterClick url currentUrl newUrl :
  total (afterClick self url depth currentUrl newUrl).
Proof. unfold afterClick. totals. apply total_self. Qed.

Lemma total_clickElement url el : total (clickElement self url depth el).
Proof. unfold clickElement. totals. apply total_afterClick. Qed.

Lemma total_processElement url info :
  total (processElement self url depth info).
Proof.
  unfold processElement. totals.
  - apply total_relocate.
  - apply total_clickElement.
  - apply total_recoverPage.
Qed.

Lemma total_readPage url : total (readPage self url depth).
Proof.
  unfold readPage. totals.
  - apply total_listClickableItems.
  - apply total_processElement.
Qed.

Lemma total_visitPage url : total (visitPage self url depth).
Proof. unfold visitPage. totals. apply total_readPage. Qed.

Lemma total_crawlPageBody url : total (crawlPageBody self url depth).
Proof. unfold crawlPageBody. totals. apply total_visitPage. Qed.
End Self.

Lemma levels_succ depth :
  (depth <= MAX_DEPTH)%Z -> levels depth = S (levels (depth + 1)).
Proof. unfold levels, MAX_DEPTH. lia. Qed.

Lemma levels_zero depth : levels depth = 0 -> (MAX_DEPTH < depth)%Z.
Proof. unfold levels, MAX_DEPTH. lia. Qed.

(** With as many levels as the depth bound leaves, the crawl comes
    back from every world. *)
Lemma crawlPage_total fuel : forall url depth,
  levels depth <= fuel -> total (crawlPage fuel url depth).
Proof.
  induction fuel as [|fuel IH]; intros url depth Hf w.
  - rewrite crawlPage_rejected; [eauto|]. right. apply levels_zero. lia.
  - destruct (Z.lt_ge_cases MAX_DEPTH depth) as [Hd|Hd].
    + rewrite crawlPage_rejected; eauto.
    + simpl. apply total_crawlPageBody. intros u. apply IH.
      rewrite (levels_succ depth) in Hf; lia.
Qed.

(** *** The recursive calls are one level deeper *)

Section SameSelf.
Variables self1 self2 : string -> Z -> M B unit.
Variable depth : Z.
Hypothesis same_self :
  forall u, same (self1 u (depth + 1)%Z) (self2 u (depth + 1)%Z).

Lemma same_afterClick url currentUrl newUrl :
  same (afterClick self1 url depth currentUrl newUrl)
       (afterClick self2 url depth currentUrl newUrl).
Proof. unfold afterClick. same_steps. apply same_self. Qed.

Lemma same_clickElement url el :
  same (clickElement self1 url depth el) (clickElement self2 url depth el).
Proof. unfold clickElement. same_steps. apply same_afterClick. Qed.

Lemma same_processElement url info :
  same (processElement self1 url depth info)
       (processElement self2 url depth info).
Proof. unfold processElement. same_steps. apply same_clickElement. Qed.

Lemma same_visitPage url :
  same (visitPage self1 url depth) (visitPage self2 url depth).
Proof.
  unfold visitPage, readPage. same_steps. apply same_processElement.
Qed.

Lemma same_crawlPageBody url :
  same (crawlPageBody self1 url depth) (crawlPageBody self2 url depth).
Proof. unfold crawlPageBody. same_steps. apply same_visitPage. Qed.
End SameSelf.

(** More levels than the depth bound leaves make no difference. *)
Lemma crawlPage_fuel fuel1 : forall fuel2 url depth,
  levels depth <= fuel1 -> levels depth <= fuel2 ->
  same (crawlPage fuel1 url depth) (crawlPage fuel2 url depth).
Proof.
  induction fuel1 as [|fuel1 IH]; intros fuel2 url depth H1 H2 w.
  - rewrite !crawlPage_rejected; auto; right; apply levels_zero; lia.
  - destruct (Z.lt_ge_cases MAX_DEPTH depth) as [Hd|Hd].
    + rewrite !crawlPage_rejected; auto.
    + rewrite (levels_succ depth Hd) in H1, H2.
      destruct fuel2 as [|fuel2]; [lia|]. simpl.
      apply same_crawlPageBody. intros u. apply IH; lia.
Qed.

(** C8.  The traversal terminates: run with the levels the depth bound
    leaves, [crawlPage] comes back, without an exception, from every
    world, and more levels change nothing.  Along the way the
    VisitedSet only grows; the body passes nothing to its recursive
    calls but depth + 1; and a call on a visited URL or beyond
    [MAX_DEPTH] returns at once, the world untouched. *)
Theorem crawlPage_terminates (url : string) (depth : Z) (w : World B) :
  (exists w', crawlPage (levels depth) url depth w = Some (Returned tt, w'))
  /\ (forall fuel, levels depth <= fuel ->
      crawlPage fuel url depth w = crawlPage (levels depth) url depth w)
  /\ (forall fuel r w', crawlPage fuel url depth w = Some (r, w') ->
      visitedUrls w ⊆ visitedUrls w')
  /\ (forall self1 self2,
      (forall u, same (self1 u (depth + 1)%Z) (self2 u (depth + 1)%Z)) ->
      crawlPageBody self1 url depth w = crawlPageBody self2 url depth w)
  /\ (forall fuel, url ∈ visitedUrls w \/ (MAX_DEPTH < depth)%Z ->
      crawlPage fuel url depth w = Some (Returned tt, w)).
Proof.
  repeat split.
  - destruct (crawlPage_total (levels depth) url depth (le_n _) w)
      as [[r w'] H].
    rewrite H. rewrite (crawlPage_returns _ _ _ _ _ _ H). eauto.
  - intros fuel Hf. now apply crawlPage_fuel.
  - intros fuel r w' H. exact (crawlPage_grows fuel url depth w r w' H).
  - intros self1 self2 Hs. now apply same_crawlPageBody.
  - intros fuel H. now apply crawlPage_rejected.
Qed.

(** The main loop over the seeds comes back too. *)
Lemma crawlSeeds_total seedUrls : total (crawlSeeds seedUrls).
Proof.
  unfold crawlSeeds. apply total_forOf. intros url.
  now apply crawlPage_total.
Qed.

End Termination.

(** *** Crawling a URL twice *)

Section Twice.
Context {B : Type} {driver : Driver B} {parser : Parser}.

(** After a call that passed the depth check, the URL is in the
    VisitedSet. *)
Lemma crawlPage_marks fuel url depth (w : World B) r w' :
  (depth <= MAX_DEPTH)%Z ->
  crawlPage fuel url depth w = Some (r, w') ->
  url ∈ visitedUrls w'.
Proof.
  intros Hd H. destruct (decide (url ∈ visitedUrls w)) as [Hv|Hv].
  - apply crawlPage_grows in H. unfold grows in H. set_solver.
  - now destruct (crawlPage_admitted_run fuel url depth w r w' Hv Hd H).
Qed.



End Twice.

(** *** The writes of a page *)

Section Writes.
Context {B : Type} {driver : Driver B} {parser : Parser}.

Lemma quietOn_refl url (w : World B) : quietOn url w w.
Proof.
  split; [apply grows_refl|]. exists []. split; [now rewrite app_nil_r|].
  constructor.
Qed.

Lemma quietOn_trans url (w1 w2 w3 : World B) :
  quietOn url w1 w2 -> quietOn url w2 w3 -> quietOn url w1 w3.
Proof.
  intros (G1 & d1 & E1 & F1) (G2 & d2 & E2 & F2).
  split; [now apply grows_trans with w2|].
  exists (d1 ++ d2). split; [now rewrite E2, E1, app_assoc|].
  intros Hv. apply Forall_app. split; [auto|].
  apply F2. unfold grows in G1. set_solver.
Qed.

Lemma quietOn_one url (w w' : World B) e :
  visitedUrls w' = visitedUrls w ->
  trace w' = trace w ++ [e] ->
  isPageWrite url e = false ->
  quietOn url w w'.
Proof.
  intros Hv Ht He. split; [unfold grows; now rewrite Hv|].
  exists [e]. split; [exact Ht|]. intros _. now repeat constructor.
Qed.

Lemma quietOn_call url {T} (c : Cmd T) : respects (quietOn url) (call c).
Proof. intros w r w' H. invert_run. now apply quietOn_one with (Driven c r). Qed.

Lemma quietOn_console url l : respects (B := B) (quietOn url) (console l).
Proof. intros w r w' H. invert_run. now apply quietOn_one with (Console l). Qed.

Lemma quietOn_sql url s :
  isPageWrite url (Sql s) = false -> respects (B := B) (quietOn url) (dbRun s).
Proof. intros Hs w r w' H. invert_run. now apply quietOn_one with (Sql s). Qed.

Lemma quietOn_add url u : respects (B := B) (quietOn url) (visitedAdd u).
Proof.
  intros w r w' H. invert_run. split; [unfold grows; simpl; set_solver|].
  exists []. simpl. split; [now rewrite app_nil_r | constructor].
Qed.

Lemma okNodes_quiet url u :
  okNodes (fun s => isPageWrite url (Sql s) = false) u.
Proof. intros t x h o a. reflexivity. Qed.

Lemma okPage_quiet url u :
  u <> url -> okPage (fun s => isPageWrite url (Sql s) = false) anyUrl u.
Proof.
  intros Hne. apply String.eqb_neq in Hne.
  repeat split; simpl; auto.
Qed.

(** A crawl that starts with [url] in the VisitedSet writes neither
    the page record nor the visited-URL record of [url]. *)
Lemma crawlPage_quietOn url fuel : forall u depth,
  respects (quietOn url) (crawlPage (B := B) fuel u depth).
Proof.
  induction fuel as [|fuel IH]; intros u depth;
    (destruct (decide (u = url)) as [->|Hne];
     [ intros w r w' H; destruct (decide (url ∈ visitedUrls w)) as [Hv|Hv];
       [ rewrite crawlPage_rejected in H by auto; inversion H;
         apply quietOn_refl
       | split; [exact (crawlPage_grows _ _ _ _ _ _ H)|];
         destruct (crawlPage_emits (fun _ => True)
                     (fun _ _ _ _ => I) (fun _ => I) (fun _ _ => I)
                     _ _ _ _ _ _ H) as (d & E & _);
         exists d; split; [exact E | intros Hin; contradiction] ]
     | simpl;
       apply (keeps_crawlPageBody (quietOn url) (quietOn_refl url)
                (quietOn_trans url) anyCmd
                (fun s => isPageWrite url (Sql s) = false) anyUrl);
       auto using quietOn_call, quietOn_console, quietOn_add, quietOn_sql,
                  okPage_quiet;
       try (now intros) ]).
Qed.

Lemma nested_quietOn url fuel u depth :
  respects (quietOn url) (nested (B := B) fuel u depth).
Proof.
  destruct fuel; simpl; [apply respects_diverge | apply crawlPage_quietOn].
Qed.

(** The interaction loop of a page writes neither of the two records
    of that page. *)
Lemma loop_quietOn url fuel depth infos :
  respects (quietOn url)
    (forOf infos (processElement (B := B) (nested fuel) url depth)).
Proof.
  apply (keeps_loop (quietOn url) (quietOn_refl url) (quietOn_trans url)
           anyCmd (fun s => isPageWrite url (Sql s) = false));
    auto using quietOn_call, quietOn_console, quietOn_sql, okNodes_quiet.
  - now intros.
  - intros u. apply nested_quietOn.
Qed.

Lemma statements_app (a b : list Event) :
  statements (a ++ b) = statements a ++ statements b.
Proof. apply omap_app. Qed.

Lemma statements_none (d : list Event) :
  Forall (fun e => isSql e = false) d -> statements d = [].
Proof.
  induction 1 as [|e d He _ IH]; [reflexivity|].
  destruct e; [exact IH | exact IH | discriminate He].
Qed.

(** Discovery asks the browser about elements and touches nothing:
    no statement, no interaction. *)
Lemma discovery_emits :
  respects (emits (fun e => isInteraction e = false /\ isSql e = false))
           (listClickableItems (B := B)).
Proof.
  apply (keeps_listClickableItems _ (emits_refl _) (emits_trans _)
           (fun T c => discoveryCmd c = true)); auto.
  - intros T c Hc. apply emits_call. intros r.
    destruct c; try discriminate Hc; now split.
  - intros l. now apply emits_console.
Qed.

Lemma discovery_grows : respects grows (listClickableItems (B := B)).
Proof.
  apply (keeps_listClickableItems _ grows_refl grows_trans anyCmd);
    auto using grows_call, grows_console.
  now intros.
Qed.

Ltac trace_eq :=
  simpl; repeat (rewrite <- app_assoc); simpl; rewrite ?app_nil_r;
  reflexivity.

(** What [readPage] writes about its own page, it writes before it
    touches any element: the two records, once, or nothing when the
    page text could not be read. *)
Lemma readPage_writes fuel url depth (w : World B) r w' :
  url ∈ visitedUrls w ->
  readPage (nested fuel) url depth w = Some (r, w') ->
  exists pre post,
    trace w' = trace w ++ pre ++ post
    /\ Forall (fun e => isInteraction e = false) pre
    /\ (statements pre = []
        \/ exists content,
             statements pre
             = [InsertOrIgnorePageContent url content;
                InsertOrIgnoreVisitedUrl url])
    /\ Forall (fun e => isPageWrite url e = false) post.
Proof.
  intros Hv H. unfold readPage in H.
  apply bind_inv in H as [(a1 & w1 & Hwait & H) | (e & Hwait & ->)].
  2: { apply call_inv in Hwait as (b & _ & ->).
       exists [Driven (Wait (ElementLocated "body") 10000) (Threw e)], [].
       split; [trace_eq|].
       repeat split; [now repeat constructor | now left | constructor]. }
  apply call_inv in Hwait as (b1 & _ & ->).
  apply bind_inv in H as [(content & w2 & Htext & H) | (e & Htext & ->)].
  2: { apply call_inv in Htext as (b & _ & ->).
       exists [Driven (Wait (ElementLocated "body") 10000) (Returned a1);
               Driven ScriptInnerText (Threw e)], [].
       split; [trace_eq|].
       repeat split; [now repeat constructor | now left | constructor]. }
  apply call_inv in Htext as (b2 & _ & ->). simpl in H.
  apply bind_inv in H as [(a3 & w3 & Hp & H) | (e & Hp & _)];
    [|now apply dbRun_inv in Hp].
  apply dbRun_inv in Hp as [_ ->]. simpl in H.
  apply bind_inv in H as [(a4 & w4 & Hu & H) | (e & Hu & _)];
    [|now apply dbRun_inv in Hu].
  apply dbRun_inv in Hu as [_ ->]. simpl in H.
  apply bind_inv in H as [(infos & w5 & Hl & H) | (e & Hl & ->)].
  2: { destruct (discovery_emits _ _ _ Hl) as (d & E & F). simpl in E.
       exists ([Driven (Wait (ElementLocated "body") 10000) (Returned a1);
                Driven ScriptInnerText (Returned content);
                Sql (InsertOrIgnorePageContent url content);
                Sql (InsertOrIgnoreVisitedUrl url)] ++ d), [].
       split; [rewrite E; trace_eq|].
       split; [|split; [|constructor]].
       - repeat (constructor; [reflexivity|]).
         eapply Forall_impl; [exact F|]. now intros x [? _].
       - right. exists content. rewrite statements_app.
         rewrite (statements_none d); [reflexivity|].
         eapply Forall_impl; [exact F|]. now intros x [_ ?]. }
  pose proof (discovery_grows _ _ _ Hl) as Hg.
  destruct (discovery_emits _ _ _ Hl) as (d & E & F). simpl in E, Hg.
  apply bind_inv in H as [(a6 & w6 & Hc & H) | (e & Hc & _)];
    [|now apply console_inv in Hc].
  apply console_inv in Hc as [_ ->].
  apply loop_quietOn in H as (_ & d' & E' & F').
  exists ([Driven (Wait (ElementLocated "body") 10000) (Returned a1);
           Driven ScriptInnerText (Returned content);
           Sql (InsertOrIgnorePageContent url content);
           Sql (InsertOrIgnoreVisitedUrl url)] ++ d
          ++ [Console (LogFound (length infos) url)]), d'.
  split; [rewrite E'; simpl; rewrite E; trace_eq|].
  split; [|split].
  - repeat (constructor; [reflexivity|]). apply Forall_app. split.
    + eapply Forall_impl; [exact F|]. now intros x [? _].
    + now repeat constructor.
  - right. exists content. rewrite !statements_app.
    rewrite (statements_none d); [reflexivity|].
    eapply Forall_impl; [exact F|]. now intros x [_ ?].
  - apply F'. simpl. unfold grows in Hg. set_solver.
Qed.


(** The same for a whole call of [crawlPage]. *)
Lemma crawlPage_writes fuel url depth (w : World B) r w' :
  crawlPage fuel url depth w = Some (r, w') ->
  exists pre post,
    trace w' = trace w ++ pre ++ post
    /\ Forall (fun e => isInteraction e = false) pre
    /\ (statements pre = []
        \/ exists content,
             statements pre
             = [InsertOrIgnorePageContent url content;
                InsertOrIgnoreVisitedUrl url])
    /\ Forall (fun e => isPageWrite url e = false) post.
Proof.
  intros H.
  destruct (decide (url ∈ visitedUrls w)) as [Hv|Hv];
    [|destruct (Z.lt_ge_cases MAX_DEPTH depth) as [Hd|Hd]].
  1,2: rewrite crawlPage_rejected in H by auto; inversion H; subst;
       exists [], []; split; [trace_eq|];
       repeat split; [constructor | now left | constructor].
  rewrite crawlPage_nested, (crawlPageBody_admitted _ _ _ _ Hv Hd) in H.
  unfold visitPage in H.
  assert (url ∈ visitedUrls (marked url depth w)) as Hm by (simpl; set_solver).
  apply tryCatch_inv in H as [(a & H & ->) | (e & w1 & H & Hh)].
  - apply bind_inv in H as [(a1 & w1 & Hget & H) | (e & _ & He)];
      [|discriminate He].
    apply call_inv in Hget as (b & _ & ->).
    apply readPage_writes in H as (pre & post & E & F1 & S1 & F2);
      [|exact Hm].
    exists (Console (LogCrawling url depth)
            :: Driven (Get url) (Returned a1) :: pre), post.
    split; [rewrite E; trace_eq|].
    split; [now repeat constructor|]. split; [exact S1 | exact F2].
  - apply console_inv in Hh as [_ ->].
    apply bind_inv in H as [(a1 & w2 & Hget & H) | (e' & Hget & He)].
    + apply call_inv in Hget as (b & _ & ->).
      apply readPage_writes in H as (pre & post & E & F1 & S1 & F2);
        [|exact Hm].
      exists (Console (LogCrawling url depth)
              :: Driven (Get url) (Returned a1) :: pre),
             (post ++ [Console (ErrCrawling url e)]).
      split; [simpl; rewrite E; trace_eq|].
      split; [now repeat constructor|]. split; [exact S1|].
      apply Forall_app. split; [exact F2 | now repeat constructor].
    + apply call_inv in Hget as (b & _ & ->).
      exists [Console (LogCrawling url depth); Driven (Get url) (Threw e')],
             [Console (ErrCrawling url e)].
      split; [trace_eq|].
      repeat split; [now repeat constructor | now left
                    | now repeat constructor].
Qed.

Lemma afterClick_stays self url depth currentUrl newUrl :
  newUrl = currentUrl \/ isSameDomain url newUrl = false ->
  afterClick (B := B) self url depth currentUrl newUrl
  = (call Refresh;; call (Wait (UrlIs currentUrl) 5000)).
Proof.
  intros H. unfold afterClick.
  assert (negb (String.eqb newUrl currentUrl) && isSameDomain url newUrl
          = false) as ->; [|reflexivity].
  destruct H as [->| ->]; [now rewrite String.eqb_refl | apply andb_false_r].
Qed.

(** C10.  When the click left the URL as it was, or took the browser
    to another domain, what follows is the refresh and the wait for
    the URL, and nothing else: the store and the VisitedSet are as
    before and the transcript has those two calls more (one, when the
    refresh fails).  As for the page's own records, any call of
    [crawlPage] writes the page-content row and the visited-URL row of
    its URL once, one after the other, before it touches any element,
    or not at all; whatever follows, the interaction loop and the
    crawls nested in it, writes neither of them again. *)
Theorem click_without_navigation (self : string -> Z -> M B unit)
    (fuel : nat) (url : string) (depth : Z) (currentUrl newUrl : string)
    (w : World B) :
  (newUrl = currentUrl \/ isSameDomain url newUrl = false ->
   afterClick self url depth currentUrl newUrl w
   = (call Refresh;; call (Wait (UrlIs currentUrl) 5000)) w
   /\ forall r w',
        afterClick self url depth currentUrl newUrl w = Some (r, w') ->
        db w' = db w
        /\ visitedUrls w' = visitedUrls w
        /\ (trace w'
            = trace w ++ [Driven Refresh (Returned tt);
                          Driven (Wait (UrlIs currentUrl) 5000) r]
            \/ (trace w' = trace w ++ [Driven Refresh r]
                /\ r <> Returned tt)))
  /\ (forall r w', crawlPage fuel url depth w = Some (r, w') ->
      exists pre post,
        trace w' = trace w ++ pre ++ post
        /\ Forall (fun e => isInteraction e = false) pre
        /\ (statements pre = []
            \/ exists content,
                 statements pre
                 = [InsertOrIgnorePageContent url content;
                    InsertOrIgnoreVisitedUrl url])
        /\ Forall (fun e => isPageWrite url e = false) post).
Proof.
  split; [|intros r w'; apply crawlPage_writes].
  intros Hstay. rewrite (afterClick_stays _ _ _ _ _ Hstay).
  split; [reflexivity|]. intros r w' H.
  apply bind_inv in H as [([] & w1 & Hr & H) | (e & Hr & ->)].
  - apply call_inv in Hr as (b1 & _ & ->).
    apply call_inv in H as (b2 & _ & ->). simpl.
    repeat split. left. trace_eq.
  - apply call_inv in Hr as (b1 & _ & ->). simpl.
    repeat split. right. split; [reflexivity | discriminate].
Qed.

End Writes.

(** *** One descriptor's failure *)

Section Faults.
Context {B : Type} {driver : Driver B} {parser : Parser}.

Lemma relocate_threw url sel (w : World B) e b :
  drive WebElement (FindElement sel) (session w) = (Threw e, b) ->
  relocate url sel w
  = Some (Returned None,
          mkWorld (visitedUrls w) (db w) b
                  (trace w ++ [Driven (FindElement sel) (Threw e);
                               Console (ErrFinding url e)])).
Proof.
  intros H. unfold relocate, tryCatch.
  rewrite (bind_threw _ _ _ _ _ (call_run _ _ _ _ H)).
  rewrite bind_unfold. unfold console, record. simpl.
  now rewrite <- app_assoc.
Qed.

Lemma relocate_returned url sel (w : World B) el b :
  drive WebElement (FindElement sel) (session w) = (Returned el, b) ->
  relocate url sel w
  = Some (Returned (Some el),
          mkWorld (visitedUrls w) (db w) b
                  (trace w ++ [Driven (FindElement sel) (Returned el)])).
Proof.
  intros H. unfold relocate, tryCatch.
  now rewrite (bind_returned _ _ _ _ _ (call_run _ _ _ _ H)).
Qed.

(** A descriptor whose selector finds nothing is stored, reported and
    left alone. *)
Lemma processElement_stale self url depth info (w : World B) e b :
  truthy (href info) && negb (isSameDomain url (href info)) = false ->
  drive WebElement (FindElement (selector info)) (session w) = (Threw e, b) ->
  processElement self url depth info w
  = Some (Returned tt, skipped url info e b w).
Proof.
  intros Hin H. unfold processElement.
  rewrite bind_unfold. unfold dbRun at 1. cbv zeta. rewrite Hin.
  rewrite bind_unfold. unfold record at 1.
  rewrite (relocate_threw url _ _ e b) by exact H.
  unfold skipped. simpl. now rewrite <- app_assoc.
Qed.

(** A descriptor whose handling throws after its element was found ends
    in the [catch] block. *)
Lemma processElement_caught self url depth info (w : World B) el b e w2 :
  truthy (href info) && negb (isSameDomain url (href info)) = false ->
  drive WebElement (FindElement (selector info)) (session w)
  = (Returned el, b) ->
  clickElement self url depth el (located url info el b w)
  = Some (Threw e, w2) ->
  processElement self url depth info w = recoverPage url e w2.
Proof.
  intros Hin Hf Hc. unfold processElement.
  rewrite bind_unfold. unfold dbRun at 1. cbv zeta. rewrite Hin.
  rewrite bind_unfold. unfold record at 1.
  rewrite (relocate_returned url _ _ el b) by exact Hf.
  simpl. rewrite <- app_assoc. simpl.
  unfold located in Hc. now rewrite (tryCatch_threw _ _ _ _ _ Hc).
Qed.

(** A descriptor whose handling throws after its element was found is
    reported, and when the refresh and the wait of the [catch] block
    go through, the turn ends well. *)
Lemma processElement_recovered self url depth info (w : World B)
    el b e w2 b3 b4 :
  truthy (href info) && negb (isSameDomain url (href info)) = false ->
  drive WebElement (FindElement (selector info)) (session w)
  = (Returned el, b) ->
  clickElement self url depth el (located url info el b w)
  = Some (Threw e, w2) ->
  drive unit Refresh (session w2) = (Returned tt, b3) ->
  drive unit (Wait (UrlIs url) 5000) b3 = (Returned tt, b4) ->
  processElement self url depth info w
  = Some (Returned tt, recovered url e b4 w2).
Proof.
  intros Hin Hf Hc Hr Hw. unfold processElement.
  rewrite bind_unfold. unfold dbRun at 1. cbv zeta. rewrite Hin.
  rewrite bind_unfold. unfold record at 1.
  rewrite (relocate_returned url _ _ el b) by exact Hf.
  simpl. rewrite <- app_assoc. simpl.
  unfold located in Hc. rewrite (tryCatch_threw _ _ _ _ _ Hc).
  unfold recoverPage.
  rewrite bind_unfold. unfold console at 1, record at 1.
  erewrite bind_returned by (apply call_run; simpl; exact Hr).
  erewrite call_run by (simpl; exact Hw).
  unfold recovered. simpl. now rewrite <- !app_assoc.
Qed.

Lemma forOf_step {A} (x : A) xs (body : A -> M B unit) w w1 :
  body x w = Some (Returned tt, w1) ->
  forOf (x :: xs) body w = forOf xs body w1.
Proof. intros H. rewrite forOf_cons, bind_unfold, H. reflexivity. Qed.

(** C3 (as amended).  A descriptor that is not filtered out as external
    and whose selector finds no element is stored, the failure is
    written to the console, and the loop goes on to the next
    descriptor from there: the transcript has the statement, the
    failed lookup and the console line, and no refresh; the browser is
    as the lookup left it. *)
Theorem stale_selector_skipped (self : string -> Z -> M B unit)
    (url : string) (depth : Z) (info : ElementInfo)
    (rest : list ElementInfo) (w : World B) (e : Error) (b : B) :
  truthy (href info) && negb (isSameDomain url (href info)) = false ->
  drive WebElement (FindElement (selector info)) (session w) = (Threw e, b) ->
  forOf (info :: rest) (processElement self url depth) w
  = forOf rest (processElement self url depth) (skipped url info e b w)
  /\ session (skipped url info e b w) = b
  /\ exists d,
       trace (skipped url info e b w) = trace w ++ d
       /\ In (Console (ErrFinding url e)) d
       /\ Forall (fun ev => isRefresh ev = false) d.
Proof.
  intros Hin H. split; [|split; [reflexivity|]].
  - apply forOf_step. now apply processElement_stale.
  - eexists. split; [reflexivity|].
    split; [simpl; auto | now repeat constructor].
Qed.

(** C2 (as amended).  For a descriptor that is not filtered out as
    external: when its selector finds no element, the failure is
    written to the console and the loop goes on to the next descriptor,
    without a refresh; when scrolling, waiting, clicking or what
    follows the click throws, the exception is caught and written to
    the console and the refresh of the page is asked for, and if that
    refresh and the wait for the page URL go through, the loop goes on to
    the next descriptor. *)
Theorem element_failure_contained (self : string -> Z -> M B unit)
    (url : string) (depth : Z) (info : ElementInfo)
    (rest : list ElementInfo) (w : World B) :
  truthy (href info) && negb (isSameDomain url (href info)) = false ->
  (forall e b,
     drive WebElement (FindElement (selector info)) (session w)
     = (Threw e, b) ->
     forOf (info :: rest) (processElement self url depth) w
     = forOf rest (processElement self url depth) (skipped url info e b w))
  /\ (forall el b e w2,
        drive WebElement (FindElement (selector info)) (session w)
        = (Returned el, b) ->
        clickElement self url depth el (located url info el b w)
        = Some (Threw e, w2) ->
        (forall r w', processElement self url depth info w = Some (r, w') ->
           exists answer rest',
             trace w'
             = trace w2
               ++ Console (ErrProcessingOn url e)
               :: Driven Refresh answer :: rest')
        /\ (forall b3 b4,
              drive unit Refresh (session w2) = (Returned tt, b3) ->
              drive unit (Wait (UrlIs url) 5000) b3 = (Returned tt, b4) ->
              forOf (info :: rest) (processElement self url depth) w
              = forOf rest (processElement self url depth)
                      (recovered url e b4 w2))).
Proof.
  intros Hin. split.
  - intros e b H. apply forOf_step. now apply processElement_stale.
  - intros el b e w2 Hf Hc. split.
    + intros r w' H.
      rewrite (processElement_caught _ _ _ _ _ _ _ _ _ Hin Hf Hc) in H.
      unfold recoverPage in H.
      apply bind_inv in H as [(u & w3 & Hl & H) | (e' & Hl & _)];
        [|now apply console_inv in Hl].
      apply console_inv in Hl as [_ ->].
      apply bind_inv in H as [(u' & w4 & Hr & H) | (e' & Hr & _)].
      * apply call_inv in Hr as (b3 & _ & ->).
        apply call_inv in H as (b4 & _ & ->). simpl.
        eexists _, [_]. now rewrite <- !app_assoc.
      * apply call_inv in Hr as (b3 & _ & ->). simpl.
        eexists _, []. now rewrite <- !app_assoc.
    + intros b3 b4 Hr Hw. apply forOf_step.
      now apply processElement_recovered with el b b3.
Qed.

End Faults.

(** *** Discovery *)

Section Discovery.
Import DomFacts.
Context {B : Type} {driver : Driver B} {parser : Parser}.

Ltac trace_eq :=
  simpl; repeat (rewrite <- app_assoc); simpl; rewrite ?app_nil_r;
  reflexivity.

Lemma isLinkTag_linkTag tag : isLinkTag tag = true <-> linkTag tag.
Proof.
  unfold isLinkTag, linkTag. now rewrite orb_true_iff, !String.eqb_eq.
Qed.

Lemma isLinkTag_other tag : isLinkTag tag = false -> ~ linkTag tag.
Proof.
  intros H Hl. apply isLinkTag_linkTag in Hl. congruence.
Qed.

(** The question about the href, as the code asks it. *)
Lemma askHref_run el tag (w : World B) r w' :
  (if isLinkTag tag then call (GetAttribute el "href") else ret None) w
  = Some (r, w') ->
  match r with
  | Returned h =>
      exists q, trace w' = trace w ++ q /\ hrefPart el tag q (default "" h)
  | Threw e =>
      linkTag tag
      /\ trace w' = trace w ++ [Driven (GetAttribute el "href") (Threw e)]
  end.
Proof.
  destruct (isLinkTag tag) eqn:Et; intros H.
  - apply isLinkTag_linkTag in Et.
    apply call_inv in H as (b & _ & ->). destruct r as [h|e]; simpl.
    + eexists. split; [reflexivity|]. now constructor.
    + auto.
  - apply isLinkTag_other in Et. inversion H; subst.
    exists []. split; [now rewrite app_nil_r|]. now constructor.
Qed.

(** What is done about one element, from the answers about it. *)
Lemma describeElement_run el (w : World B) r w' :
  describeElement el w = Some (r, w') ->
  exists seg,
    trace w' = trace w ++ seg
    /\ match r with
       | Returned info => handled el seg (Some info)
       | Threw e => failed el seg e
       end.
Proof.
  intros H. unfold describeElement in H.
  apply bind_inv in H as [(tag & w1 & H1 & H) | (e & H1 & ->)];
    apply call_inv in H1 as (b1 & _ & ->).
  2: { exists [Driven (GetTagName el) (Threw e)].
       split; [reflexivity | constructor]. }
  apply bind_inv in H as [(text & w2 & H2 & H) | (e & H2 & ->)];
    apply call_inv in H2 as (b2 & _ & ->).
  2: { exists [Driven (GetTagName el) (Returned tag);
               Driven (GetText el) (Threw e)].
       split; [trace_eq | constructor]. }
  apply bind_inv in H as [(h & w3 & H3 & H) | (e & H3 & ->)];
    apply askHref_run in H3; simpl in H3.
  2: { destruct H3 as [Hl ->].
       exists [Driven (GetTagName el) (Returned tag);
               Driven (GetText el) (Returned text);
               Driven (GetAttribute el "href") (Threw e)].
       split; [trace_eq | now constructor]. }
  destruct H3 as (q & E3 & Hq).
  apply bind_inv in H as [(node & w4 & H4 & H) | (e & H4 & ->)];
    apply call_inv in H4 as (b4 & _ & ->).
  2: { exists ([Driven (GetTagName el) (Returned tag);
                Driven (GetText el) (Returned text)]
               ++ q ++ [Driven (ScriptArgument el) (Threw e)]).
       split; [simpl; rewrite E3; trace_eq|].
       now apply failed_node with (default "" h). }
  unfold selectorScript in H.
  exists ([Driven (GetTagName el) (Returned tag);
           Driven (GetText el) (Returned text)]
          ++ q ++ [Driven (ScriptArgument el) (Returned node)]).
  destruct (generateCssSelector_element node) as [Ht | [sel Hs]].
  - rewrite Ht in H. inversion H; subst.
    split; [simpl; rewrite E3; trace_eq|].
    now apply failed_script with (default "" h).
  - rewrite Hs in H. inversion H; subst.
    split; [simpl; rewrite E3; trace_eq|].
    now constructor.
Qed.

Lemma collectInfo_discovers els : forall acc (w : World B) infos w',
  collectInfo els acc w = Some (Returned infos, w') ->
  exists d news,
    trace w' = trace w ++ d
    /\ infos = acc ++ news
    /\ discovers els d news.
Proof.
  induction els as [|el els IH]; intros acc w infos w' H; simpl in H.
  - inversion H; subst. exists [], []. rewrite !app_nil_r.
    repeat split. constructor.
  - apply bind_inv in H as [(acc' & w1 & H1 & H) | (e & _ & He)];
      [|discriminate He].
    apply IH in H as (d2 & news2 & E2 & -> & D2).
    apply tryCatch_inv in H1 as [(a & H1 & Ha) | (e & w0 & H1 & Hh)].
    + inversion Ha; subst a; clear Ha.
      apply bind_inv in H1 as [(info & w0 & Hd & Hr) | (e & _ & He)];
        [|discriminate He].
      inversion Hr; subst; clear Hr.
      apply describeElement_run in Hd as (seg & E1 & Hseg).
      exists (seg ++ d2), (info :: news2).
      split; [rewrite E2, E1; now rewrite app_assoc|].
      split; [now rewrite <- app_assoc|].
      now constructor.
    + apply bind_inv in H1 as [(info & w2 & Hd & Hr) | (e' & Hd & He)];
        [inversion Hr|].
      inversion He; subst e'; clear He.
      apply describeElement_run in Hd as (seg & E1 & Hseg).
      apply bind_inv in Hh as [(u & w3 & Hc & Hr) | (e'' & Hc & He')];
        [|now apply console_inv in Hc].
      apply console_inv in Hc as [_ ->]. inversion Hr; subst; clear Hr.
      exists ((seg ++ [Console (ErrProcessingElement e)]) ++ d2), news2.
      split; [rewrite E2; simpl; rewrite E1; trace_eq|].
      split; [reflexivity|].
      apply discovers_skip; [now constructor | exact D2].
Qed.

(** C7.  [listClickableItems] handles the elements that the XPath query
    matched one after the other, and returns their descriptors in that
    order.  The descriptor of an element is built from the answers the
    browser gave about it: its tag name as answered, its text trimmed,
    the selector the script returns for its node, and as href the
    [href] attribute the browser answered (the empty string when it has
    none) if the lower-cased tag name is [a] or [link]; the empty
    string, without the attribute being asked for, for any other tag.
    An element gets no descriptor only when one of the calls about it,
    or the script, throws: then the error line is printed and the next
    element is handled. *)
Theorem listClickableItems_spec (w : World B) (infos : list ElementInfo)
    (w' : World B) :
  listClickableItems w = Some (Returned infos, w') ->
  exists els d,
    trace w'
    = trace w ++ Driven (FindElements Crawler.clickableXPath) (Returned els) :: d
    /\ discovers els d infos.
Proof.
  intros H. unfold listClickableItems in H.
  apply bind_inv in H as [(els & w1 & H1 & H) | (e & _ & He)];
    [|discriminate He].
  apply call_inv in H1 as (b1 & _ & ->).
  apply collectInfo_discovers in H as (d & news & E & -> & D).
  exists els, d. split; [rewrite E; trace_eq | exact D].
Qed.

End Discovery.

End CrawlerFacts.

(** ** Where the link sweep is *)

Module SweepFacts.
Import JsString Url Crawler Runs MonadFacts CrawlerFacts.
Local Open Scope list_scope.

Section Sweep.
Context {B : Type} {driver : Driver B} {parser : Parser}.






(** *** A page is crawled at a nested level right after a click *)

Lemma nestedAfterClick_nil pre : nestedAfterClick pre [].
Proof. intros [|x d1] u k d2 E; discriminate E. Qed.

Lemma nestedAfterClick_app pre d d' :
  nestedAfterClick pre d -> nestedAfterClick (pre ++ d) d' ->
  nestedAfterClick pre (d ++ d').
Proof.
  intros H H' d1 u k d2 E.
  apply app_eq_app in E as [l [[E1 E2] | [E1 E2]]].
  - destruct l as [|x l]; simpl in E2.
    + rewrite app_nil_r in E1. subst d1.
      rewrite <- (app_nil_r (pre ++ d)). apply H' with k d2.
      now rewrite <- E2.
    + inversion E2; subst. now apply H with k l.
  - subst d1. rewrite app_assoc. now apply H' with k d2.
Qed.

Lemma nestedAfterClick_other pre e :
  (forall u k, e <> Console (LogCrawling u k)) -> nestedAfterClick pre [e].
Proof.
  intros He [|x d1] u k d2 E.
  - inversion E. now contradiction (He u k).
  - inversion E as [[Hx E']]. now destruct d1.
Qed.

Lemma clicksOnly_refl (w : World B) : clicksOnly w w.
Proof.
  exists []. split; [now rewrite app_nil_r | apply nestedAfterClick_nil].
Qed.

Lemma clicksOnly_trans (w1 w2 w3 : World B) :
  clicksOnly w1 w2 -> clicksOnly w2 w3 -> clicksOnly w1 w3.
Proof.
  intros (d & E & H) (d' & E' & H'). exists (d ++ d').
  split; [now rewrite E', E, app_assoc|].
  apply nestedAfterClick_app; [exact H | now rewrite <- E].
Qed.

Lemma clicksOnly_one (w w' : World B) e :
  trace w' = trace w ++ [e] ->
  (forall u k, e <> Console (LogCrawling u k)) ->
  clicksOnly w w'.
Proof.
  intros E He. exists [e]. split; [exact E|].
  now apply nestedAfterClick_other.
Qed.


Lemma clicksOnly_call {T} (c : Cmd T) : respects clicksOnly (call c).
Proof.
  intros w r w' H. invert_run.
  apply clicksOnly_one with (Driven c r); [reflexivity | discriminate].
Qed.

Lemma clicksOnly_console l :
  (forall u k, l <> LogCrawling u k) ->
  respects (B := B) clicksOnly (console l).
Proof.
  intros Hl w r w' H. invert_run.
  apply clicksOnly_one with (Console l); [reflexivity|].
  intros u k E. inversion E. now contradiction (Hl u k).
Qed.

Lemma clicksOnly_sql s : respects (B := B) clicksOnly (dbRun s).
Proof.
  intros w r w' H. invert_run.
  apply clicksOnly_one with (Sql s); [reflexivity | discriminate].
Qed.

Ltac clicks_leaf :=
  first [ apply clicksOnly_call
        | apply clicksOnly_sql
        | apply clicksOnly_console; discriminate
        | apply respects_ret; apply clicksOnly_refl
        | apply respects_mret; apply clicksOnly_refl
        | apply respects_throw; apply clicksOnly_refl ].

Ltac clicks :=
  step_with (@respects_bind B clicksOnly clicksOnly_trans)
            (@respects_tryCatch B clicksOnly clicksOnly_trans)
            (@respects_forOf B clicksOnly clicksOnly_refl clicksOnly_trans)
            clicks_leaf.

Section Self.
Variable self : string -> Z -> M B unit.
Variable url : string.
Variable depth : Z.
Hypothesis clicks_self :
  forall u (w : World B) r w',
    followsClick (trace w) u ->
    self u (depth + 1)%Z w = Some (r, w') ->
    clicksOnly w w'.




End Self.




End Sweep.

End SweepFacts.

(** ** The crawler on the scripted pages *)

Module Examples.
Import JsString Url Crawler Runs Replay MonadFacts CrawlerFacts SweepFacts.
Local Open Scope list_scope.

Lemma anchor_run :
  crawlPage 3 home 0 (start ∅ anchorScript) = Some (Returned tt, anchorDone).
Proof. vm_compute. reflexivity. Qed.

Lemma stale_run :
  crawlPage 3 home 0 (start ∅ staleScript) = Some (Returned tt, staleDone).
Proof. vm_compute. reflexivity. Qed.

Lemma abort_run :
  crawlPage 3 home 0 (start ∅ abortScript) = Some (Returned tt, abortDone).
Proof. vm_compute. reflexivity. Qed.

Lemma home_fresh script : home ∉ visitedUrls (start ∅ script).
Proof. apply not_elem_of_empty. Qed.

Lemma crawlPage_admission_witness :
  crawlPage 3 home 3 (start ∅ anchorScript)
  = Some (Returned tt, start ∅ anchorScript)
  /\ home ∈ visitedUrls (marked home 0 (start ∅ anchorScript))
  /\ home ∈ visitedUrls anchorDone
  /\ exists rest,
       trace anchorDone
       = trace (start ∅ anchorScript)
         ++ Console (LogCrawling home 0)
         :: Driven (Get home)
              (fst (drive unit (Get home) (session (start ∅ anchorScript))))
         :: rest.
Proof.
  destruct (crawlPage_admission 3 home 3 (start ∅ anchorScript)) as [Hrej _].
  destruct (crawlPage_admission 3 home 0 (start ∅ anchorScript)) as [_ Hadm].
  split; [apply Hrej; right; unfold MAX_DEPTH; lia|].
  destruct (Hadm (home_fresh anchorScript) ltac:(unfold MAX_DEPTH; lia))
    as (Hm & _ & _ & _ & Hrun).
  split; [exact Hm|]. exact (Hrun _ _ anchor_run).
Defined.

Lemma crawlPage_terminates_witness :
  (exists w', crawlPage (levels 0) home 0 (start ∅ anchorScript)
              = Some (Returned tt, w'))
  /\ crawlPage 7 home 0 (start ∅ anchorScript)
     = crawlPage (levels 0) home 0 (start ∅ anchorScript)
  /\ visitedUrls (start ∅ anchorScript) ⊆ visitedUrls anchorDone
  /\ crawlPage 0 home 3 (start ∅ anchorScript)
     = Some (Returned tt, start ∅ anchorScript).
Proof.
  destruct (crawlPage_terminates home 0 (start ∅ anchorScript))
    as (H1 & H2 & H3 & _ & _).
  destruct (crawlPage_terminates home 3 (start ∅ anchorScript))
    as (_ & _ & _ & _ & H5).
  split; [exact H1|].
  split; [apply H2; vm_compute; lia|].
  split; [exact (H3 _ _ _ anchor_run)|].
  apply H5. right. unfold MAX_DEPTH. lia.
Defined.


Lemma click_without_navigation_witness :
  afterClick (crawlPage 0) home 0 home home (start ∅ [Done; Done])
  = (call Refresh;; call (Wait (UrlIs home) 5000)) (start ∅ [Done; Done])
  /\ exists pre post,
       trace anchorDone = trace (start ∅ anchorScript) ++ pre ++ post
       /\ Forall (fun e => isInteraction e = false) pre
       /\ (statements pre = []
           \/ exists content,
                statements pre
                = [InsertOrIgnorePageContent home content;
                   InsertOrIgnoreVisitedUrl home])
       /\ Forall (fun e => isPageWrite home e = false) post.
Proof.
  destruct (click_without_navigation (crawlPage 0) 3 home 0 home home
              (start ∅ [Done; Done])) as [Hstay _].
  destruct (click_without_navigation (crawlPage 0) 3 home 0 home home
              (start ∅ anchorScript)) as [_ Hpage].
  split; [exact (proj1 (Hstay (or_introl eq_refl)))|].
  exact (Hpage _ _ anchor_run).
Defined.

Lemma discovered_run :
  listClickableItems discoverStart
  = Some (Returned (fst discovered), snd discovered).
Proof. vm_compute. reflexivity. Qed.

Lemma mixed_run :
  listClickableItems Samples.mixedStart
  = Some (Returned (fst Samples.mixed), snd Samples.mixed).
Proof. vm_compute. reflexivity. Qed.

Lemma listClickableItems_spec_witness :
  (exists els d,
     trace (snd discovered)
     = trace discoverStart
       ++ Driven (FindElements Crawler.clickableXPath) (Returned els) :: d
     /\ discovers els d (fst discovered))
  /\ (exists els d,
        trace (snd Samples.mixed)
        = trace Samples.mixedStart
          ++ Driven (FindElements Crawler.clickableXPath) (Returned els) :: d
        /\ discovers els d (fst Samples.mixed)).
Proof.
  split.
  - exact (listClickableItems_spec _ _ _ discovered_run).
  - exact (listClickableItems_spec _ _ _ mixed_run).
Defined.

Lemma stale_selector_skipped_witness :
  forOf [buttonInfo "One" "one"] (processElement (crawlPage 0) home 0)
        (start ∅ [Fails "no such element"])
  = forOf [] (processElement (crawlPage 0) home 0)
          (skipped home (buttonInfo "One" "one") "no such element" []
                   (start ∅ [Fails "no such element"]))
  /\ session (skipped home (buttonInfo "One" "one") "no such element" []
                      (start ∅ [Fails "no such element"])) = []
  /\ exists d,
       trace (skipped home (buttonInfo "One" "one") "no such element" []
                      (start ∅ [Fails "no such element"]))
       = trace (start ∅ [Fails "no such element"]) ++ d
       /\ In (Console (ErrFinding home "no such element")) d
       /\ Forall (fun ev => isRefresh ev = false) d.
Proof.
  exact (stale_selector_skipped (crawlPage 0) home 0 (buttonInfo "One" "one")
           [] (start ∅ [Fails "no such element"]) "no such element" []
           eq_refl eq_refl).
Defined.

Lemma hidden_run :
  clickElement (crawlPage 0) home 0 1
    (located home (buttonInfo "One" "one") 1
       [Done; Fails "timeout"; Done; Done] (start ∅ hiddenScript))
  = Some (Threw "timeout", hiddenThrew).
Proof. vm_compute. reflexivity. Qed.

Lemma element_failure_contained_witness :
  forOf [buttonInfo "One" "one"] (processElement (crawlPage 0) home 0)
        (start ∅ [Fails "no such element"])
  = forOf [] (processElement (crawlPage 0) home 0)
          (skipped home (buttonInfo "One" "one") "no such element" []
                   (start ∅ [Fails "no such element"]))
  /\ forOf [buttonInfo "One" "one"] (processElement (crawlPage 0) home 0)
           (start ∅ hiddenScript)
     = forOf [] (processElement (crawlPage 0) home 0)
             (recovered home "timeout" [] hiddenThrew).
Proof.
  split.
  - exact (proj1 (element_failure_contained (crawlPage 0) home 0
                    (buttonInfo "One" "one") []
                    (start ∅ [Fails "no such element"]) eq_refl)
             "no such element" [] eq_refl).
  - exact (proj2 (proj2 (element_failure_contained (crawlPage 0) home 0
                           (buttonInfo "One" "one") [] (start ∅ hiddenScript)
                           eq_refl)
                    1 [Done; Fails "timeout"; Done; Done] "timeout" hiddenThrew
                    eq_refl hidden_run)
             [Done] [] eq_refl eq_refl).
Defined.



(** *** Where the claims fail *)

(** C2.  On the page of three buttons the exception of the second
    button's turn is caught, but the wait of the [catch] block throws in
    its turn and ends the visit: three descriptors were found, two were
    stored, the third was never looked up, and the console's last line
    is the page's error.  The first button's failed lookup, before that,
    was followed by no refresh. *)
Lemma element_failure_counterexample :
  crawlPage 3 home 0 (start ∅ abortScript) = Some (Returned tt, abortDone)
  /\ foundCount (trace abortDone) = 3
  /\ storedCount (trace abortDone) = 2
  /\ existsb (fun e => match e with
                       | Driven (FindElement sel) _ => String.eqb sel "#three"
                       | _ => false
                       end) (trace abortDone) = false
  /\ last (trace abortDone) = Some (Console (ErrCrawling home "timeout"))
  /\ staleAlwaysRefreshed (trace abortDone) = false.
Proof. split; [exact abort_run|]. repeat split. Qed.

(** C3.  On the page of two buttons the failed lookup of the first is
    followed by the console line and then at once by the statement and
    the lookup of the second: no refresh in between. *)
Lemma stale_selector_counterexample :
  crawlPage 3 home 0 (start ∅ staleScript) = Some (Returned tt, staleDone)
  /\ staleAlwaysRefreshed (trace staleDone) = false
  /\ exists pre post,
       trace staleDone
       = pre
         ++ [Driven (FindElement "#one") (Threw "no such element");
             Console (ErrFinding home "no such element");
             Sql (nodeInsert home (buttonInfo "Two" "two"));
             Driven (FindElement "#two") (Returned 2)]
         ++ post.
Proof.
  split; [exact stale_run|]. split; [reflexivity|].
  exists (take 15 (trace staleDone)), (drop 19 (trace staleDone)).
  reflexivity.
Qed.



End Examples.


(** ** The seed list *)

Module StartupFacts.
Import JsString JsStringFacts Startup.
Local Open Scope list_scope.

Lemma lineFeed_isSpace c : isLineFeed c = true -> isSpace c = true.
Proof.
  unfold isLineFeed. intros H. apply Ascii.eqb_eq in H. now subst.
Qed.

Lemma splitLines_cons (s : string) : exists l ls, splitLines s = l :: ls.
Proof.
  induction s as [|c s (l & ls & IH)]; simpl; [eauto|].
  destruct (isLineFeed c); [eauto|]. rewrite IH. eauto.
Qed.

Lemma trimStart_nil (s : string) :
  trimStart s = "" <-> allChars isSpace s = true.
Proof.
  induction s as [|c s IH]; simpl; [easy|].
  destruct (isSpace c); simpl; [exact IH | easy].
Qed.

Lemma trimEnd_nil (s : string) :
  trimEnd s = "" <-> allChars isSpace s = true.
Proof.
  induction s as [|c s IH]; simpl; [easy|].
  destruct (trimEnd s) eqn:E.
  - destruct (isSpace c); simpl; [|easy].
    split; [intros _; now apply IH | reflexivity].
  - split; [discriminate|]. intros H. apply andb_true_iff in H as [_ H].
    apply IH in H. discriminate H.
Qed.

Lemma allChars_trimStart p (s : string) :
  allChars p s = true -> allChars p (trimStart s) = true.
Proof.
  induction s as [|c s IH]; simpl; [easy|]. intros H.
  destruct (isSpace c); [apply IH; now apply andb_true_iff in H | exact H].
Qed.

Lemma allChars_trimEnd p (s : string) :
  allChars p s = true -> allChars p (trimEnd s) = true.
Proof.
  induction s as [|c s IH]; simpl; [easy|]. intros H.
  apply andb_true_iff in H as [Hc Hs]. specialize (IH Hs).
  destruct (trimEnd s) eqn:E.
  - destruct (isSpace c); simpl; [reflexivity | now rewrite Hc].
  - simpl in *. now rewrite Hc.
Qed.

Lemma trimEnd_idem (s : string) : trimEnd (trimEnd s) = trimEnd s.
Proof.
  induction s as [|c s IH]; simpl; [reflexivity|].
  destruct (trimEnd s) as [|c' t] eqn:E.
  - destruct (isSpace c) eqn:Hc; simpl; [reflexivity | now rewrite Hc].
  - simpl. simpl in IH. now rewrite IH.
Qed.

(** What [trimStart] leaves starts with no white space, and [trimEnd]
    does not touch the start of such a string. *)
Lemma trimStart_fixed (s : string) :
  match s with
  | EmptyString => True
  | String c _ => isSpace c = false
  end -> trimStart s = s.
Proof. destruct s as [|c s]; simpl; [easy | now intros ->]. Qed.

Lemma trimStart_head (s : string) :
  match trimStart s with
  | EmptyString => True
  | String c _ => isSpace c = false
  end.
Proof.
  induction s as [|c s IH]; simpl; [exact I|].
  destruct (isSpace c) eqn:Hc; [exact IH | exact Hc].
Qed.

Lemma trimEnd_head (s : string) :
  match s with
  | EmptyString => True
  | String c _ => isSpace c = false
  end ->
  match trimEnd s with
  | EmptyString => True
  | String c _ => isSpace c = false
  end.
Proof.
  destruct s as [|c s]; simpl; [easy|]. intros Hc.
  destruct (trimEnd s); [now rewrite Hc | exact Hc].
Qed.

Lemma trim_nil (s : string) : trim s = "" <-> allChars isSpace s = true.
Proof.
  unfold trim. rewrite trimEnd_nil. split.
  - intros H. apply trimStart_nil. pose proof (trimStart_head s) as Hh.
    destruct (trimStart s); [reflexivity|]. simpl in H. rewrite Hh in H.
    discriminate H.
  - apply allChars_trimStart.
Qed.

(** [trim] does nothing to a string it has trimmed. *)
Lemma trim_idem (s : string) : trim (trim s) = trim s.
Proof.
  unfold trim.
  rewrite (trimStart_fixed (trimEnd (trimStart s))).
  - apply trimEnd_idem.
  - apply trimEnd_head, trimStart_head.
Qed.

Lemma splitLines_noLineFeed (s : string) :
  Forall (fun l => allChars (fun c => negb (isLineFeed c)) l = true)
         (splitLines s).
Proof.
  induction s as [|c s IH]; simpl; [now repeat constructor|].
  destruct (isLineFeed c) eqn:Hc; [now constructor|].
  destruct (splitLines s) as [|l ls]; [now repeat constructor; simpl; rewrite Hc|].
  inversion IH; subst. constructor; [simpl; now rewrite Hc | assumption].
Qed.

Lemma splitLines_allSpace (s : string) :
  allChars isSpace s = forallb (allChars isSpace) (splitLines s).
Proof.
  induction s as [|c s IH]; simpl; [reflexivity|].
  destruct (isLineFeed c) eqn:Hc.
  - rewrite (lineFeed_isSpace _ Hc). simpl. exact IH.
  - destruct (splitLines_cons s) as (l & ls & E). rewrite E in *.
    simpl in *. rewrite IH. now rewrite andb_assoc.
Qed.

(** X1.  Every seed that [readSeeds] returns is clean: it is not empty,
    [trim] leaves it as it is, and it holds no line feed. *)
Theorem readSeeds_clean (content : string) :
  Forall cleanSeed (readSeeds content).
Proof.
  unfold readSeeds. apply Forall_forall. intros s Hin.
  apply list_elem_of_In, filter_In in Hin as [Hin Ht].
  apply in_map_iff in Hin as (l & <- & Hl).
  repeat split.
  - intros E. now rewrite E in Ht.
  - apply trim_idem.
  - unfold trim. apply allChars_trimEnd, allChars_trimStart.
    pose proof (splitLines_noLineFeed content) as F.
    rewrite Forall_forall in F. now apply F, list_elem_of_In.
Qed.

Lemma splitLines_single (x : string) :
  allChars (fun c => negb (isLineFeed c)) x = true -> splitLines x = [x].
Proof.
  induction x as [|c x IH]; simpl; [reflexivity|]. intros H.
  apply andb_true_iff in H as [Hc Hx]. apply negb_true_iff in Hc.
  now rewrite Hc, (IH Hx).
Qed.

Lemma splitLines_app (x rest : string) :
  allChars (fun c => negb (isLineFeed c)) x = true ->
  splitLines (x +:+ String lineFeed rest) = x :: splitLines rest.
Proof.
  induction x as [|c x IH]; intros H.
  - rewrite append_nil_l. reflexivity.
  - simpl in H. apply andb_true_iff in H as [Hc Hx]. apply negb_true_iff in Hc.
    rewrite append_cons. simpl. now rewrite Hc, (IH Hx).
Qed.

Lemma joinLines_cons (x y : string) (l : list string) :
  joinLines (x :: y :: l) = x +:+ String lineFeed (joinLines (y :: l)).
Proof. reflexivity. Qed.

Lemma splitLines_joinLines (x : string) (l : list string) :
  Forall (fun s => allChars (fun c => negb (isLineFeed c)) s = true) (x :: l) ->
  splitLines (joinLines (x :: l)) = x :: l.
Proof.
  revert x. induction l as [|y l IH]; intros x H; inversion H; subst.
  - now apply splitLines_single.
  - rewrite joinLines_cons, splitLines_app by assumption. now rewrite IH.
Qed.

(** X2.  Clean seeds written one per line are read back as they are:
    seeds that are not empty, that [trim] leaves as they are (no white
    space of ECMAScript, NO-BREAK SPACE included, at either end) and that
    hold no line feed. *)
Theorem readSeeds_joinLines (seeds : list string) :
  Forall cleanSeed seeds -> readSeeds (joinLines seeds) = seeds.
Proof.
  intros H. unfold readSeeds. destruct seeds as [|x l]; [reflexivity|].
  rewrite splitLines_joinLines.
  - induction H as [|s ss (Hne & Ht & _) _ IH]; [reflexivity|].
    simpl. rewrite Ht. destruct s; [contradiction|]. simpl. now rewrite IH.
  - eapply Forall_impl; [exact H|]. now intros s (_ & _ & Hs).
Qed.

Lemma readSeeds_nil (content : string) :
  readSeeds content = [] <-> allChars isSpace content = true.
Proof.
  rewrite splitLines_allSpace. unfold readSeeds.
  induction (splitLines content) as [|l ls IH]; simpl; [easy|].
  rewrite andb_true_iff, <- IH, <- trim_nil.
  destruct (trim l); simpl; split; easy.
Qed.

Lemma checkSeeds_run (content : string) :
  checkSeeds content
  = if allChars isSpace content
    then Exit 1 ["Error: No seed URLs specified in urls.txt."]
    else Crawl (readSeeds content).
Proof.
  unfold checkSeeds. cbv zeta.
  destruct (allChars isSpace content) eqn:E.
  - apply readSeeds_nil in E. now rewrite E.
  - destruct (readSeeds content) eqn:Er; [|reflexivity].
    apply readSeeds_nil in Er. congruence.
Qed.

(** X3.  The start of [crawler.js] calls [process.exit], always with
    code 1, exactly in three cases: [CHROMEDRIVER_PATH] is undefined or
    empty; or, the options and the service made, the driver cannot be
    built; or, the driver built, [urls.txt] holds nothing but white
    space.  When making the options and the service throws, or reading
    [urls.txt] does after the driver was built, the exception leaves the
    [async] function.  In every other case the crawl starts, on the
    seeds read from the file, of which there is at least one. *)
Theorem startUp_exit (s : Setting) :
  ((exists code errors, startUp s = Exit code errors)
   <-> pathGiven s = false
       \/ (prepared s = Crawler.Returned tt
           /\ ((exists e, built s = Crawler.Threw e)
               \/ (built s = Crawler.Returned tt
                   /\ exists content,
                        urlsTxt s = Crawler.Returned content
                        /\ allChars isSpace content = true))))
  /\ (forall code errors, startUp s = Exit code errors -> code = 1%Z)
  /\ (forall e,
        startUp s = Rejected e
        <-> pathGiven s = true
            /\ (prepared s = Crawler.Threw e
                \/ (prepared s = Crawler.Returned tt
                    /\ built s = Crawler.Returned tt
                    /\ urlsTxt s = Crawler.Threw e)))
  /\ (forall seedUrls,
        startUp s = Crawl seedUrls
        <-> pathGiven s = true
            /\ prepared s = Crawler.Returned tt
            /\ built s = Crawler.Returned tt
            /\ exists content,
                 urlsTxt s = Crawler.Returned content
                 /\ allChars isSpace content = false
                 /\ seedUrls = readSeeds content)
  /\ (forall seedUrls, startUp s = Crawl seedUrls -> seedUrls <> []).
Proof.
  unfold startUp.
  destruct (pathGiven s) eqn:Hp; simpl;
    [destruct (prepared s) as [[]|ep] eqn:Hq;
     [destruct (built s) as [[]|eb] eqn:Hb;
      [destruct (urlsTxt s) as [content|er] eqn:Hu;
       [rewrite checkSeeds_run;
        pose proof (readSeeds_nil content) as Hnil;
        destruct (allChars isSpace content) eqn:Hs|]|]|]|];
    (split; [|split; [|split; [|split]]]).
  all: try (intros code errors H; now inversion H).
  all: try (intros seedUrls H; discriminate H).
  all: try (intros seedUrls H Hn; inversion H as [E]; rewrite Hn in E;
            apply (proj1 Hnil) in E; discriminate E).
  all: try (intros x; split; [intros H; discriminate H|]).
  all: try (intros e; split;
            [intros H; inversion H; subst; auto 6
            |intros (_ & [H | (H0 & _ & H)]); try discriminate;
             now inversion H]).
  all: try (intros seedUrls; split;
            [intros H; inversion H; subst; repeat split; eauto
            |intros (_ & _ & _ & c & H3 & _ & ->); now inversion H3]).
  all: try (split; [intros (code & errors & H); discriminate H|]).
  all: try (split; [intros _|intros _; eauto]).
  all: try (intros (H1 & [H | (H0 & H2 & H3)]); discriminate).
  all: try (intros (H1 & H0 & H2 & c & H3 & H4 & H5); discriminate).
  all: try (intros (H1 & H0 & H2 & c & H3 & H4 & H5); inversion H3; subst;
            congruence).
  all: try (intros [H | (H0 & [[e H] | (H & c & H3 & Hc)])];
            try discriminate; try (inversion H3; subst; congruence)).
  all: eauto 8.
Qed.

End StartupFacts.


(** ** What the run leaves behind *)

Module LedgerFacts.
Import JsString Url Crawler Runs Ledger MonadFacts CrawlerFacts.
Local Open Scope list_scope.

(** *** A preorder kept by every step but the opening line *)

Section Lines.
Context {B : Type} {driver : Driver B} {parser : Parser}.
Variable R : World B -> World B -> Prop.
Hypothesis R_refl : forall w, R w w.
Hypothesis R_trans : forall w1 w2 w3, R w1 w2 -> R w2 w3 -> R w1 w3.

Hypothesis lines_call : forall T (c : Cmd T), respects R (call c).
Hypothesis lines_console :
  forall l, visitLine l = true -> respects R (console l).
Hypothesis lines_sql : forall s, respects R (dbRun s).

Ltac lines_leaf :=
  first [ apply lines_call
        | apply lines_console; reflexivity
        | apply respects_ret; assumption
        | apply respects_mret; assumption
        | apply lines_sql ].

Ltac lines :=
  step_with (@respects_bind B R R_trans) (@respects_tryCatch B R R_trans)
            (@respects_forOf B R R_refl R_trans) lines_leaf.

Lemma lines_describeElement el : respects R (describeElement el).
Proof.
  unfold describeElement. lines. unfold selectorScript.
  destruct (Dom.generateCssSelector _);
    [now apply respects_ret | now apply respects_throw].
Qed.

Lemma lines_collectInfo els : forall acc, respects R (collectInfo els acc).
Proof.
  induction els as [|el els IH]; intros acc; simpl; lines;
    first [apply lines_describeElement | apply IH].
Qed.

Lemma lines_listClickableItems : respects R listClickableItems.
Proof. unfold listClickableItems. lines. apply lines_collectInfo. Qed.

Lemma lines_relocate url sel : respects R (relocate url sel).
Proof. unfold relocate. lines. Qed.

Lemma lines_recoverPage url e : respects R (recoverPage url e).
Proof. unfold recoverPage. lines. Qed.

Section Self.
Variable self : string -> Z -> M B unit.
Variable url : string.
Variable depth : Z.
Hypothesis lines_self :
  forall u, isSameDomain url u = true -> respects R (self u (depth + 1)%Z).

Lemma lines_afterClick currentUrl newUrl :
  respects R (afterClick self url depth currentUrl newUrl).
Proof.
  unfold afterClick. destruct (isSameDomain url newUrl) eqn:E;
    destruct (negb (String.eqb newUrl currentUrl)); simpl; lines.
  now apply lines_self.
Qed.

Lemma lines_clickElement el : respects R (clickElement self url depth el).
Proof. unfold clickElement. lines. apply lines_afterClick. Qed.

Lemma lines_processElement info :
  respects R (processElement self url depth info).
Proof.
  unfold processElement. lines.
  - apply lines_relocate.
  - apply lines_clickElement.
  - apply lines_recoverPage.
Qed.

Lemma lines_readPage : respects R (readPage self url depth).
Proof.
  unfold readPage. lines.
  - apply lines_listClickableItems.
  - apply lines_processElement.
Qed.

Lemma lines_guardedVisit :
  respects R (tryCatch (visitPage self url depth)
                       (fun e => console (ErrCrawling url e))).
Proof. unfold visitPage. lines. apply lines_readPage. Qed.
End Self.

(** The URLs and depths at which the opening line keeps [R]. *)
Variable ok : string -> Z -> Prop.
Hypothesis ok_succ :
  forall p u d, ok p d -> isSameDomain p u = true -> ok u (d + 1)%Z.
Hypothesis lines_mark :
  forall url depth w,
    ok url depth -> url ∉ visitedUrls w -> (depth <= MAX_DEPTH)%Z ->
    R w (marked url depth w).

Lemma lines_crawlPageBody self url depth :
  ok url depth ->
  (forall u, isSameDomain url u = true -> respects R (self u (depth + 1)%Z)) ->
  respects R (crawlPageBody self url depth).
Proof.
  intros Hok Hself w r w' H.
  destruct (decide (url ∈ visitedUrls w)) as [Hv|Hv];
    [|destruct (Z.lt_ge_cases MAX_DEPTH depth) as [Hd|Hd]].
  1,2: rewrite crawlPageBody_rejected in H by auto; inversion H; apply R_refl.
  rewrite (crawlPageBody_admitted _ _ _ _ Hv Hd) in H.
  apply R_trans with (marked url depth w); [now apply lines_mark|].
  exact (lines_guardedVisit self url depth Hself _ _ _ H).
Qed.

Lemma lines_crawlPage fuel : forall url depth,
  ok url depth -> respects R (crawlPage fuel url depth).
Proof.
  induction fuel as [|fuel IH]; intros url depth Hok; simpl;
    apply lines_crawlPageBody; eauto.
  intros u _. apply respects_diverge.
Qed.

Lemma lines_crawlSeeds seedUrls :
  Forall (fun u => ok u 0%Z) seedUrls -> respects R (crawlSeeds seedUrls).
Proof.
  intros Hok. unfold crawlSeeds.
  induction Hok as [|u l Hu _ IH]; [now apply respects_ret|].
  rewrite forOf_cons. apply respects_bind; auto.
  now apply lines_crawlPage.
Qed.

End Lines.

(** *** The depth of the crawled pages *)

Section Depth.
Context {B : Type} {driver : Driver B} {parser : Parser}.

Lemma withinDepth_visitLine lo l :
  visitLine l = true -> withinDepth lo (Console l).
Proof. destruct l; simpl; intros H; try exact I; discriminate H. Qed.

Lemma withinDepth_crawlPage lo fuel url depth :
  (lo <= depth)%Z ->
  respects (emits (withinDepth lo)) (crawlPage (B := B) fuel url depth).
Proof.
  intros Hlo.
  apply (lines_crawlPage (emits (withinDepth lo)) (emits_refl _) (emits_trans _))
    with (ok := fun _ d => (lo <= d)%Z); auto.
  - intros T c. now apply emits_call.
  - intros l Hl. apply emits_console. now apply withinDepth_visitLine.
  - intros s. now apply emits_dbRun.
  - intros _ _ d Hd _. lia.
  - intros u d w Hd _ Hmax. apply emits_one with (Console (LogCrawling u d));
      [reflexivity | simpl; lia].
Qed.

(** X4.  Whatever page a call of [crawlPage] at [depth] crawls, itself or
    through its nested calls, it crawls at a depth from [depth] to
    [MAX_DEPTH]: the [Crawling] lines it prints carry no other depth. *)
Theorem crawl_depth_bound (fuel : nat) (url : string) (depth : Z)
    (w : World B) (r : Outcome unit) (w' : World B) :
  crawlPage fuel url depth w = Some (r, w') ->
  exists d,
    trace w' = trace w ++ d
    /\ forall u k, In (Console (LogCrawling u k)) d ->
                   (depth <= k <= MAX_DEPTH)%Z.
Proof.
  intros H.
  destruct (withinDepth_crawlPage depth fuel url depth (Z.le_refl _) _ _ _ H)
    as (d & E & F).
  exists d. split; [exact E|]. intros u k Hin.
  rewrite Forall_forall in F. exact (F _ (proj2 (list_elem_of_In _ _) Hin)).
Qed.

End Depth.

(** *** One crawl per URL *)

Section Once.
Context {B : Type} {driver : Driver B} {parser : Parser}.

Lemma crawlCount_app u (a b : list Event) :
  crawlCount u (a ++ b) = crawlCount u a + crawlCount u b.
Proof. unfold crawlCount. now rewrite List.filter_app, length_app. Qed.

Lemma onceOn_refl u (w : World B) : onceOn u w w.
Proof.
  split; [apply grows_refl|]. exists []. split; [now rewrite app_nil_r|].
  unfold newly. now repeat case_bool_decide.
Qed.

Lemma onceOn_trans u (w1 w2 w3 : World B) :
  onceOn u w1 w2 -> onceOn u w2 w3 -> onceOn u w1 w3.
Proof.
  intros (G1 & d1 & E1 & C1) (G2 & d2 & E2 & C2).
  split; [now apply grows_trans with w2|].
  exists (d1 ++ d2). split; [now rewrite E2, E1, app_assoc|].
  rewrite crawlCount_app, C1, C2. unfold newly, grows in *.
  repeat case_bool_decide; try reflexivity; set_solver.
Qed.

Lemma onceOn_one u (w w' : World B) e :
  visitedUrls w' = visitedUrls w ->
  trace w' = trace w ++ [e] ->
  isCrawlingOf u e = false ->
  onceOn u w w'.
Proof.
  intros Hv Ht He. split; [unfold grows; now rewrite Hv|].
  exists [e]. split; [exact Ht|].
  unfold crawlCount, newly. simpl. rewrite He, Hv.
  now repeat case_bool_decide.
Qed.

Lemma onceOn_mark u url depth (w : World B) :
  url ∉ visitedUrls w -> onceOn u w (marked url depth w).
Proof.
  intros Hv. split; [unfold grows; simpl; set_solver|].
  exists [Console (LogCrawling url depth)]. split; [reflexivity|].
  unfold crawlCount, newly. simpl.
  destruct (String.eqb_spec url u) as [->|Hne]; simpl;
    repeat case_bool_decide; try reflexivity; set_solver.
Qed.

Lemma onceOn_visitLine u l :
  visitLine l = true -> isCrawlingOf u (Console l) = false.
Proof. destruct l; simpl; intros H; try reflexivity; discriminate H. Qed.

Lemma onceOn_crawlPage u fuel url depth :
  respects (onceOn u) (crawlPage (B := B) fuel url depth).
Proof.
  apply (lines_crawlPage (onceOn u) (onceOn_refl u) (onceOn_trans u))
    with (ok := fun _ _ => True); auto.
  - intros T c w r w' H. invert_run. now apply onceOn_one with (Driven c r).
  - intros l Hl w r w' H. invert_run. apply onceOn_one with (Console l); auto.
    now apply onceOn_visitLine.
  - intros s w r w' H. invert_run. now apply onceOn_one with (Sql s).
  - intros u0 d w _ Hv _. now apply onceOn_mark.
Qed.

Lemma onceOn_crawlSeeds u seedUrls :
  respects (onceOn u) (crawlSeeds (B := B) seedUrls).
Proof.
  unfold crawlSeeds.
  apply respects_forOf; [apply onceOn_refl | apply onceOn_trans|].
  intros url. apply onceOn_crawlPage.
Qed.

(** X5.  In one run of the main loop over the seeds, no URL is crawled
    twice, however often it is met as a seed or after a click: the run
    prints exactly one [Crawling] line for each URL it adds to the
    VisitedSet, and none for a URL that was in it or stays out of it. *)
Theorem crawled_once (seedUrls : list string) (u : string)
    (w : World B) (r : Outcome unit) (w' : World B) :
  crawlSeeds seedUrls w = Some (r, w') ->
  exists d,
    trace w' = trace w ++ d
    /\ crawlCount u d <= 1
    /\ (crawlCount u d = 1 <-> (u ∉ visitedUrls w) /\ (u ∈ visitedUrls w')).
Proof.
  intros H. destruct (onceOn_crawlSeeds u seedUrls _ _ _ H) as (G & d & E & C).
  exists d. split; [exact E|]. rewrite C. unfold newly, grows in *.
  repeat case_bool_decide; (split; [lia|]); split; intros; try lia;
    try tauto; set_solver.
Qed.

(** The main loop never throws, whatever the browser does. *)
Lemma crawlSeeds_returns seedUrls : forall (w : World B) r w',
  crawlSeeds seedUrls w = Some (r, w') -> r = Returned tt.
Proof.
  unfold crawlSeeds. induction seedUrls as [|s l IH]; intros w r w' H.
  - now inversion H.
  - rewrite forOf_cons in H.
    apply bind_inv in H as [(a & w1 & H1 & H) | (e & H1 & _)].
    + now apply IH in H.
    + now apply crawlPage_returns in H1.
Qed.

Lemma crawlSeeds_grows seedUrls : respects grows (crawlSeeds (B := B) seedUrls).
Proof.
  unfold crawlSeeds. apply respects_forOf; [apply grows_refl | apply grows_trans|].
  intros url. apply crawlPage_grows.
Qed.

Lemma crawlSeeds_marks seedUrls : forall (w : World B) r w',
  crawlSeeds seedUrls w = Some (r, w') ->
  forall s, In s seedUrls -> s ∈ visitedUrls w'.
Proof.
  induction seedUrls as [|s l IH]; intros w r w' H x Hin; [destruct Hin|].
  unfold crawlSeeds in H. rewrite forOf_cons in H.
  apply bind_inv in H as [(a & w1 & H1 & H) | (e & H1 & _)];
    [|now apply crawlPage_returns in H1].
  destruct Hin as [<-|Hin].
  - apply crawlPage_marks in H1; [|unfold MAX_DEPTH; lia].
    apply (crawlSeeds_grows l) in H. unfold grows in H. set_solver.
  - exact (IH _ _ _ H x Hin).
Qed.

(** X6.  The main loop over the seeds always comes back, without an
    exception, and when it does every seed is in the VisitedSet: no
    failure on one seed keeps the loop from the seeds after it. *)
Theorem crawlSeeds_covers (seedUrls : list string) (w : World B) :
  exists w',
    crawlSeeds seedUrls w = Some (Returned tt, w')
    /\ visitedUrls w ⊆ visitedUrls w'
    /\ forall s, In s seedUrls -> s ∈ visitedUrls w'.
Proof.
  destruct (crawlSeeds_total seedUrls w) as [[r w'] H].
  pose proof (crawlSeeds_returns _ _ _ _ H) as ->.
  exists w'. split; [exact H|]. split.
  - exact (crawlSeeds_grows _ _ _ _ H).
  - exact (crawlSeeds_marks _ _ _ _ H).
Qed.

End Once.

(** *** The store only grows *)

Section Appended.
Context {B : Type} {driver : Driver B} {parser : Parser}.

Lemma appended_refl (w : World B) : appended w w.
Proof. now repeat split. Qed.

Lemma appended_trans (w1 w2 w3 : World B) :
  appended w1 w2 -> appended w2 w3 -> appended w1 w3.
Proof.
  intros (A1 & A2 & A3 & A4) (B1 & B2 & B3 & B4).
  repeat split; etrans; eassumption.
Qed.

Lemma execute_appends s d :
  visited_urls d `prefix_of` visited_urls (execute s d)
  /\ page_contents d `prefix_of` page_contents (execute s d)
  /\ clickable_nodes d `prefix_of` clickable_nodes (execute s d)
  /\ extracted_info d `prefix_of` extracted_info (execute s d).
Proof.
  destruct s as [url c | url | p t x h o a | u t c]; simpl.
  - destruct (hasPage url (page_contents d)); simpl; repeat split;
      try reflexivity; now apply prefix_app_r.
  - destruct (hasVisitedRow url (visited_urls d)); simpl; repeat split;
      try reflexivity; now apply prefix_app_r.
  - destruct (hasNode p a (clickable_nodes d)); simpl; repeat split;
      try reflexivity; now apply prefix_app_r.
  - repeat split; try reflexivity; now apply prefix_app_r.
Qed.

Lemma appended_crawlPage fuel url depth :
  respects appended (crawlPage (B := B) fuel url depth).
Proof.
  apply (keeps_crawlPage appended appended_refl appended_trans
           anyCmd anySql anyUrl); auto using okPage_any.
  - intros T c _ w r w' H. invert_run. now repeat split.
  - intros l w r w' H. invert_run. now repeat split.
  - intros u _ w r w' H. invert_run. now repeat split.
  - intros s _ w r w' H. invert_run. apply execute_appends.
  - now intros.
Qed.

(** X7.  The crawl never deletes or changes a stored row: when the main
    loop is over, each table begins with the rows it had before, in their
    order. *)
Theorem store_only_grows (seedUrls : list string) (w : World B)
    (r : Outcome unit) (w' : World B) :
  crawlSeeds seedUrls w = Some (r, w') ->
  visited_urls (db w) `prefix_of` visited_urls (db w')
  /\ page_contents (db w) `prefix_of` page_contents (db w')
  /\ clickable_nodes (db w) `prefix_of` clickable_nodes (db w').
Proof.
  intros H.
  assert (respects appended (crawlSeeds (B := B) seedUrls)) as Hr.
  { unfold crawlSeeds.
    apply respects_forOf; [apply appended_refl | apply appended_trans|].
    intros u. apply appended_crawlPage. }
  destruct (Hr _ _ _ H) as (A1 & A2 & A3 & _). auto.
Qed.

End Appended.

(** *** The crawl stays on the site of its seeds *)

Section Site.
Context {B : Type} {driver : Driver B} {parser : Parser}.

Lemma crawlsOnSite_visitLine roots l :
  visitLine l = true -> crawlsOnSite roots (Console l).
Proof. destruct l; simpl; intros H; try exact I; discriminate H. Qed.

Lemma onSite_crawlSeeds seedUrls :
  respects (emits (crawlsOnSite seedUrls)) (crawlSeeds (B := B) seedUrls).
Proof.
  apply (lines_crawlSeeds (emits (crawlsOnSite seedUrls))
           (emits_refl _) (emits_trans _))
    with (ok := fun u _ => onSite seedUrls u).
  - intros T c. now apply emits_call.
  - intros l Hl. apply emits_console. now apply crawlsOnSite_visitLine.
  - intros s. now apply emits_dbRun.
  - intros p u _ Hp Hs. now apply site_step with p.
  - intros u d w Hu _ _.
    now apply emits_one with (Console (LogCrawling u d)).
  - apply Forall_forall. intros u Hu. apply site_root.
    now apply list_elem_of_In.
Qed.

(** X12.  The crawl never leaves the sites of its seeds: every URL it
    crawls is a seed or was reached from a seed through crawled pages,
    each accepted by [isSameDomain] against the page the click was made
    on. *)
Theorem crawl_stays_on_site (seedUrls : list string) (w : World B)
    (r : Outcome unit) (w' : World B) :
  crawlSeeds seedUrls w = Some (r, w') ->
  exists d,
    trace w' = trace w ++ d
    /\ forall u k, In (Console (LogCrawling u k)) d -> onSite seedUrls u.
Proof.
  intros H. destruct (onSite_crawlSeeds seedUrls _ _ _ H) as (d & E & F).
  exists d. split; [exact E|]. intros u k Hin.
  rewrite Forall_forall in F. exact (F _ (proj2 (list_elem_of_In _ _) Hin)).
Qed.

End Site.

(** *** What is stored is about admitted pages *)

Section Stored.
Context {B : Type} {driver : Driver B} {parser : Parser}.

Lemma aboutNew_mono (b1 b2 a1 a2 : gset string) e :
  b2 ⊆ b1 -> a1 ⊆ a2 -> aboutNew b1 a1 e -> aboutNew b2 a2 e.
Proof. intros Hb Ha H s E. destruct (H s E). set_solver. Qed.

Lemma aboutNew_other (b a : gset string) e : isSql e = false -> aboutNew b a e.
Proof. intros H s ->. discriminate H. Qed.

Lemma storesFresh_refl (w : World B) : storesFresh w w.
Proof.
  split; [apply grows_refl|]. exists []. now rewrite app_nil_r.
Qed.

Lemma storesFresh_trans (w1 w2 w3 : World B) :
  storesFresh w1 w2 -> storesFresh w2 w3 -> storesFresh w1 w3.
Proof.
  intros (G1 & d1 & E1 & F1) (G2 & d2 & E2 & F2).
  split; [now apply grows_trans with w2|].
  exists (d1 ++ d2). split; [now rewrite E2, E1, app_assoc|].
  apply Forall_app. split; eapply Forall_impl; eauto; intros e;
    apply aboutNew_mono; unfold grows in *; set_solver.
Qed.

Section Visit.
Variable base : gset string.
Variable url : string.
Hypothesis fresh : url ∉ base.

Lemma storesNew_refl (w : World B) : storesNew base url w w.
Proof.
  intros _ _. split; [apply grows_refl|]. exists []. now rewrite app_nil_r.
Qed.

Lemma storesNew_trans (w1 w2 w3 : World B) :
  storesNew base url w1 w2 -> storesNew base url w2 w3 ->
  storesNew base url w1 w3.
Proof.
  intros H1 H2 Hb Hu. destruct (H1 Hb Hu) as (G1 & d1 & E1 & F1).
  unfold grows in G1.
  destruct H2 as (G2 & d2 & E2 & F2); [set_solver | set_solver |].
  split; [now apply grows_trans with w2|].
  exists (d1 ++ d2). split; [now rewrite E2, E1, app_assoc|].
  apply Forall_app. split; [|exact F2].
  eapply Forall_impl; [exact F1|]. intros e.
  apply aboutNew_mono; [reflexivity | exact G2].
Qed.

Lemma storesNew_one (w w' : World B) e :
  visitedUrls w' = visitedUrls w ->
  trace w' = trace w ++ [e] ->
  (url ∈ visitedUrls w -> aboutNew base (visitedUrls w) e) ->
  storesNew base url w w'.
Proof.
  intros Hv Ht He _ Hu. split; [unfold grows; now rewrite Hv|].
  exists [e]. split; [exact Ht|]. rewrite Hv.
  constructor; [auto | constructor].
Qed.

Lemma storesNew_admitted (w w' : World B) :
  storesFresh w w' -> storesNew base url w w'.
Proof.
  intros (G & d & E & F) Hb _. split; [exact G|]. exists d.
  split; [exact E|]. eapply Forall_impl; [exact F|]. intros e.
  now apply aboutNew_mono.
Qed.

Lemma storesNew_guardedVisit self depth :
  (forall u, respects storesFresh (self u (depth + 1)%Z)) ->
  respects (storesNew base url)
    (tryCatch (visitPage self url depth)
              (fun e => console (ErrCrawling url e))).
Proof.
  intros Hself.
  apply (keeps_guardedVisit (storesNew base url) storesNew_refl storesNew_trans
           anyCmd (fun s => pageOf s = url) anyUrl).
  - intros T c _ w r w' H. invert_run.
    apply storesNew_one with (Driven c r); auto.
    intros _. now apply aboutNew_other.
  - intros l w r w' H. invert_run.
    apply storesNew_one with (Console l); auto.
    intros _. now apply aboutNew_other.
  - intros s Hs w r w' H. apply dbRun_inv in H as [_ ->].
    apply storesNew_one with (Sql s); auto.
    intros Hu s' E. inversion E; subst s'. now rewrite Hs.
  - now intros.
  - intros u w r w' H. apply storesNew_admitted. exact (Hself u _ _ _ H).
  - now repeat split.
Qed.
End Visit.

Lemma storesFresh_crawlPageBody self url depth :
  (forall u, respects storesFresh (self u (depth + 1)%Z)) ->
  respects storesFresh (crawlPageBody self url depth).
Proof.
  intros Hself w r w' H.
  destruct (decide (url ∈ visitedUrls w)) as [Hv|Hv];
    [|destruct (Z.lt_ge_cases MAX_DEPTH depth) as [Hd|Hd]].
  1,2: rewrite crawlPageBody_rejected in H by auto; inversion H;
    apply storesFresh_refl.
  rewrite (crawlPageBody_admitted _ _ _ _ Hv Hd) in H.
  destruct (storesNew_guardedVisit (visitedUrls w) url Hv self depth Hself
              _ _ _ H) as (G & d & E & F); simpl; [set_solver | set_solver |].
  unfold grows in G. simpl in G, E. split; [unfold grows; set_solver|].
  exists (Console (LogCrawling url depth) :: d).
  split; [now rewrite E, <- app_assoc|].
  constructor; [now apply aboutNew_other | exact F].
Qed.

Lemma storesFresh_crawlPage fuel : forall url depth,
  respects storesFresh (crawlPage (B := B) fuel url depth).
Proof.
  induction fuel as [|fuel IH]; intros url depth; simpl;
    apply storesFresh_crawlPageBody; auto.
  intros u. apply respects_diverge.
Qed.

(** *** The descriptors of a page are stored in order *)

Lemma statementsOf_app url (a b : list Event) :
  statementsOf url (a ++ b) = statementsOf url a ++ statementsOf url b.
Proof. unfold statementsOf. now rewrite statements_app, filter_app. Qed.

Lemma statementsOf_fresh url (V V' : gset string) (d : list Event) :
  Forall (aboutNew V V') d -> url ∈ V -> statementsOf url d = [].
Proof.
  intros F Hu. induction F as [|e d He _ IH]; [reflexivity|].
  change (e :: d) with ([e] ++ d). rewrite statementsOf_app, IH, app_nil_r.
  destruct e as [T c r | l | s]; try reflexivity.
  unfold statementsOf. simpl. rewrite filter_cons.
  destruct (decide (pageOf s = url)) as [Hs|Hs]; [|reflexivity].
  destruct (He s eq_refl) as [_ Hn]. rewrite Hs in Hn. now contradiction Hn.
Qed.

Lemma storesFresh_one (w w' : World B) e :
  visitedUrls w' = visitedUrls w ->
  trace w' = trace w ++ [e] ->
  isSql e = false ->
  storesFresh w w'.
Proof.
  intros Hv Ht He. split; [unfold grows; now rewrite Hv|].
  exists [e]. split; [exact Ht|].
  constructor; [now apply aboutNew_other | constructor].
Qed.

Lemma storesFresh_call {T} (c : Cmd T) : respects storesFresh (call c).
Proof.
  intros w r w' H. invert_run. now apply storesFresh_one with (Driven c r).
Qed.

Lemma storesFresh_console l : respects (B := B) storesFresh (console l).
Proof.
  intros w r w' H. invert_run. now apply storesFresh_one with (Console l).
Qed.

(** One turn of the loop runs one statement about its page: the insert
    of the descriptor, before anything else. *)
Lemma processElement_stores self url depth info (w : World B) r w' :
  (forall u, respects storesFresh (self u (depth + 1)%Z)) ->
  url ∈ visitedUrls w ->
  processElement self url depth info w = Some (r, w') ->
  grows w w'
  /\ exists d, trace w' = trace w ++ d
               /\ statementsOf url d = [nodeInsert url info].
Proof.
  intros Hself Hu H. unfold processElement in H.
  apply bind_inv in H as [([] & w1 & H1 & H) | (e & H1 & _)];
    [|inversion H1].
  apply dbRun_inv in H1 as [_ ->]. cbv zeta in H.
  assert (forall T (c : Cmd T), anyCmd T c -> respects storesFresh (call c))
    as Hcall by (intros; apply storesFresh_call).
  assert (forall T (c : Cmd T), crawlerCmd c = true -> anyCmd T c)
    as Hany by now intros.
  match type of H with
  | ?c ?w0 = _ =>
      assert (respects storesFresh c) as Hrest;
      [|apply Hrest in H as (G & d & E & F)]
  end.
  { destruct (truthy (href info) && negb (isSameDomain url (href info)));
      [apply respects_mret, storesFresh_refl|].
    apply respects_bind; [apply storesFresh_trans| |intros [el|]].
    - apply (keeps_relocate storesFresh storesFresh_refl storesFresh_trans
               anyCmd Hcall storesFresh_console Hany).
    - apply respects_tryCatch; [apply storesFresh_trans| |intros e].
      + apply (keeps_clickElement storesFresh storesFresh_trans anyCmd Hcall
                 Hany self depth Hself).
      + apply (keeps_recoverPage storesFresh storesFresh_trans anyCmd Hcall
                 storesFresh_console Hany).
    - apply respects_mret, storesFresh_refl. }
  simpl in G, E, F. split; [exact G|].
  exists (Sql (nodeInsert url info) :: d).
  split; [now rewrite E, <- app_assoc|].
  change (Sql (nodeInsert url info) :: d)
    with ([Sql (nodeInsert url info)] ++ d).
  rewrite statementsOf_app, (statementsOf_fresh url _ _ d F Hu), app_nil_r.
  unfold statementsOf. simpl. rewrite filter_cons.
  rewrite decide_True by reflexivity. reflexivity.
Qed.

(** X19.  The loop over the descriptors of a page stores them in the
    order of discovery, one statement each, and runs no other statement
    about that page: when the loop ends normally all descriptors have
    been stored, and when an exception ends it, those up to the one that
    was being processed. *)
Theorem descriptors_stored_in_order (fuel : nat) (url : string) (depth : Z)
    (infos : list ElementInfo) (w : World B) (r : Outcome unit)
    (w' : World B) :
  url ∈ visitedUrls w ->
  forOf infos (processElement (nested fuel) url depth) w = Some (r, w') ->
  exists d k,
    trace w' = trace w ++ d
    /\ k <= length infos
    /\ statementsOf url d = map (nodeInsert url) (take k infos)
    /\ (r = Returned tt -> k = length infos).
Proof.
  assert (forall u, respects storesFresh (nested (B := B) fuel u (depth + 1)%Z))
    as Hself.
  { intros u. destruct fuel as [|fuel]; simpl;
      [apply respects_diverge | apply storesFresh_crawlPage]. }
  revert w. induction infos as [|info infos IH]; intros w Hu H.
  - inversion H; subst. exists [], 0. rewrite app_nil_r. auto.
  - rewrite forOf_cons in H.
    apply bind_inv in H as [([] & w1 & H1 & H) | (e & H1 & ->)].
    + apply (processElement_stores _ _ _ _ _ _ _ Hself Hu) in H1
        as (G & d1 & E1 & S1).
      apply IH in H as (d & k & E & Hk & S2 & Hr);
        [|unfold grows in G; set_solver].
      exists (d1 ++ d), (S k). split; [now rewrite E, E1, app_assoc|].
      split; [simpl; lia|]. split.
      * rewrite statementsOf_app, S1, S2. reflexivity.
      * intros Hret. simpl. f_equal. auto.
    + apply (processElement_stores _ _ _ _ _ _ _ Hself Hu) in H1
        as (G & d1 & E1 & S1).
      exists d1, 1. split; [exact E1|]. split; [simpl; lia|].
      split; [now rewrite S1 | discriminate].
Qed.

(** X17.  The crawl stores nothing about a page it did not admit: every
    statement it runs is about a page URL that was not in the VisitedSet
    when the main loop began and is in it when the loop is over. *)
Theorem stores_only_admitted (seedUrls : list string) (w : World B)
    (r : Outcome unit) (w' : World B) :
  crawlSeeds seedUrls w = Some (r, w') ->
  exists d,
    trace w' = trace w ++ d
    /\ forall s, In (Sql s) d ->
                 pageOf s ∈ visitedUrls w' /\ pageOf s ∉ visitedUrls w.
Proof.
  intros H.
  assert (respects storesFresh (crawlSeeds (B := B) seedUrls)) as Hr.
  { unfold crawlSeeds.
    apply respects_forOf;
      [apply storesFresh_refl | apply storesFresh_trans|].
    intros u. apply storesFresh_crawlPage. }
  destruct (Hr _ _ _ H) as (_ & d & E & F).
  exists d. split; [exact E|]. intros s Hin.
  rewrite Forall_forall in F.
  exact (F _ (proj2 (list_elem_of_In _ _) Hin) s eq_refl).
Qed.

End Stored.

(** *** The rows of clickable_nodes *)

Section Nodes.
Context {B : Type} {driver : Driver B} {parser : Parser}.

Lemma nodeRows_absent p a (rows : list NodeRow) :
  (p, a) ∉ map nodeKey rows ->
  filter (fun r => nodeKey r = (p, a)) rows = [].
Proof.
  induction rows as [|x l IH]; simpl; [reflexivity|].
  intros H. apply not_elem_of_cons in H as [Hx Hl].
  rewrite filter_cons. destruct (decide (nodeKey x = (p, a))); [congruence | auto].
Qed.

Lemma nodeRows_le_1 p a d : uniqueKeys d -> length (nodeRows p a d) <= 1.
Proof.
  intros (_ & _ & Hn). unfold nodeRows.
  induction (clickable_nodes d) as [|x l IH]; simpl; [lia|].
  simpl in Hn. apply NoDup_cons in Hn as [Hx Hl]. specialize (IH Hl).
  rewrite filter_cons. destruct (decide (nodeKey x = (p, a))) as [Hk|Hk];
    [|exact IH].
  rewrite nodeRows_absent; [simpl; lia | congruence].
Qed.

(** X8.  The table of clickable nodes holds at most one row for a page
    URL and a selector, and the first one stored stays: a crawl that
    meets the selector again on that page, with whatever tag, text or
    href, neither replaces the row nor adds a second one. *)
Theorem node_rows_first_wins (fuel : nat) (url : string) (depth : Z)
    (w : World B) (r : Outcome unit) (w' : World B)
    (page_url other : string) :
  uniqueKeys (db w) ->
  crawlPage fuel url depth w = Some (r, w') ->
  length (nodeRows page_url other (db w')) <= 1
  /\ (nodeRows page_url other (db w) <> [] ->
      nodeRows page_url other (db w') = nodeRows page_url other (db w)).
Proof.
  intros Hu H.
  pose proof (crawlPage_keepsUnique fuel url depth w r w' H Hu) as Hu'.
  pose proof (nodeRows_le_1 page_url other _ Hu') as Hle.
  split; [exact Hle|]. intros Hne.
  destruct (appended_crawlPage fuel url depth w r w' H) as (_ & _ & [k Hk] & _).
  unfold nodeRows in *. rewrite Hk, filter_app in *.
  rewrite length_app in Hle.
  destruct (filter _ (clickable_nodes (db w))) as [|x l]; [congruence|].
  destruct (filter _ k) as [|y k']; [now rewrite app_nil_r|].
  simpl in Hle. lia.
Qed.

End Nodes.

(** *** page_contents and visited_urls go together *)

Section Lockstep.
Context {B : Type} {driver : Driver B} {parser : Parser}.

Lemma lockstep_pair url content d :
  lockstep d ->
  lockstep (execute (InsertOrIgnoreVisitedUrl url)
              (execute (InsertOrIgnorePageContent url content) d)).
Proof.
  unfold lockstep. intros L. simpl.
  destruct (hasPage url (page_contents d)) eqn:Ep;
    destruct (hasVisitedRow url (visited_urls d)) eqn:Ev; simpl;
    rewrite ?Ev; simpl.
  - exact L.
  - apply DatabaseFacts.hasPage_elem in Ep. rewrite L in Ep.
    apply DatabaseFacts.hasVisitedRow_elem in Ep. congruence.
  - apply DatabaseFacts.hasVisitedRow_elem in Ev. rewrite <- L in Ev.
    apply DatabaseFacts.hasPage_elem in Ev. congruence.
  - rewrite map_app, L. reflexivity.
Qed.

Lemma keepsLockstep_refl (w : World B) : keepsLockstep w w.
Proof. unfold keepsLockstep. auto. Qed.

Lemma keepsLockstep_trans (w1 w2 w3 : World B) :
  keepsLockstep w1 w2 -> keepsLockstep w2 w3 -> keepsLockstep w1 w3.
Proof. unfold keepsLockstep. auto. Qed.

Lemma keepsLockstep_db (w w' : World B) :
  db w' = db w -> keepsLockstep w w'.
Proof. unfold keepsLockstep. now intros ->. Qed.

Lemma keepsLockstep_call {T} (c : Cmd T) : respects keepsLockstep (call c).
Proof. intros w r w' H. invert_run. now apply keepsLockstep_db. Qed.

Lemma keepsLockstep_console l :
  respects (B := B) keepsLockstep (console l).
Proof. intros w r w' H. invert_run. now apply keepsLockstep_db. Qed.

Lemma keepsLockstep_node s :
  isNodeInsert s = true -> respects (B := B) keepsLockstep (dbRun s).
Proof.
  intros Hs w r w' H. invert_run. unfold keepsLockstep, lockstep. simpl.
  destruct s; try discriminate Hs. simpl.
  now destruct (hasNode _ _ _).
Qed.

Lemma lockstep_readPage self depth url :
  (forall u, respects keepsLockstep (self u (depth + 1)%Z)) ->
  respects keepsLockstep (readPage self url depth).
Proof.
  intros Hself w r w' H. unfold readPage in H.
  apply bind_inv in H as [(? & w1 & H1 & H) | (e & H1 & _)];
    [|exact (keepsLockstep_call _ _ _ _ H1)].
  apply keepsLockstep_call in H1.
  apply keepsLockstep_trans with w1; [exact H1|]. clear H1.
  apply bind_inv in H as [(content & w2 & H2 & H) | (e & H2 & _)];
    [|exact (keepsLockstep_call _ _ _ _ H2)].
  apply keepsLockstep_call in H2.
  apply keepsLockstep_trans with w2; [exact H2|]. clear H2.
  apply bind_inv in H as [(? & w3 & H3 & H) | (e & H3 & _)];
    [|now inversion H3].
  apply bind_inv in H as [(? & w4 & H4 & H) | (e & H4 & _)];
    [|now inversion H4].
  apply dbRun_inv in H3 as [_ ->]. apply dbRun_inv in H4 as [_ ->].
  simpl in H.
  match type of H with
  | _ ?w0 = _ => apply keepsLockstep_trans with w0
  end.
  { unfold keepsLockstep. simpl. apply lockstep_pair. }
  revert H.
  match goal with
  | |- ?c ?w0 = Some (r, w') -> _ =>
      enough (respects keepsLockstep c) as Hr by (intros H; exact (Hr _ _ _ H))
  end.
  apply respects_bind; [apply keepsLockstep_trans| |intros infos].
  - apply (keeps_listClickableItems keepsLockstep keepsLockstep_refl
             keepsLockstep_trans anyCmd).
    + intros T c _. apply keepsLockstep_call.
    + apply keepsLockstep_console.
    + now intros.
  - apply respects_bind; [apply keepsLockstep_trans| |intros _].
    + apply keepsLockstep_console.
    + apply (keeps_loop keepsLockstep keepsLockstep_refl keepsLockstep_trans
               anyCmd (fun s => isNodeInsert s = true)); auto.
      * intros T c _. apply keepsLockstep_call.
      * apply keepsLockstep_console.
      * apply keepsLockstep_node.
      * now intros.
      * now unfold okNodes.
Qed.

Lemma lockstep_crawlPageBody self depth url :
  (forall u, respects keepsLockstep (self u (depth + 1)%Z)) ->
  respects keepsLockstep (crawlPageBody self url depth).
Proof.
  intros Hself. unfold crawlPageBody.
  apply respects_bind; [apply keepsLockstep_trans| |intros seen].
  { apply respects_visitedHas, keepsLockstep_refl. }
  destruct (seen || (MAX_DEPTH <? depth)%Z);
    [apply respects_mret, keepsLockstep_refl|].
  apply respects_bind; [apply keepsLockstep_trans| |intros _].
  { intros w r w' H. invert_run. now apply keepsLockstep_db. }
  apply respects_bind; [apply keepsLockstep_trans| |intros _].
  { apply keepsLockstep_console. }
  apply respects_tryCatch; [apply keepsLockstep_trans| |intros e].
  - unfold visitPage.
    apply respects_bind; [apply keepsLockstep_trans| |intros _].
    + apply keepsLockstep_call.
    + now apply lockstep_readPage.
  - apply keepsLockstep_console.
Qed.

Lemma lockstep_crawlPage fuel : forall url depth,
  respects keepsLockstep (crawlPage (B := B) fuel url depth).
Proof.
  induction fuel as [|fuel IH]; intros url depth; simpl;
    apply lockstep_crawlPageBody; auto.
  intros u. apply respects_diverge.
Qed.

(** X9.  The page records and the visited-URL records are written
    together: if the two tables list the same URLs in the same order
    before a crawl, they do so after it, however the crawl went. *)
Theorem tables_in_lockstep (fuel : nat) (url : string) (depth : Z)
    (w : World B) (r : Outcome unit) (w' : World B) :
  map pc_url (page_contents (db w)) = visited_urls (db w) ->
  crawlPage fuel url depth w = Some (r, w') ->
  map pc_url (page_contents (db w')) = visited_urls (db w').
Proof. intros L H. exact (lockstep_crawlPage fuel url depth w r w' H L). Qed.

End Lockstep.

(** *** What discovery accounts for *)

Section Accounts.
Context {B : Type} {driver : Driver B}.

Lemma skipCount_app (a b : list Event) :
  skipCount (a ++ b) = skipCount a + skipCount b.
Proof. unfold skipCount. now rewrite List.filter_app, length_app. Qed.

Lemma silent_refl (w : World B) : silent w w.
Proof.
  split; [reflexivity|]. split; [reflexivity|].
  exists []. now rewrite app_nil_r.
Qed.

Lemma silent_trans (w1 w2 w3 : World B) :
  silent w1 w2 -> silent w2 w3 -> silent w1 w3.
Proof.
  intros (D1 & V1 & d1 & E1 & S1) (D2 & V2 & d2 & E2 & S2).
  split; [congruence|]. split; [congruence|].
  exists (d1 ++ d2). split; [now rewrite E2, E1, app_assoc|].
  rewrite skipCount_app. lia.
Qed.

Lemma silent_call {T} (c : Cmd T) : respects silent (call c).
Proof.
  intros w r w' H. invert_run. split; [reflexivity|]. split; [reflexivity|].
  now exists [Driven c r].
Qed.

Lemma silent_describeElement el : respects silent (describeElement el).
Proof.
  apply (keeps_describeElement silent silent_refl silent_trans anyCmd).
  - intros T c _. apply silent_call.
  - now intros.
Qed.

Lemma collectInfo_accounts els : forall acc (w : World B) r w',
  collectInfo els acc w = Some (r, w') ->
  db w' = db w
  /\ visitedUrls w' = visitedUrls w
  /\ exists infos d,
       r = Returned infos
       /\ trace w' = trace w ++ d
       /\ length infos + skipCount d = length acc + length els.
Proof.
  induction els as [|el els IH]; intros acc w r w' H; simpl in H.
  - inversion H; subst. split; [reflexivity|]. split; [reflexivity|].
    exists acc, []. rewrite app_nil_r. simpl. auto with lia.
  - apply bind_inv in H as [(acc1 & w1 & H1 & H) | (e & H1 & _)].
    + apply IH in H as (D & V & infos & d & -> & E & L).
      assert (db w1 = db w /\ visitedUrls w1 = visitedUrls w
              /\ exists d1, trace w1 = trace w ++ d1
                            /\ length acc1 + skipCount d1 = S (length acc))
        as (D1 & V1 & d1 & E1 & L1).
      { apply tryCatch_inv in H1 as [(a & H1 & Ha) | (e & w0 & H1 & H2)].
        - inversion Ha; subst a.
          apply bind_inv in H1 as [(info & w0 & H0 & H1) | (e & H0 & Hr)];
            [|discriminate Hr].
          inversion H1; subst.
          apply silent_describeElement in H0 as (D0 & V0 & d0 & E0 & S0).
          split; [exact D0|]. split; [exact V0|]. exists d0.
          split; [exact E0|]. rewrite length_app, S0. simpl. lia.
        - apply bind_inv in H1 as [(info & w2 & H0 & H1) | (e' & H0 & _)];
            [inversion H1|].
          apply silent_describeElement in H0 as (D0 & V0 & d0 & E0 & S0).
          invert_run. simpl. split; [exact D0|]. split; [exact V0|].
          exists (d0 ++ [Console (ErrProcessingElement e)]).
          split; [now rewrite E0, app_assoc|].
          rewrite skipCount_app, S0. unfold skipCount. simpl. lia. }
      split; [congruence|]. split; [congruence|].
      exists infos, (d1 ++ d). split; [reflexivity|].
      split; [now rewrite E, E1, app_assoc|].
      rewrite skipCount_app. simpl. lia.
    + exfalso.
      apply tryCatch_inv in H1 as [(a & _ & Ha) | (e0 & w0 & _ & H2)];
        [discriminate Ha|].
      invert_run.
Qed.

(** X10.  Discovery answers for every element the XPath query matched:
    it fails only when the query itself fails, and otherwise the
    descriptors it returns and the [Error processing element] lines it
    prints add up to the number of matched elements.  It writes nothing
    to the store and leaves the VisitedSet alone. *)
Theorem listClickableItems_accounts (w : World B)
    (r : Outcome (list ElementInfo)) (w' : World B) :
  listClickableItems w = Some (r, w') ->
  db w' = db w
  /\ visitedUrls w' = visitedUrls w
  /\ ((exists e,
         r = Threw e
         /\ trace w'
            = trace w ++ [Driven (FindElements clickableXPath) (Threw e)])
      \/ (exists els infos d,
            r = Returned infos
            /\ trace w'
               = trace w
                 ++ Driven (FindElements clickableXPath) (Returned els) :: d
            /\ length infos + skipCount d = length els)).
Proof.
  intros H. unfold listClickableItems in H.
  apply bind_inv in H as [(els & w1 & H1 & H) | (e & H1 & ->)].
  - apply call_inv in H1 as (b & _ & ->).
    apply collectInfo_accounts in H as (D & V & infos & d & -> & E & L).
    simpl in *. split; [exact D|]. split; [exact V|].
    right. exists els, infos, d. split; [reflexivity|].
    split; [now rewrite E, <- app_assoc | exact L].
  - apply call_inv in H1 as (b & _ & ->). simpl.
    split; [reflexivity|]. split; [reflexivity|]. left. eauto.
Qed.

End Accounts.

(** *** Links to other sites *)

Section External.
Context {B : Type} {driver : Driver B} {parser : Parser}.

(** X11.  A page whose descriptors all carry an href on another domain
    is left without a lookup or a click: each descriptor is stored, in
    order, the browser is asked nothing, nothing is printed and no
    nested crawl starts. *)
Theorem external_links_only_stored (self : string -> Z -> M B unit)
    (url : string) (depth : Z) (infos : list ElementInfo) (w : World B) :
  Forall (fun info => isExternal url info = true) infos ->
  forOf infos (processElement self url depth) w
  = Some (Returned tt,
          mkWorld (visitedUrls w) (storeAll url infos (db w)) (session w)
                  (trace w ++ map (fun info => Sql (nodeInsert url info)) infos)).
Proof.
  intros Hall. revert w.
  induction Hall as [|info infos Hx _ IH]; intros w.
  - simpl. rewrite app_nil_r. now destruct w.
  - rewrite forOf_cons.
    assert (processElement self url depth info w
            = Some (Returned tt,
                    mkWorld (visitedUrls w) (execute (nodeInsert url info) (db w))
                            (session w) (trace w ++ [Sql (nodeInsert url info)])))
      as Hstep.
    { unfold processElement. rewrite bind_unfold. simpl.
      unfold isExternal in Hx. now rewrite Hx. }
    rewrite (bind_returned _ _ _ _ _ Hstep), IH. simpl.
    now rewrite <- app_assoc.
Qed.

End External.

End LedgerFacts.

(** ** The README's variant *)

Module TutorialFacts.
Import JsString Url Crawler Runs Tutorial TutorialMain MonadFacts CrawlerFacts.
Local Open Scope list_scope.

Section Runs.
Context {B : Type} {driver : Driver B} {parser : Parser}.

Ltac total_leaf :=
  first [ apply total_call | apply total_console | apply total_dbRun
        | apply total_ret | apply total_mret | apply total_throw
        | apply total_visitedHas | apply total_visitedAdd | assumption ].

Ltac totals :=
  step_with (@total_bind B) (@total_tryCatch B) (@total_forOf B) total_leaf.

Lemma total_parseOrThrow input base : total (parseOrThrow (B := B) input base).
Proof. unfold parseOrThrow. destruct (newURL _ _); totals. Qed.

Lemma total_clickAndCompare el : total (clickAndCompare el).
Proof. unfold clickAndCompare. totals. Qed.

Section Self.
Variable self : string -> string -> Z -> M B unit.
Variable depth : Z.
Hypothesis total_self : forall u b, total (self u b (depth + 1)%Z).

Lemma total_followInternal baseDomain parsedLink :
  total (followInternal self baseDomain depth parsedLink).
Proof. unfold followInternal. totals. apply total_self. Qed.

Lemma total_interact url baseDomain el :
  total (interact self url baseDomain depth el).
Proof.
  unfold interact. totals;
    first [ apply total_clickAndCompare | apply total_parseOrThrow
          | apply total_followInternal ].
Qed.

Lemma total_sweepLink url baseDomain link :
  total (sweepLink self url baseDomain depth link).
Proof.
  unfold sweepLink. totals;
    first [apply total_parseOrThrow | apply total_followInternal].
Qed.

Lemma total_extractPage url baseDomain :
  total (extractPage self url baseDomain depth).
Proof.
  unfold extractPage, interactAll, sweepLinks. totals;
    first [apply total_interact | apply total_sweepLink].
Qed.

Lemma total_crawlAndExtractBody url baseDomain :
  total (crawlAndExtractBody self url baseDomain depth).
Proof. unfold crawlAndExtractBody. totals. apply total_extractPage. Qed.
End Self.

Section SameSelf.
Variables self1 self2 : string -> string -> Z -> M B unit.
Variable depth : Z.
Hypothesis same_self :
  forall u b, same (self1 u b (depth + 1)%Z) (self2 u b (depth + 1)%Z).

Lemma same_followInternal baseDomain parsedLink :
  same (followInternal self1 baseDomain depth parsedLink)
       (followInternal self2 baseDomain depth parsedLink).
Proof. unfold followInternal. same_steps. apply same_self. Qed.

Lemma same_interact url baseDomain el :
  same (interact self1 url baseDomain depth el)
       (interact self2 url baseDomain depth el).
Proof. unfold interact. same_steps. apply same_followInternal. Qed.

Lemma same_sweepLink url baseDomain link :
  same (sweepLink self1 url baseDomain depth link)
       (sweepLink self2 url baseDomain depth link).
Proof. unfold sweepLink. same_steps. apply same_followInternal. Qed.

Lemma same_extractPage url baseDomain :
  same (extractPage self1 url baseDomain depth)
       (extractPage self2 url baseDomain depth).
Proof.
  unfold extractPage, interactAll, sweepLinks. same_steps;
    first [apply same_interact | apply same_sweepLink].
Qed.

Lemma same_crawlAndExtractBody url baseDomain :
  same (crawlAndExtractBody self1 url baseDomain depth)
       (crawlAndExtractBody self2 url baseDomain depth).
Proof. unfold crawlAndExtractBody. same_steps. apply same_extractPage. Qed.
End SameSelf.

Lemma crawlAndExtractBody_rejected self url baseDomain depth (w : World B) :
  (Tutorial.MAX_DEPTH < depth)%Z \/ url ∈ visitedUrls w ->
  crawlAndExtractBody self url baseDomain depth w = Some (Returned tt, w).
Proof.
  intros H. unfold crawlAndExtractBody. rewrite bind_unfold. simpl.
  destruct H as [H|H].
  - apply Z.ltb_lt in H. now rewrite H.
  - rewrite bool_decide_eq_true_2 by exact H. now rewrite orb_true_r.
Qed.

Lemma crawlAndExtract_rejected fuel url baseDomain depth (w : World B) :
  (Tutorial.MAX_DEPTH < depth)%Z \/ url ∈ visitedUrls w ->
  crawlAndExtract fuel url baseDomain depth w = Some (Returned tt, w).
Proof. destruct fuel; apply crawlAndExtractBody_rejected. Qed.

Lemma crawlAndExtractBody_returns self url baseDomain depth (w : World B) r w' :
  crawlAndExtractBody self url baseDomain depth w = Some (r, w') ->
  r = Returned tt.
Proof.
  unfold crawlAndExtractBody. intros H.
  apply bind_inv in H as [(seen & w1 & H1 & H) | (e & H1 & _)];
    [|inversion H1].
  destruct ((Tutorial.MAX_DEPTH <? depth)%Z || seen); [now inversion H|].
  invert_run; try reflexivity;
    repeat match goal with u : unit |- _ => destruct u end; reflexivity.
Qed.

Lemma crawlAndExtract_returns fuel url baseDomain depth (w : World B) r w' :
  crawlAndExtract fuel url baseDomain depth w = Some (r, w') ->
  r = Returned tt.
Proof. destruct fuel; apply crawlAndExtractBody_returns. Qed.

Lemma nesting_succ depth :
  (depth <= Tutorial.MAX_DEPTH)%Z ->
  TutorialMain.levels depth = S (TutorialMain.levels (depth + 1)).
Proof. unfold TutorialMain.levels, Tutorial.MAX_DEPTH. lia. Qed.

Lemma nesting_zero depth :
  TutorialMain.levels depth = 0 -> (Tutorial.MAX_DEPTH < depth)%Z.
Proof. unfold TutorialMain.levels, Tutorial.MAX_DEPTH. lia. Qed.

Lemma crawlAndExtract_total fuel : forall url baseDomain depth,
  TutorialMain.levels depth <= fuel ->
  total (crawlAndExtract fuel url baseDomain depth).
Proof.
  induction fuel as [|fuel IH]; intros url baseDomain depth Hf w.
  - rewrite crawlAndExtract_rejected; [eauto|]. left. apply nesting_zero. lia.
  - destruct (Z.lt_ge_cases Tutorial.MAX_DEPTH depth) as [Hd|Hd].
    + rewrite crawlAndExtract_rejected; eauto.
    + simpl. apply total_crawlAndExtractBody. intros u b. apply IH.
      rewrite (nesting_succ depth) in Hf; lia.
Qed.

Lemma crawlAndExtract_fuel fuel1 : forall fuel2 url baseDomain depth,
  TutorialMain.levels depth <= fuel1 -> TutorialMain.levels depth <= fuel2 ->
  same (crawlAndExtract fuel1 url baseDomain depth)
       (crawlAndExtract fuel2 url baseDomain depth).
Proof.
  induction fuel1 as [|fuel1 IH]; intros fuel2 url baseDomain depth H1 H2 w.
  - rewrite !crawlAndExtract_rejected; auto; left; apply nesting_zero; lia.
  - destruct (Z.lt_ge_cases Tutorial.MAX_DEPTH depth) as [Hd|Hd].
    + rewrite !crawlAndExtract_rejected; auto.
    + rewrite (nesting_succ depth Hd) in H1, H2.
      destruct fuel2 as [|fuel2]; [lia|]. simpl.
      apply same_crawlAndExtractBody. intros u b. apply IH; lia.
Qed.

(** X13.  [crawlAndExtract] terminates: run with the levels its depth
    bound leaves, it comes back from every world, without an exception,
    whatever the browser answers and whatever hrefs it reads; more
    levels change nothing. *)
Theorem crawlAndExtract_terminates (url baseDomain : string) (depth : Z)
    (w : World B) :
  (exists w',
     crawlAndExtract (TutorialMain.levels depth) url baseDomain depth w
     = Some (Returned tt, w'))
  /\ (forall fuel, TutorialMain.levels depth <= fuel ->
      crawlAndExtract fuel url baseDomain depth w
      = crawlAndExtract (TutorialMain.levels depth) url baseDomain depth w).
Proof.
  split.
  - destruct (crawlAndExtract_total (TutorialMain.levels depth) url baseDomain
                depth (le_n _) w) as [[r w'] H].
    rewrite H. rewrite (crawlAndExtract_returns _ _ _ _ _ _ _ H). eauto.
  - intros fuel Hf. now apply crawlAndExtract_fuel.
Qed.

Lemma forOf_app_returned {A} (xs ys : list A) (body : A -> M B unit) :
  forall w w1,
    forOf xs body w = Some (Returned tt, w1) ->
    forOf (xs ++ ys) body w = forOf ys body w1.
Proof.
  induction xs as [|x xs IH]; intros w w1 H.
  - now inversion H.
  - simpl app. rewrite forOf_cons in *.
    apply bind_inv in H as [([] & w0 & H0 & H) | (e & _ & He)];
      [|discriminate He].
    rewrite (bind_returned _ _ _ _ _ H0). now apply IH.
Qed.

Lemma mainLoop_parsable seedUrls :
  Forall (fun s => is_Some (newURL s None)) seedUrls ->
  forall (w : World B), exists w', mainLoop seedUrls w = Some (Returned tt, w').
Proof.
  unfold mainLoop. induction 1 as [|s l [u Hs] _ IH]; intros w.
  - eexists. reflexivity.
  - rewrite forOf_cons.
    assert (exists w1, crawlSeed s w = Some (Returned tt, w1)) as [w1 H1].
    { unfold crawlSeed, parseSeed. rewrite Hs.
      rewrite (bind_returned _ _ w u w eq_refl). cbv zeta.
      destruct (crawlAndExtract_total (TutorialMain.levels 0) s (hostname u) 0
                  (le_n _) w) as [[r w1] H].
      rewrite H, (crawlAndExtract_returns _ _ _ _ _ _ _ H). eauto. }
    rewrite (bind_returned _ _ _ _ _ H1). apply IH.
Qed.

(** X14.  A seed that does not parse as a URL ends the README's main
    loop with the parser's exception: the seeds before it, when they
    parse, have been crawled, and the seeds after it are not touched:
    the loop ends in the world the seeds before it left. *)
Theorem mainLoop_unparsable_seed (before : list string) (bad : string)
    (after : list string) (w : World B) :
  Forall (fun s => is_Some (newURL s None)) before ->
  newURL bad None = None ->
  exists w1,
    mainLoop before w = Some (Returned tt, w1)
    /\ mainLoop (before ++ bad :: after) w = Some (Threw "Invalid URL", w1).
Proof.
  intros Hok Hbad. destruct (mainLoop_parsable before Hok w) as [w1 H].
  exists w1. split; [exact H|]. unfold mainLoop in *.
  rewrite (forOf_app_returned _ _ _ _ _ H), forOf_cons.
  apply bind_threw. unfold crawlSeed. apply bind_threw.
  unfold parseSeed. now rewrite Hbad.
Qed.

(** X15.  An href that does not parse as a URL ends the link sweep: the
    exception leaves the loop over [a[href]], and the links after it are
    not read.  In the loop over the clickable elements the same href
    costs the anchor alone: the exception is caught and printed, and the
    loop goes to its next element. *)
Theorem unparsable_href (self : string -> string -> Z -> M B unit)
    (url baseDomain : string) (depth : Z) (u : string) :
  truthy u = true ->
  newURL u (Some url) = None ->
  (forall before link after (w w1 : World B) b,
     forOf before (sweepLink self url baseDomain depth) w
     = Some (Returned tt, w1) ->
     drive _ (GetAttribute link "href") (session w1) = (Returned (Some u), b) ->
     forOf (before ++ link :: after) (sweepLink self url baseDomain depth) w
     = Some (Threw "Invalid URL",
             asked (GetAttribute link "href") (Returned (Some u)) b w1))
  /\ (forall element tag (w : World B) b1 b2,
       drive _ (GetTagName element) (session w) = (Returned tag, b1) ->
       toLowerCase tag = "a" ->
       drive _ (GetAttribute element "href") b1 = (Returned (Some u), b2) ->
       tryCatch (interact self url baseDomain depth element)
                (fun e => console (ErrClicking e)) w
       = Some (Returned tt,
               mkWorld (visitedUrls w) (db w) b2
                       (trace w
                        ++ [Driven (GetTagName element) (Returned tag);
                            Driven (GetAttribute element "href")
                                   (Returned (Some u));
                            Console (ErrClicking "Invalid URL")]))).
Proof.
  intros Hu Hbad. split.
  - intros before link after w w1 b H Hd.
    rewrite (forOf_app_returned _ _ _ _ _ H), forOf_cons.
    apply bind_threw. unfold sweepLink.
    rewrite (bind_returned _ _ _ _ _ (call_run _ _ _ _ Hd)).
    rewrite Hu. apply bind_threw. unfold parseOrThrow. now rewrite Hbad.
  - intros element tag w b1 b2 H1 Ha H2.
    unfold tryCatch, interact.
    rewrite (bind_returned _ _ _ _ _ (call_run _ _ _ _ H1)).
    rewrite Ha. simpl String.eqb. cbv iota.
    erewrite bind_returned by (apply call_run; simpl; exact H2).
    cbv beta iota. rewrite Hu. unfold parseOrThrow. rewrite Hbad. rewrite bind_unfold. simpl.
    unfold console, record. simpl. now rewrite <- !app_assoc.
Qed.

End Runs.


(** *** The README's crawl stays on its base domain *)

Section Domain.
Context {B : Type} {driver : Driver B} {parser : Parser}.
Variable baseDomain : string.

Let R : World B -> World B -> Prop := emits (crawlsInDomain baseDomain).

Lemma domain_call {T} (c : Cmd T) : respects R (call c).
Proof. now apply emits_call. Qed.

Lemma domain_console l :
  (forall u d, l <> LogCrawling u d) -> respects R (console l).
Proof.
  intros Hl. apply emits_console. destruct l; try exact I.
  now contradiction (Hl url depth).
Qed.

Lemma domain_sql s : respects R (dbRun s).
Proof. now apply emits_dbRun. Qed.

Section Self.
Variable self : string -> string -> Z -> M B unit.
Variable depth : Z.
Hypothesis domain_self :
  forall u, inDomain baseDomain u ->
            respects R (self u baseDomain (depth + 1)%Z).

Lemma domain_follow url u :
  respects R (parsedLink ← parseOrThrow u url;
              followInternal self baseDomain depth parsedLink).
Proof.
  intros w r w' H. unfold parseOrThrow in H.
  destruct (newURL u (Some url)) as [p|] eqn:E.
  - rewrite (bind_returned _ _ w p w eq_refl) in H.
    unfold followInternal in H.
    rewrite (bind_returned _ _ w _ w eq_refl) in H.
    destruct (String.eqb (hostname p) baseDomain) eqn:Eh; simpl in H.
    + destruct (bool_decide (Url.href p ∈ visitedUrls w)); simpl in H.
      * inversion H. apply emits_refl.
      * apply String.eqb_eq in Eh.
        apply (domain_self (Url.href p)) in H; [exact H|].
        exists u, url, p. auto.
    + inversion H. apply emits_refl.
  - rewrite (bind_threw _ _ w "Invalid URL" w eq_refl) in H.
    inversion H. apply emits_refl.
Qed.

Ltac domain_leaf :=
  first [ apply domain_call | apply domain_sql
        | apply domain_console; discriminate
        | apply respects_ret; apply emits_refl
        | apply respects_mret; apply emits_refl ].

Ltac domain_steps :=
  repeat
    (cbv zeta;
     first
       [ apply domain_follow
       | lazymatch goal with
         | |- _ (mbind _ _) =>
             apply respects_bind; [apply emits_trans | | intros ?]
         | |- _ (tryCatch _ _) =>
             apply respects_tryCatch; [apply emits_trans | | intros ?]
         | |- _ (forOf _ _) =>
             apply respects_forOf;
             [apply emits_refl | apply emits_trans | intros ?]
         | |- _ (if ?b then _ else _) => destruct b
         | |- _ (match ?x with Some _ => _ | None => _ end) => destruct x
         | |- _ => solve [domain_leaf]
         end ]).

Lemma domain_clickAndCompare el : respects R (clickAndCompare el).
Proof. unfold clickAndCompare. domain_steps. Qed.

Lemma domain_interact url el :
  respects R (interact self url baseDomain depth el).
Proof. unfold interact. domain_steps. apply domain_clickAndCompare. Qed.

Lemma domain_sweepLink url link :
  respects R (sweepLink self url baseDomain depth link).
Proof. unfold sweepLink. domain_steps. Qed.

Lemma domain_guardedExtract url :
  respects R (tryCatch (extractPage self url baseDomain depth)
                       (fun e => console (ErrProcessing url e))).
Proof.
  unfold extractPage, interactAll, sweepLinks. domain_steps;
    first [apply domain_interact | apply domain_sweepLink].
Qed.
End Self.

(** What a call adds to the transcript: its own [Crawling] line, if it
    is admitted, and then lines for URLs on the base domain. *)
Lemma domain_crawlAndExtractBody self url depth (w : World B) r w' :
  (forall u, inDomain baseDomain u ->
             respects R (self u baseDomain (depth + 1)%Z)) ->
  crawlAndExtractBody self url baseDomain depth w = Some (r, w') ->
  exists d,
    trace w' = trace w ++ d
    /\ Forall (fun e => e = Console (LogCrawling url depth)
                        \/ crawlsInDomain baseDomain e) d.
Proof.
  intros Hself H. unfold crawlAndExtractBody in H.
  rewrite (bind_returned _ _ w _ w eq_refl) in H.
  destruct ((Tutorial.MAX_DEPTH <? depth)%Z
            || bool_decide (url ∈ visitedUrls w)).
  - inversion H. exists []. now rewrite app_nil_r.
  - apply bind_inv in H as [([] & w1 & H1 & H) | (e & H1 & _)];
      [|inversion H1].
    apply visitedAdd_inv in H1 as [_ ->].
    apply bind_inv in H as [([] & w2 & H2 & H) | (e & H2 & _)];
      [|inversion H2].
    apply console_inv in H2 as [_ ->].
    apply (domain_guardedExtract self depth Hself url) in H
      as (d & E & F).
    simpl in E. exists (Console (LogCrawling url depth) :: d).
    split; [now rewrite E, <- app_assoc|].
    constructor; [now left|].
    eapply Forall_impl; [exact F|]. intros e He. now right.
Qed.

Lemma domain_crawlAndExtract fuel : forall url depth,
  inDomain baseDomain url ->
  respects R (crawlAndExtract fuel url baseDomain depth).
Proof.
  induction fuel as [|fuel IH]; intros url depth Hu w r w' H; simpl in H;
    apply domain_crawlAndExtractBody in H as (d & E & F);
    try (intros u _; apply respects_diverge);
    try (intros u Hin; now apply IH).
  all: exists d; split; [exact E|];
    eapply Forall_impl; [exact F|]; intros e [->|He]; [exact Hu | exact He].
Qed.

(** X18.  The README's crawl stays on its base domain: whatever
    [crawlAndExtract] crawls beyond the URL it was called on is the href
    of a link that resolved to a URL whose host name is [baseDomain]. *)
Theorem crawlAndExtract_stays_in_domain (fuel : nat) (url : string)
    (depth : Z) (w : World B) (r : Outcome unit) (w' : World B) :
  crawlAndExtract fuel url baseDomain depth w = Some (r, w') ->
  exists d,
    trace w' = trace w ++ d
    /\ forall u k, In (Console (LogCrawling u k)) d ->
                   (u = url /\ k = depth) \/ inDomain baseDomain u.
Proof.
  intros H.
  assert (exists d,
            trace w' = trace w ++ d
            /\ Forall (fun e => e = Console (LogCrawling url depth)
                                \/ crawlsInDomain baseDomain e) d)
    as (d & E & F).
  { destruct fuel as [|fuel]; simpl in H;
      apply domain_crawlAndExtractBody in H; auto.
    - intros u _. apply respects_diverge.
    - intros u Hu. now apply domain_crawlAndExtract. }
  exists d. split; [exact E|]. intros u k Hin.
  rewrite Forall_forall in F.
  destruct (F _ (proj2 (list_elem_of_In _ _) Hin)) as [Heq|Hd].
  - inversion Heq. now left.
  - now right.
Qed.

End Domain.

End TutorialFacts.

(** ** Selectors of siblings *)

Module SelectorFacts.
Import JsString JsStringFacts Dom DomFacts Numerals.
Local Open Scope list_scope.

Lemma chars_app (a b : string) :
  list_ascii_of_string (a +:+ b)
  = list_ascii_of_string a ++ list_ascii_of_string b.
Proof.
  induction a as [|c a IH]; [now rewrite append_nil_l|].
  rewrite append_cons. simpl. now f_equal.
Qed.

Lemma chars_inj (a b : string) :
  list_ascii_of_string a = list_ascii_of_string b -> a = b.
Proof.
  intros H. rewrite <- (string_of_list_ascii_of_string a),
    <- (string_of_list_ascii_of_string b). now rewrite H.
Qed.

Lemma append_inv_head (p a b : string) : p +:+ a = p +:+ b -> a = b.
Proof.
  induction p as [|c p IH]; [now rewrite !append_nil_l|].
  rewrite !append_cons. intros H. inversion H. auto.
Qed.

Lemma pretty_N_char_notParen x : notParen (pretty_N_char x).
Proof. unfold notParen, pretty_N_char. repeat case_match; discriminate. Qed.

Lemma pretty_N_go_notParen x : forall s,
  Forall notParen (list_ascii_of_string s) ->
  Forall notParen (list_ascii_of_string (pretty_N_go x s)).
Proof.
  induction (N.lt_wf_0 x) as [x _ IH]; intros s Hs.
  assert (x = 0 \/ 0 < x)%N as [->|Hx] by lia.
  - now rewrite pretty_N_go_0.
  - rewrite pretty_N_go_step by exact Hx. apply IH.
    + now apply N.div_lt.
    + simpl. constructor; [apply pretty_N_char_notParen | exact Hs].
Qed.

Lemma ofNat_notParen n : Forall notParen (list_ascii_of_string (ofNat n)).
Proof.
  unfold ofNat, pretty, pretty_nat, pretty, pretty_N.
  destruct (decide (N.of_nat n = 0%N)).
  - simpl. repeat constructor. discriminate.
  - apply pretty_N_go_notParen. constructor.
Qed.

Lemma numeral_until_paren (d1 d2 r1 r2 : list ascii) :
  Forall notParen d1 -> Forall notParen d2 ->
  d1 ++ "("%char :: r1 = d2 ++ "("%char :: r2 -> d1 = d2.
Proof.
  intros H1. revert d2. induction H1 as [|c d1 Hc _ IH];
    intros d2 H2 E; destruct H2 as [|c2 d2 Hc2 H2]; simpl in E.
  - reflexivity.
  - inversion E; subst. now contradiction Hc2.
  - inversion E; subst. now contradiction Hc.
  - inversion E; subst. f_equal. now apply IH.
Qed.

(** A fragment that ends in [:nth-child(k)] tells [k], whatever tag and
    classes come before. *)
Lemma nthChild_inj (s1 s2 : string) (k1 k2 : nat) :
  s1 +:+ ":nth-child(" +:+ ofNat k1 +:+ ")"
  = s2 +:+ ":nth-child(" +:+ ofNat k2 +:+ ")" ->
  k1 = k2.
Proof.
  intros H. apply (f_equal list_ascii_of_string) in H.
  rewrite !chars_app in H. apply (f_equal (@rev ascii)) in H.
  rewrite !rev_app_distr in H. simpl in H.
  rewrite <- !app_assoc in H. simpl in H. inversion H as [H'].
  apply numeral_until_paren in H'.
  - apply (f_equal (@rev ascii)) in H'. rewrite !rev_involutive in H'.
    apply chars_inj in H'. now apply pretty_nat_inj in H'.
  - apply Forall_rev, ofNat_notParen.
  - apply Forall_rev, ofNat_notParen.
Qed.

(** The joined path of [parts] and a last fragment opens with a string
    that [parts] fixes. *)
Lemma join_snoc (sep : string) (parts : list string) :
  exists pre, forall f, join sep (parts ++ [f]) = pre +:+ f.
Proof.
  unfold join. induction parts as [|p parts [pre IH]].
  - exists "". intros f. simpl. now rewrite append_nil_l.
  - exists (p +:+ sep +:+ pre). intros f.
    specialize (IH f). simpl app.
    destruct (parts ++ [f]) as [|q l] eqn:E.
    + now destruct parts.
    + change (String.concat sep (p :: q :: l))
        with (p +:+ sep +:+ String.concat sep (q :: l)).
      rewrite IH. now rewrite !append_assoc.
Qed.

(** X16.  Two children of one parent, neither with an id, never get the
    same selector: where the script returns a selector for one of them,
    it does not return it for the other; their paths agree up to the
    last fragment, and there the [:nth-child] index tells them apart,
    whatever their tags and classes are. *)
Theorem sibling_selectors_differ (e1 e2 : Element) :
  parentNode e1 = parentNode e2 ->
  parentNode e1 <> JNull ->
  indexOf (position e1) <> indexOf (position e2) ->
  truthy (id e1) = false ->
  truthy (id e2) = false ->
  generateCssSelector (JElement e1) <> TypeError ->
  generateCssSelector (JElement e1) <> generateCssSelector (JElement e2).
Proof.
  intros Hp Hn Hi H1 H2 Hr.
  rewrite (generateCssSelector_path e1 H1) in *.
  rewrite (generateCssSelector_path e2 H2).
  destruct (htmlClasses e1); [|now contradiction Hr].
  destruct (htmlClasses e2); [|discriminate].
  intros E. inversion E as [E']. clear E. unfold specPath in E'.
  assert (ancestors (position e1) = ancestors (position e2)
          /\ siblingLength (position e1) = siblingLength (position e2)
          /\ 1 < siblingLength (position e1)) as (Ha & Hl & Hgt).
  { unfold parentNode in *.
    destruct (position e1) as [| b1 a1 | b1 a1 n1 i1 c1 up1];
      destruct (position e2) as [| b2 a2 | b2 a2 n2 i2 c2 up2];
      try discriminate Hp; try (now contradiction Hn); simpl in *.
    - inversion Hp as [Hc]. apply (f_equal (@length Tree)) in Hc.
      rewrite !length_app in Hc. simpl in Hc. repeat split; lia.
    - inversion Hp as [[Hnn Hii Hcc Hc Hup]].
      apply (f_equal (@length Tree)) in Hc.
      rewrite !length_app in Hc. simpl in Hc. repeat split; lia. }
  rewrite <- Ha in E'.
  set (anc := ancestors (position e1)) in E'.
  rewrite !(app_assoc (idPrefix anc)) in E'.
  destruct (join_snoc " > " (idPrefix anc ++ rev (map ancFragment (belowId anc))))
    as [pre Hpre].
  rewrite !Hpre in E'. apply append_inv_head in E'.
  unfold specFragment, nthChildSuffix in E'. rewrite <- Hl in E'.
  apply Nat.ltb_lt in Hgt. rewrite Hgt in E'.
  rewrite <- !(append_assoc (toLowerCase _) (classSuffix _)) in E'.
  apply nthChild_inj in E'. lia.
Qed.

End SelectorFacts.

(** ** The added properties on the examples *)

Module MoreExamples.
Import JsString Dom Url Crawler Runs Tutorial TutorialMain Replay Startup
  Ledger Samples.
Import MonadFacts DomFacts CrawlerFacts StartupFacts LedgerFacts
  TutorialFacts SelectorFacts.
Local Open Scope list_scope.

Lemma readSeeds_joinLines_witness :
  readSeeds (joinLines [home; next]) = [home; next].
Proof.
  apply readSeeds_joinLines.
  repeat constructor; try discriminate; reflexivity.
Defined.

Lemma startUp_exit_witness :
  (exists code errors,
     startUp (mkSetting (Some "/usr/bin/chromedriver") (Returned tt)
                (Returned tt) (Returned (String " " (String lineFeed " "))))
     = Exit code errors)
  /\ startUp (mkSetting (Some "/usr/bin/chromedriver") (Returned tt)
                (Returned tt) (Returned (joinLines [home; ""; next])))
     = Crawl [home; next]
  /\ startUp (mkSetting (Some "/usr/bin/chromedriver") (Returned tt)
                (Returned tt)
                (Threw "ENOENT: no such file or directory, open 'urls.txt'"))
     = Rejected "ENOENT: no such file or directory, open 'urls.txt'".
Proof.
  split; [|split].
  - apply (proj1 (startUp_exit _)). right. split; [reflexivity|]. right.
    split; [reflexivity|]. eexists. split; reflexivity.
  - apply (proj1 (proj2 (proj2 (proj2 (startUp_exit _)))) [home; next]).
    repeat split. eexists. repeat split.
  - apply (proj1 (proj2 (proj2 (startUp_exit _))) _).
    split; [reflexivity|]. right. repeat split.
Defined.

Lemma seeds_run :
  crawlSeeds twice (start ∅ anchorScript) = Some (Returned tt, anchorDone).
Proof. vm_compute. reflexivity. Qed.

Lemma first_run :
  crawlPage 3 home 0 (start ∅ anchorScript) = Some (Returned tt, anchorDone).
Proof. vm_compute. reflexivity. Qed.

Lemma second_run :
  crawlPage 3 home 0 secondStart = Some (Returned tt, secondDone).
Proof. vm_compute. reflexivity. Qed.

Lemma crawl_depth_bound_witness :
  exists d,
    trace anchorDone = trace (start ∅ anchorScript) ++ d
    /\ forall u k, In (Console (LogCrawling u k)) d ->
                   (0 <= k <= Crawler.MAX_DEPTH)%Z.
Proof. exact (crawl_depth_bound 3 home 0 _ _ _ first_run). Defined.

Lemma crawled_once_witness :
  exists d,
    trace anchorDone = trace (start ∅ anchorScript) ++ d
    /\ crawlCount home d <= 1
    /\ (crawlCount home d = 1
        <-> (home ∉ visitedUrls (start ∅ anchorScript))
            /\ (home ∈ visitedUrls anchorDone)).
Proof. exact (crawled_once twice home _ _ _ seeds_run). Defined.

Lemma store_only_grows_witness :
  visited_urls (db (start ∅ anchorScript)) `prefix_of` visited_urls (db anchorDone)
  /\ page_contents (db (start ∅ anchorScript))
     `prefix_of` page_contents (db anchorDone)
  /\ clickable_nodes (db (start ∅ anchorScript))
     `prefix_of` clickable_nodes (db anchorDone).
Proof. exact (store_only_grows twice _ _ _ seeds_run). Defined.

Lemma crawl_stays_on_site_witness :
  exists d,
    trace anchorDone = trace (start ∅ anchorScript) ++ d
    /\ forall u k, In (Console (LogCrawling u k)) d -> onSite twice u.
Proof. exact (crawl_stays_on_site twice _ _ _ seeds_run). Defined.

Lemma stores_only_admitted_witness :
  exists d,
    trace anchorDone = trace (start ∅ anchorScript) ++ d
    /\ forall s, In (Sql s) d ->
                 pageOf s ∈ visitedUrls anchorDone
                 /\ pageOf s ∉ visitedUrls (start ∅ anchorScript).
Proof. exact (stores_only_admitted twice _ _ _ seeds_run). Defined.

Lemma second_unique : uniqueKeys (db secondStart).
Proof. repeat split; simpl; apply NoDup_singleton. Qed.

Lemma node_rows_first_wins_witness :
  length (nodeRows home "selector: html > body:nth-child(2) > a.nav.link"
            (db secondDone)) <= 1
  /\ nodeRows home "selector: html > body:nth-child(2) > a.nav.link"
       (db secondDone)
     = nodeRows home "selector: html > body:nth-child(2) > a.nav.link"
         (db secondStart).
Proof.
  destruct (node_rows_first_wins 3 home 0 secondStart (Returned tt) secondDone
              home "selector: html > body:nth-child(2) > a.nav.link"
              second_unique second_run) as [Hle Hsame].
  split; [exact Hle|]. apply Hsame. discriminate.
Defined.

Lemma tables_in_lockstep_witness :
  map pc_url (page_contents (db anchorDone)) = visited_urls (db anchorDone).
Proof.
  exact (tables_in_lockstep 3 home 0 (start ∅ anchorScript) _ _ eq_refl
           first_run).
Defined.

Lemma discovery_run :
  listClickableItems discoverStart
  = Some (Returned (fst discovered), snd discovered).
Proof. vm_compute. reflexivity. Qed.

Lemma listClickableItems_accounts_witness :
  db (snd discovered) = db discoverStart
  /\ visitedUrls (snd discovered) = visitedUrls discoverStart
  /\ ((exists e,
         Returned (fst discovered) = Threw e
         /\ trace (snd discovered)
            = trace discoverStart
              ++ [Driven (FindElements Crawler.clickableXPath) (Threw e)])
      \/ (exists els infos d,
            Returned (fst discovered) = Returned infos
            /\ trace (snd discovered)
               = trace discoverStart
                 ++ Driven (FindElements Crawler.clickableXPath) (Returned els)
                 :: d
            /\ length infos + skipCount d = length els)).
Proof. exact (listClickableItems_accounts _ _ _ discovery_run). Defined.

Lemma external_links_only_stored_witness :
  forOf [outbound; outbound] (processElement (crawlPage 0) home 0)
        (start ∅ anchorScript)
  = Some (Returned tt,
          mkWorld ∅ (storeAll home [outbound; outbound] (mkDatabase [] [] [] []))
                  anchorScript
                  [Sql (nodeInsert home outbound);
                   Sql (nodeInsert home outbound)]).
Proof.
  apply (external_links_only_stored (crawlPage 0) home 0 [outbound; outbound]
           (start ∅ anchorScript)).
  repeat constructor.
Defined.

Lemma mainLoop_unparsable_seed_witness :
  exists w1,
    mainLoop [home] (start ∅ []) = Some (Returned tt, w1)
    /\ mainLoop ([home] ++ brokenHref :: [next]) (start ∅ [])
       = Some (Threw "Invalid URL", w1).
Proof.
  apply mainLoop_unparsable_seed; [|reflexivity].
  constructor; [eexists; reflexivity | constructor].
Defined.

Lemma unparsable_href_witness :
  forOf ([] ++ 5 :: [6]) (sweepLink (crawlAndExtract 0) home "a.example" 0)
        (start ∅ [Attr (Some brokenHref); Attr (Some next)])
  = Some (Threw "Invalid URL",
          asked (GetAttribute 5 "href") (Returned (Some brokenHref))
                [Attr (Some next)]
                (start ∅ [Attr (Some brokenHref); Attr (Some next)]))
  /\ tryCatch (interact (crawlAndExtract 0) home "a.example" 0 5)
              (fun e => console (ErrClicking e))
              (start ∅ [Text "A"; Attr (Some brokenHref)])
     = Some (Returned tt,
             mkWorld ∅ (mkDatabase [] [] [] []) []
                     [Driven (GetTagName 5) (Returned "A");
                      Driven (GetAttribute 5 "href") (Returned (Some brokenHref));
                      Console (ErrClicking "Invalid URL")]).
Proof.
  destruct (unparsable_href (B := list Answer) (crawlAndExtract 0) home
              "a.example" 0 brokenHref eq_refl eq_refl) as [Hsweep Hloop].
  split.
  - exact (Hsweep [] 5 [6]
             (start ∅ [Attr (Some brokenHref); Attr (Some next)])
             (start ∅ [Attr (Some brokenHref); Attr (Some next)])
             [Attr (Some next)] eq_refl eq_refl).
  - exact (Hloop 5 "A" (start ∅ [Text "A"; Attr (Some brokenHref)])
             [Attr (Some brokenHref)] [] eq_refl eq_refl eq_refl).
Defined.

Lemma sibling_selectors_differ_witness :
  generateCssSelector (JElement sampleSpan)
  <> generateCssSelector (JElement sampleAnchor).
Proof.
  apply sibling_selectors_differ; try reflexivity; discriminate.
Defined.

Lemma readme_run :
  crawlAndExtract 3 home "a.example" 0 (start ∅ readmeScript)
  = Some (Returned tt, readmeDone).
Proof. vm_compute. reflexivity. Qed.

Lemma crawlAndExtract_stays_in_domain_witness :
  exists d,
    trace readmeDone = trace (start ∅ readmeScript) ++ d
    /\ forall u k, In (Console (LogCrawling u k)) d ->
                   (u = home /\ k = 0%Z) \/ inDomain "a.example" u.
Proof.
  exact (crawlAndExtract_stays_in_domain "a.example" 3 home 0 _ _ _ readme_run).
Defined.

Lemma loop_run :
  forOf twoButtons (processElement (nested 1) home 0) loopStart
  = Some (Returned tt, loopDone).
Proof. vm_compute. reflexivity. Qed.

Lemma descriptors_stored_in_order_witness :
  exists d k,
    trace loopDone = trace loopStart ++ d
    /\ k <= length twoButtons
    /\ statementsOf home d = map (nodeInsert home) (take k twoButtons)
    /\ (Returned tt = Returned tt -> k = length twoButtons).
Proof.
  apply (descriptors_stored_in_order 1 home 0 twoButtons loopStart
           (Returned tt) loopDone); [|exact loop_run].
  unfold loopStart, start. simpl. now apply elem_of_singleton_2.
Defined.

Lemma generateCssSelector_throws_witness :
  generateCssSelector (JElement (sampleSvgLink "")) = TypeError
  /\ generateCssSelector (JElement (sampleSvgLink "logo")) <> TypeError.
Proof.
  split.
  - now apply (proj1 (generateCssSelector_throws (sampleSvgLink ""))).
  - intros H.
    apply (proj1 (generateCssSelector_throws (sampleSvgLink "logo"))) in H.
    destruct H as [H _]. discriminate H.
Defined.

End MoreExamples.
